(** * Playlist player: catalog cursor arithmetic and the audio engine

    Shallow embedding of [assets/js/scripts.js] (classes [Track], [Playlist]
    and [AudioEngine]).  JavaScript numbers that are array indices are
    modelled as [Z] (the remainder operator [%] is exact on integer-valued
    numbers and truncates towards zero, which is [Z.rem]); numbers that are
    genuine IEEE-754 doubles (times, samples) are modelled with the binary64
    instance of [SpecFloat].  The sample formula of the specification is
    stated over the real numbers of [Reals] and related to the doubles
    through rational bounds. *)

From Stdlib Require Import ZArith QArith Qpower Qround List String Ascii Bool Lia Lqa.
From Stdlib Require Import DecimalString.
From Stdlib Require Import Reals Qreals.
From Stdlib Require Lra.
From Stdlib Require Import Floats.SpecFloat.
Import ListNotations.

Local Open Scope Z_scope.

(** ** Domain models *)

Module Playlist.

(** [class Track]: the constructor has already applied its defaults
    ([artist ?? "Artista"], [audioUrl ?? ""], [color ?? null]). *)
Record Track := mkTrack {
  id : string;
  title : string;
  artist : string;
  audioUrl : string;
  color : option string
}.

(** [class Playlist]: the array of tracks and the cursor [index]. *)
Record t := mk {
  tracks : list Track;
  index : Z
}.

(** [constructor(tracks = [])] *)
Definition new (ts : list Track) : t := {| tracks := ts; index := 0 |}.

(** [this.tracks.length] *)
Definition length (p : t) : Z := Z.of_nat (List.length (tracks p)).

(** [arr[i] ?? null]: reading an array outside [0, length) gives
    [undefined], which [??] turns into [null]. *)
Definition item_at {A} (l : list A) (i : Z) : option A :=
  if i <? 0 then None else nth_error l (Z.to_nat i).

(** [setIndex(i)]:
    [if(!this.tracks.length) return;
     this.index = ((i % n) + n) % n;] *)
Definition setIndex (i : Z) (p : t) : t :=
  if length p =? 0 then p
  else {| tracks := tracks p;
          index := Z.rem (Z.rem i (length p) + length p) (length p) |}.

(** [current(){ return this.tracks[this.index] ?? null; }] *)
Definition current (p : t) : option Track := item_at (tracks p) (index p).

(** [next(){ this.setIndex(this.index + 1); return this.current(); }]
    The result pairs the returned track with the updated playlist. *)
Definition next (p : t) : option Track * t :=
  let p' := setIndex (index p + 1) p in (current p', p').

(** [prev(){ this.setIndex(this.index - 1); return this.current(); }] *)
Definition prev (p : t) : option Track * t :=
  let p' := setIndex (index p - 1) p in (current p', p').

(** [byId(id){ return this.tracks.find(t => t.id === id) ?? null; }] *)
Definition byId (i : string) (p : t) : option Track :=
  find (fun t => String.eqb (id t) i) (tracks p).

(** The catalog built at start-up ([demoTracks]). *)
Definition demoTracks : list Track :=
  [ mkTrack "1" "Música player" "Canal A" "assets/musics/1.mp3" (Some "#12c274"%string);
    mkTrack "2" "Música player" "Canal B" "assets/audio2.mp3" (Some "#10b26a"%string);
    mkTrack "3" "Música player" "Canal C" "assets/audio3.mp3" (Some "#0fb366"%string);
    mkTrack "4" "Música player" "Canal D" "assets/audio4.mp3" (Some "#11a35f"%string);
    mkTrack "5" "Música player" "Canal E" "assets/audio5.mp3" None;
    mkTrack "6" "Música player" "Canal F" "assets/audio6.mp3" None;
    mkTrack "7" "Música player" "Canal G" "assets/audio7.mp3" None;
    mkTrack "8" "Música player" "Canal H" "assets/audio8.mp3" None;
    mkTrack "9" "Música player" "Canal I" "assets/audio9.mp3" None;
    mkTrack "10" "Música player" "Canal J" "assets/audio10.mp3" None;
    mkTrack "11" "Música player" "Canal K" "assets/audio11.mp3" None;
    mkTrack "12" "Música player" "Canal L" "assets/audio12.mp3" None ].

(** The navigation calls a client can make, and their effect on the
    playlist when run in sequence from a given state. *)
Inductive op := SetIndex (i : Z) | Next | Prev.

Definition step (p : t) (o : op) : t :=
  match o with
  | SetIndex i => setIndex i p
  | Next => snd (next p)
  | Prev => snd (prev p)
  end.

Definition run (ops : list op) (p : t) : t := fold_left step ops p.

(** The cursor invariant of the data model. *)
Definition in_range (p : t) : Prop := 0 <= index p < length p.

End Playlist.

(** ** JavaScript numbers: IEEE-754 binary64 *)

Module Number.

Definition prec : Z := 53.
Definition emax : Z := 1024.

Definition t := spec_float.

Definition NaN : t := S754_nan.

(** Arithmetic and comparison operators of the language. *)
Definition mul : t -> t -> t := SFmul prec emax.
Definition add : t -> t -> t := SFadd prec emax.
Definition div : t -> t -> t := SFdiv prec emax.
Definition ltb : t -> t -> bool := SFltb.
Definition leb : t -> t -> bool := SFleb.

(** An integer written in the source (or an integer-valued loop counter)
    as a number. *)
Definition of_Z (z : Z) : t := binary_normalize prec emax z 0 false.

(** Decimal literals of the source, as the doubles they denote, and
    [Math.PI]. *)
Definition lit_0_35 : t := S754_finite false 6305039478318694 (-54).
Definition lit_0_5 : t := S754_finite false 4503599627370496 (-53).
Definition lit_0_25 : t := S754_finite false 4503599627370496 (-54).
Definition Math_PI : t := S754_finite false 7074237752028440 (-51).

(** A double is well formed when its mantissa and exponent are the
    canonical ones of the format. *)
Definition well_formed (x : t) : bool := valid_binary prec emax x.

Definition isInfinite (x : t) : bool :=
  match x with
  | S754_infinity _ => true
  | _ => false
  end.

(** [Number.isFinite] *)
Definition isFinite (x : t) : bool :=
  match x with
  | S754_zero _ | S754_finite _ _ _ => true
  | _ => false
  end.

Definition isNaN (x : t) : bool :=
  match x with
  | S754_nan => true
  | _ => false
  end.

(** The rational number [m * 2^e], and the one a finite double stands
    for. *)
Definition F2Q (m e : Z) : Q := (inject_Z m * 2 ^ e)%Q.

Definition to_Q (x : t) : Q :=
  match x with
  | S754_finite s m e => F2Q (cond_Zopp s (Zpos m)) e
  | _ => 0%Q
  end.

(** [ToBoolean]: [0], [-0] and [NaN] are falsy. *)
Definition ToBoolean (x : t) : bool :=
  match x with
  | S754_zero _ | S754_nan => false
  | _ => true
  end.

(** [x || y] on numbers. *)
Definition or_else (x y : t) : t := if ToBoolean x then x else y.

(** [Math.max(a, b)] and [Math.min(a, b)]: [NaN] is contagious and
    [+0] counts as larger than [-0]. *)
Definition Math_max (a b : t) : t :=
  match a, b with
  | S754_nan, _ | _, S754_nan => S754_nan
  | _, _ =>
      if ltb a b then b
      else if ltb b a then a
      else match a with S754_zero true => b | _ => a end
  end.

Definition Math_min (a b : t) : t :=
  match a, b with
  | S754_nan, _ | _, S754_nan => S754_nan
  | _, _ =>
      if ltb a b then a
      else if ltb b a then b
      else match a with S754_zero false => b | _ => a end
  end.

(** [ToInt32]: truncate towards zero, then wrap modulo 2^32 into the
    signed range; [NaN], zeros and infinities give [0]. *)
Definition truncate (x : t) : Z :=
  match x with
  | S754_finite s m e => cond_Zopp s (Z.shiftl (Zpos m) e)
  | _ => 0
  end.

(** [Math.floor] of a finite double, as an integer. *)
Definition floor (x : t) : Z :=
  match x with
  | S754_finite s m e => Z.shiftl (cond_Zopp s (Zpos m)) e
  | _ => 0
  end.

Definition wrap_int32 (z : Z) : Z :=
  let r := z mod 4294967296 in
  if r <? 2147483648 then r else r - 4294967296.

Definition ToInt32 (x : t) : Z := wrap_int32 (truncate x).

(** [x | 0] *)
Definition bitor0 (x : t) : Z := Z.lor (ToInt32 x) 0.

(** [ToUint16], used by [String.fromCharCode]. *)
Definition ToUint16 (z : Z) : Z := z mod 65536.

End Number.

(** ** Binary strings and base64 *)

Module JSString.

(** A string of UTF-16 code units. *)
Definition units := list Z.

Definition of_string (s : string) : units :=
  map (fun a => Z.of_N (N_of_ascii a)) (list_ascii_of_string s).

(** [String.fromCharCode(c1, ..., cn)] *)
Definition fromCharCode (cs : list Z) : units := map Number.ToUint16 cs.

Fixpoint prefixb (p s : units) : bool :=
  match p, s with
  | [], _ => true
  | _ :: _, [] => false
  | a :: p', b :: s' => (a =? b) && prefixb p' s'
  end.

(** Splits [s] around the first occurrence of [pat]. *)
Fixpoint split_first (pat s : units) (before : units) : option (units * units) :=
  if prefixb pat s then Some (before, skipn (List.length pat) s)
  else match s with
       | [] => None
       | c :: s' => split_first pat s' (before ++ [c])
       end.

(** [GetSubstitution] for a string pattern (no capture groups):
    [$$] is a dollar sign, [$&] the match, [$`] and [$'] the text before
    and after it; any other character stands for itself. *)
Fixpoint substitution (rep matched before after : units) : units :=
  match rep with
  | 36 :: rest =>
      match rest with
      | 36 :: rest' => 36 :: substitution rest' matched before after
      | 38 :: rest' => matched ++ substitution rest' matched before after
      | 96 :: rest' => before ++ substitution rest' matched before after
      | 39 :: rest' => after ++ substitution rest' matched before after
      | _ => 36 :: substitution rest matched before after
      end
  | c :: rest => c :: substitution rest matched before after
  | [] => []
  end.

(** [s.replace(pat, rep)] with a string pattern: only the first
    occurrence is replaced. *)
Definition replace (pat rep s : units) : units :=
  match split_first pat s [] with
  | Some (before, after) => before ++ substitution rep pat before after ++ after
  | None => s
  end.

(** [s.slice(0, n)] *)
Definition slice0 (n : nat) (s : units) : units := firstn n s.

(** Outcome of a call that may throw. *)
Inductive completion (A : Type) :=
| Normal (a : A)
| Throw (name : string).
Arguments Normal {A} a.
Arguments Throw {A} name.

Definition bind {A B} (c : completion A) (k : A -> completion B) : completion B :=
  match c with
  | Normal a => k a
  | Throw n => Throw n
  end.

(** The base64 alphabet. *)
Definition alphabet : string :=
  "ABCDEFGHIJKLMNOPQRSTUVWXYZabcdefghijklmnopqrstuvwxyz0123456789+/".

Definition digit (z : Z) : ascii :=
  match String.get (Z.to_nat z) alphabet with
  | Some a => a
  | None => "="%char
  end.

(** Encoding of a sequence of octets, three at a time, with [=] padding. *)
Fixpoint encode (bs : list Z) : string :=
  match bs with
  | [] => EmptyString
  | [a] =>
      String (digit (Z.shiftr a 2))
        (String (digit (Z.shiftl (Z.land a 3) 4)) "==")
  | [a; b] =>
      String (digit (Z.shiftr a 2))
        (String (digit (Z.lor (Z.shiftl (Z.land a 3) 4) (Z.shiftr b 4)))
           (String (digit (Z.shiftl (Z.land b 15) 2)) "="))
  | a :: b :: c :: rest =>
      String (digit (Z.shiftr a 2))
        (String (digit (Z.lor (Z.shiftl (Z.land a 3) 4) (Z.shiftr b 4)))
           (String (digit (Z.lor (Z.shiftl (Z.land b 15) 2) (Z.shiftr c 6)))
              (String (digit (Z.land c 63)) (encode rest))))
  end.

(** [btoa(s)]: throws [InvalidCharacterError] when a code unit is above
    255, otherwise encodes the code units as octets. *)
Definition btoa (s : units) : completion string :=
  if forallb (fun c => c <=? 255) s then Normal (encode s)
  else Throw "InvalidCharacterError".

End JSString.

(** ** The audio engine *)

Module AudioEngine.

Import JSString.

(** The properties of the [HTMLAudioElement] that the engine reads and
    writes.  [duration] is [NaN] until the metadata is known. *)
Record Audio := mkAudio {
  src : string;
  duration : Number.t;
  currentTime : Number.t;
  paused : bool
}.

Definition set_src (s : string) (a : Audio) : Audio :=
  {| src := s; duration := duration a; currentTime := currentTime a;
     paused := paused a |}.

Definition set_currentTime (c : Number.t) (a : Audio) : Audio :=
  {| src := src a; duration := duration a; currentTime := c;
     paused := paused a |}.

(** What the element does when [src] is assigned and when [load()] is
    called: it runs its load algorithm, after which playback is paused,
    the position is 0 and the duration is unknown until the metadata of
    the new resource arrive. *)
Definition reset (a : Audio) : Audio :=
  {| src := src a; duration := Number.NaN; currentTime := Number.of_Z 0;
     paused := true |}.

(** [this.audio.src = s] *)
Definition assign_src (s : string) (a : Audio) : Audio := reset (set_src s a).

(** [this.audio.load?.()]: the element has the method, so it is called. *)
Definition audio_load (a : Audio) : Audio := reset a.

(** [this.audio.currentTime = v]: the attribute is a double that has to
    be finite; assigning [NaN] or an infinity throws a [TypeError] and
    leaves the position as it was. *)
Definition assign_currentTime (v : Number.t) (a : Audio) : completion Audio :=
  if Number.isFinite v then Normal (set_currentTime v a)
  else Throw "TypeError".

(** [seekPercent(p){ if(this.audio.duration>0){
      this.audio.currentTime = p * this.audio.duration; } }] *)
Definition seekPercent (p : Number.t) (a : Audio) : completion Audio :=
  if Number.ltb (Number.of_Z 0) (duration a)
  then assign_currentTime (Number.mul p (duration a)) a
  else Normal a.

(** The object handed to the time-update callback. *)
Record TimeInfo := mkTimeInfo {
  current : Number.t;
  total : Number.t;
  percent : Number.t
}.

(** [timeInfo()]:
    [const d = this.audio.duration || 0;
     const c = this.audio.currentTime || 0;
     const percent = d ? Math.min(1, Math.max(0, c/d)) : 0;] *)
Definition timeInfo (a : Audio) : TimeInfo :=
  let d := Number.or_else (duration a) (Number.of_Z 0) in
  let c := Number.or_else (currentTime a) (Number.of_Z 0) in
  let percent :=
    if Number.ToBoolean d
    then Number.Math_min (Number.of_Z 1)
           (Number.Math_max (Number.of_Z 0) (Number.div c d))
    else Number.of_Z 0 in
  {| current := c; total := d; percent := percent |}.

(** [clamp(x, 0, 1)] as the specification writes it. *)
Definition clamp01 (x : Number.t) : Number.t :=
  Number.Math_min (Number.of_Z 1) (Number.Math_max (Number.of_Z 0) x).

Section Beep.

(** [Math.sin] is implementation-approximated: the language fixes no
    bit pattern for its results, so it is a parameter here. *)
Variable Math_sin : Number.t -> Number.t.

(** Constants of [_tinyBeepDataURI]. *)
Definition sampleRate : Z := 8000.
Definition seconds : Number.t := Number.lit_0_25.
Definition freq : Z := 440.

(** [len = sampleRate * seconds | 0] *)
Definition len : Z :=
  Number.bitor0 (Number.mul (Number.of_Z sampleRate) seconds).

(** The header before its sizes are patched:
    ["RIFF????WAVEfmt " + String.fromCharCode(16,0,0,0,1,0,1,0,
       sampleRate&255, (sampleRate>>8)&255, (sampleRate>>16)&255,
       (sampleRate>>24)&255, 1,0,8,0) + "data????"] *)
Definition header : units :=
  of_string "RIFF????WAVEfmt "
  ++ fromCharCode
       [16; 0; 0; 0; 1; 0; 1; 0;
        Z.land sampleRate 255;
        Z.land (Z.shiftr sampleRate 8) 255;
        Z.land (Z.shiftr sampleRate 16) 255;
        Z.land (Z.shiftr sampleRate 24) 255;
        1; 0; 8; 0]
  ++ of_string "data????".

(** [v = Math.sin(2*Math.PI*freq*i/sampleRate)] *)
Definition phase (i : Z) : Number.t :=
  Number.div
    (Number.mul
       (Number.mul (Number.mul (Number.of_Z 2) Number.Math_PI)
          (Number.of_Z freq))
       (Number.of_Z i))
    (Number.of_Z sampleRate).

(** [u8 = (v*0.35 + 0.5)*255 | 0] *)
Definition u8_of (v : Number.t) : Z :=
  Number.bitor0
    (Number.mul
       (Number.add (Number.mul v Number.lit_0_35) Number.lit_0_5)
       (Number.of_Z 255)).

Definition u8 (i : Z) : Z := u8_of (Math_sin (phase i)).

(** [for(let i=0;i<len;i++){ ...; data += String.fromCharCode(u8); }]
    with [n] iterations left to run. *)
Fixpoint fill (n : nat) (i : Z) (data : units) : units :=
  match n with
  | O => data
  | S n' => fill n' (i + 1) (data ++ fromCharCode [u8 i])
  end.

Definition data : units := fill (Z.to_nat len) 0 [].

(** [function u32(n){ return String.fromCharCode(
      n&255,(n>>8)&255,(n>>16)&255,(n>>24)&255); }] *)
Definition u32 (n : Z) : units :=
  fromCharCode
    [Z.land n 255; Z.land (Z.shiftr n 8) 255;
     Z.land (Z.shiftr n 16) 255; Z.land (Z.shiftr n 24) 255].

Definition totalSize : Z := 36 + Z.of_nat (List.length data).
Definition chunkSize : Z := Z.of_nat (List.length data).

(** [wav = header.replace("????", u32(totalSize).slice(0,4))
                 .replace("????", u32(chunkSize).slice(0,4)) + data] *)
Definition patched_header : units :=
  replace (of_string "????") (slice0 4 (u32 chunkSize))
    (replace (of_string "????") (slice0 4 (u32 totalSize)) header).

Definition wav : units := patched_header ++ data.

(** [return "data:audio/wav;base64," + btoa(wav);] *)
Definition _tinyBeepDataURI : completion string :=
  bind (btoa wav) (fun b64 =>
  Normal ("data:audio/wav;base64," ++ b64)%string).

(** [load(track)]: a missing track is [None], and a promise that
    rejects is a [Throw].
    [if(!track || !track.audioUrl){ this.audio.src = this._tinyBeepDataURI(); }
     else { this.audio.src = track.audioUrl; }
     await this.audio.load?.();] *)
Definition load (track : option Playlist.Track) (a : Audio) : completion Audio :=
  bind
    (match track with
     | Some t =>
         if String.eqb (Playlist.audioUrl t) EmptyString
         then bind _tinyBeepDataURI (fun uri => Normal (assign_src uri a))
         else Normal (assign_src (Playlist.audioUrl t) a)
     | None => bind _tinyBeepDataURI (fun uri => Normal (assign_src uri a))
     end)
    (fun a' => Normal (audio_load a')).

End Beep.

(** What [Math.sin] returns on the arguments that the loop of the tone
    passes to it: a well-formed double between [-1] and [1]. *)
Definition sine_like (f : Number.t -> Number.t) : Prop :=
  forall i, 0 <= i < len ->
    Number.well_formed (f (phase i)) = true /\
    Number.leb (Number.of_Z (-1)) (f (phase i)) = true /\
    Number.leb (f (phase i)) (Number.of_Z 1) = true.

(** The sample as the specification writes it,
    [floor(v * 0.35 * 255 + 0.5 * 255)], computed in doubles like the
    code's own expression. *)
Definition u8_as_specified (v : Number.t) : Z :=
  Number.floor
    (Number.add
       (Number.mul (Number.mul v Number.lit_0_35) (Number.of_Z 255))
       (Number.mul Number.lit_0_5 (Number.of_Z 255))).

(** [new Audio()]: no source, unknown duration, position 0, paused. *)
Definition fresh : Audio :=
  {| src := EmptyString; duration := Number.NaN;
     currentTime := Number.of_Z 0; paused := true |}.

End AudioEngine.

(** ** The sample formula of the specification, over the reals *)

Module Sine.

Import Number AudioEngine.

(** The real number a finite double stands for. *)
Definition to_R (x : Number.t) : R := Q2R (to_Q x).

(** The sample as the specification writes it:
    [floor(sin(2 pi 440 i / 8000) * 0.35 * 255 + 0.5 * 255)], with the
    sine, the products and the sum those of the real numbers. *)
Definition ideal_sample (i : Z) : Z :=
  Int_part
    (sin (2 * PI * IZR freq * IZR i / IZR sampleRate) * 0.35 * 255
     + 0.5 * 255)%R.

(** A [Math.sin] that is accurate to [2^-13] on the arguments the tone
    loop passes to it, and returns well-formed finite doubles there. *)
Definition accurate_sine (f : Number.t -> Number.t) : Prop :=
  forall i, 0 <= i < len ->
    well_formed (f (phase i)) = true /\
    isFinite (f (phase i)) = true /\
    (Rabs (to_R (f (phase i)) - sin (to_R (phase i))) <= / 8192)%R.

(** *** Rational bounds of pi, from Machin-like series *)

(** [a^n] and [f 0 + ... + f n] on rationals. *)
Fixpoint qpow (a : Q) (n : nat) : Q :=
  match n with
  | O => 1%Q
  | S k => (a * qpow a k)%Q
  end.

Fixpoint qsum (f : nat -> Q) (n : nat) : Q :=
  match n with
  | O => f O
  | S k => (qsum f k + f (S k))%Q
  end.

(** [(-1)^n * x] *)
Definition alternate (n : nat) (x : Q) : Q := if Nat.even n then x else (- x)%Q.

(** [x^(2n+1) / (2n+1)], the [n]-th term of the arctangent series without
    its sign. *)
Definition atan_term (x : Q) (n : nat) : Q :=
  (qpow x (2 * n + 1) / inject_Z (Z.of_nat (2 * n + 1)))%Q.

(** Terms of [pi/4 = 2 atan (1/3) + atan (1/7)]. *)
Definition pi_term (n : nat) : Q :=
  alternate n (2 * atan_term (1 # 3) n + atan_term (1 # 7) n)%Q.

(** An odd number of terms is below pi, an even number above. *)
Definition pi_lo : Q := (4 * qsum pi_term 11)%Q.
Definition pi_hi : Q := (4 * qsum pi_term 10)%Q.

(** Decimal bounds of pi. *)
Definition pil : Q := 3141592653589 # 1000000000000.
Definition pih : Q := 3141592653594 # 1000000000000.

(** *** A table of the sine at the multiples of pi/100 *)

(** [n!] *)
Fixpoint zfact (n : nat) : Z :=
  match n with
  | O => 1
  | S k => Z.of_nat (S k) * zfact k
  end.

(** [x - x^3/3! + x^5/5! - x^7/7! + x^9/9! - x^11/11!] *)
Definition sin_poly (x : Q) : Q :=
  let y := (x * x)%Q in
  (x * (1 - y * (1 # 6) * (1 - y * (1 # 20) * (1 - y * (1 # 42) *
         (1 - y * (1 # 72) * (1 - y * (1 # 110)))))))%Q.

(** [3.1415926 * t / 100], just below [pi * t / 100]. *)
Definition angle (t : Z) : Q := 31415926 * t # 1000000000.

(** Bounds of [sin (pi * t / 100)], [0 <= t <= 50], in units of
    [2^-40]. *)
Definition quarter (t : Z) : Z * Z :=
  let q := Qfloor (sin_poly (angle t) * inject_Z (2 ^ 40)) in
  (q - 2 ^ 17, q + 2 ^ 18).

(** Bounds of [- s] from bounds of [s]. *)
Definition negate (b : Z * Z) : Z * Z := (- snd b, - fst b).

(** Bounds of [sin (pi * j / 100)], [0 <= j < 200], by quadrant. *)
Definition sine_j (j : Z) : Z * Z :=
  if j <=? 50 then quarter j
  else if j <=? 100 then quarter (100 - j)
  else if j <=? 150 then negate (quarter (j - 100))
  else negate (quarter (200 - j)).

(** Bounds of the sine of the [i]-th ideal angle [2 pi 440 i / 8000],
    which is [pi * 11 i / 100]. *)
Definition sine_units (i : Z) : Z * Z := sine_j ((11 * i) mod 200).

(** [z * 2^-40] as a real number. *)
Definition units_R (z : Z) : R := Q2R (F2Q z (-40)).

(** *** The phase computed in doubles against the ideal angle *)

(** The double [x] is within a quarter of [2^e <= 2^-32] of the interval
    [[pil * 11 i / 100, pih * 11 i / 100]]. *)
Definition close_to (x : Number.t) (i : Z) : bool :=
  match x with
  | S754_zero _ => i =? 0
  | S754_finite false m e =>
      (e <=? -32)
      && (Qnum pil * (11 * i) * (4 * 2 ^ (- e))
          <=? (4 * Zpos m + 1) * (100 * QDen pil))
      && ((4 * Zpos m - 1) * (100 * QDen pih)
          <=? Qnum pih * (11 * i) * (4 * 2 ^ (- e)))
  | _ => false
  end.

(** The phase the loop computes for sample [i] is that close to the
    ideal angle. *)
Definition phase_close (i : Z) : bool := close_to (phase i) i.

(** The indices the loop runs over. *)
Definition indices : list Z := map Z.of_nat (seq 0 2000).

End Sine.

(** ** Interval evaluation of the sample expression *)

Module SampleBounds.
Import Number AudioEngine.

(** Smallest integer at or above [a / b], for [0 < b]. *)
Definition cdiv (a b : Z) : Z := - ((- a) / b).

(** The sample computed from a double of sign [s] whose magnitude lies
    between [L * 2^-40] and [U * 2^-40], when the bounds leave only one
    possible value: bounds of [|v| * 0.35] in units of [2^-54], of
    [v * 0.35 + 0.5] in units of [2^-53], and of the product by 255 in
    units of [2^-45]. *)
Definition u8_mag (s : bool) (L U : Z) : option Z :=
  let La := (L * 6305039478318694) / 2 ^ 40 in
  let Ua := cdiv (U * 6305039478318694) (2 ^ 40) in
  let Lb := if s then (2 ^ 53 - Ua) / 2 else (2 ^ 53 + La) / 2 in
  let Ub := if s then cdiv (2 ^ 53 - La) 2 else cdiv (2 ^ 53 + Ua) 2 in
  let Ld := (Lb * 255) / 2 ^ 8 in
  let Ud := cdiv (Ub * 255) (2 ^ 8) in
  let k := Ld / 2 ^ 45 in
  if (0 <=? L) && (L <=? U) && (Ua <? 2 ^ 53) && (0 <? Lb) && (Ub <? 2 ^ 53)
     && (0 <? Ld) && (Ud <? 2 ^ 53) && (Ud <? (k + 1) * 2 ^ 45)
  then Some k else None.

(** [o] is [Some k]. *)
Definition Some_eqb (o : option Z) (k : Z) : bool :=
  match o with
  | Some z => z =? k
  | None => false
  end.

(** The sample is certainly [k] for every double between [lo * 2^-40] and
    [hi * 2^-40]: positive, negative and zero values are looked at
    separately. *)
Definition u8_certain (lo hi k : Z) : bool :=
  (if 0 <? hi then Some_eqb (u8_mag false (Z.max lo 0) hi) k else true)
  && (if lo <? 0 then Some_eqb (u8_mag true (Z.max (- hi) 0) (- lo)) k else true)
  && (if (lo <=? 0) && (0 <=? hi) then k =? 127 else true).

(** [x < y] on rationals. *)
Definition Qltb (x y : Q) : bool := Qnum x * QDen y <? Qnum y * QDen x.

(** The value of the specification's formula for a sine of [s * 2^-40]. *)
Definition formula_at (s : Z) : Q :=
  (F2Q s (-40) * (35 # 100) * 255 + (5 # 10) * 255)%Q.

(** For a sine between [fst b] and [snd b] (units of [2^-40]): every
    double within [2^-13 + 2^-28] of that interval gives one and the same
    sample, an octet, which is the floor of the formula on the whole
    interval. *)
Definition certain_sample (b : Z * Z) : bool :=
  let k := Qfloor (formula_at (fst b)) in
  (0 <=? k) && (k <? 256)
  && u8_certain (fst b - 2 ^ 27 - 2 ^ 12) (snd b + 2 ^ 27 + 2 ^ 12) k
  && Qltb (formula_at (snd b)) (inject_Z (k + 1)).

(** The lower bound as a double, and what makes it a table entry: it is
    a well-formed finite double that stands for the bound exactly. *)
Definition entry (b : Z * Z) : Number.t :=
  binary_normalize prec emax (fst b) (-40) false.

Definition entry_ok (b : Z * Z) : bool :=
  well_formed (entry b) && isFinite (entry b)
  && Qeq_bool (to_Q (entry b)) (F2Q (fst b) (-40)).

(** Both properties for the [t]-th bounds of the first quadrant and for
    their negation. *)
Definition quarter_check (t : Z) : bool :=
  let b := Sine.quarter t in
  certain_sample b && certain_sample (Sine.negate b)
  && entry_ok b && entry_ok (Sine.negate b).

(** Structural equality of doubles. *)
Definition same (x y : Number.t) : bool :=
  match x, y with
  | S754_zero a, S754_zero b => Bool.eqb a b
  | S754_infinity a, S754_infinity b => Bool.eqb a b
  | S754_nan, S754_nan => true
  | S754_finite a m e, S754_finite b n f =>
      Bool.eqb a b && Pos.eqb m n && Z.eqb e f
  | _, _ => false
  end.

(** A stand-in for [Math.sin] read off the table: on the phase of sample
    [i] it returns the tabulated lower bound of [sin (pi * 11 i / 100)]. *)
Definition table_sine (x : Number.t) : Number.t :=
  match find (fun i => same (phase i) x) Sine.indices with
  | Some i => entry (Sine.sine_units i)
  | None => S754_zero false
  end.

(** The same stand-in kept within [-1, 1], as the values of [Math.sin]
    are: the table's value, clamped. *)
Definition unit_sine (x : Number.t) : Number.t :=
  Math_max (of_Z (-1)) (Math_min (of_Z 1) (table_sine x)).

End SampleBounds.

(** ** The track constructor *)

Module Track.

(** The object literal handed to [new Track(...)]: [artist], [audioUrl]
    and [color] may be missing ([undefined]) or [null]. *)
Record Data := mkData {
  id : string;
  title : string;
  artist : option string;
  audioUrl : option string;
  color : option string
}.

(** [a ?? b]: [b] only when [a] is [null] or [undefined]. *)
Definition nullish {A} (a : option A) (b : A) : A :=
  match a with
  | Some x => x
  | None => b
  end.

(** [constructor(data){ this.id = data.id; this.title = data.title;
      this.artist = data.artist ?? "Artista";
      this.audioUrl = data.audioUrl ?? "";
      this.color = data.color ?? null; }] *)
Definition new (data : Data) : Playlist.Track :=
  Playlist.mkTrack (id data) (title data)
    (nullish (artist data) "Artista"%string)
    (nullish (audioUrl data) EmptyString)
    (color data).

End Track.

(** ** Rounding to binary64 *)

Module Rounding.

Import Number.

(** The mantissa [m], exponent [e] and location [l] handed to the
    rounding step stand for the non-negative rational [V]: [V] lies in
    [[m * 2^e, (m+1) * 2^e)], the location is exact when [V] is the lower
    end and says "below the middle" when it is, and the pair carries at
    least as many digits as the format keeps. *)
Definition represents (V : Q) (m e : Z) (l : location) : Prop :=
  0 <= m /\ (F2Q m e <= V)%Q /\ (V < F2Q (m + 1) e)%Q /\
  ((V == F2Q m e)%Q -> l = loc_Exact) /\
  ((V < F2Q (2 * m + 1) (e - 1))%Q -> l = loc_Exact \/ l = loc_Inexact Lt) /\
  e <= fexp prec emax (Zdigits2 m + e).

End Rounding.

(** ** Built-in operations used by the interface *)

Module Builtins.

Import Number.

(** [x - y] *)
Definition sub : t -> t -> t := SFsub prec emax.

(** [n % d]: the remainder has the sign of the dividend and is computed
    without rounding; the cases are tried in the order of the language
    definition. *)
Definition rem (n d : t) : t :=
  match n, d with
  | S754_nan, _ | _, S754_nan => NaN
  | S754_infinity _, _ => NaN
  | _, S754_infinity _ => n
  | _, S754_zero _ => NaN
  | S754_zero _, _ => n
  | S754_finite sn mn en, S754_finite _ md ed =>
      let e := Z.min en ed in
      binary_normalize prec emax
        (cond_Zopp sn ((Zpos mn * 2 ^ (en - e)) mod (Zpos md * 2 ^ (ed - e))))
        e sn
  end.

(** [Math.floor(x)] *)
Definition Math_floor (x : t) : t :=
  match x with
  | S754_finite s m e =>
      if 0 <=? e then x else binary_normalize prec emax (floor x) 0 false
  | _ => x
  end.

(** [Math.round(x)]: the nearest integer, a tie going up; a result of
    zero keeps the sign of [x]. *)
Definition Math_round (x : t) : t :=
  match x with
  | S754_finite s m e =>
      if 0 <=? e then x
      else binary_normalize prec emax
             (Z.shiftr (2 * cond_Zopp s (Zpos m) + 2 ^ (- e)) (1 - e)) 0 s
  | _ => x
  end.

(** The integer a finite double stands for, when it is one of magnitude
    below [2^53]. *)
Definition safe_integer (x : t) : option Z :=
  match x with
  | S754_zero _ => Some 0
  | S754_finite s m e =>
      let n := Z.shiftl (Zpos m) e in
      if (Z.shiftl n (- e) =? Zpos m) && (n <? 2 ^ 53)
      then Some (cond_Zopp s n) else None
  | _ => None
  end.

(** Decimal digits of an integer, with a minus sign when negative. *)
Definition decimal (n : Z) : string := NilZero.string_of_int (Z.to_int n).

Section ToString.

(** The digits of a finite number that is not an integer below [2^53]
    in magnitude are the shortest ones that read back as the same
    double; they play no part here and are left open. *)
Variable shortest_digits : t -> string.

(** [String(x)], [x + ""] and [`${x}`] for a number [x]. *)
Definition ToString (x : t) : string :=
  match x with
  | S754_nan => "NaN"
  | S754_infinity false => "Infinity"
  | S754_infinity true => "-Infinity"
  | S754_zero _ => "0"
  | S754_finite _ _ _ =>
      match safe_integer x with
      | Some n => decimal n
      | None => shortest_digits x
      end
  end.

End ToString.

(** [fillString] repeated and cut to [n] characters. *)
Fixpoint filler (n : nat) (fillString rest : string) : string :=
  match n with
  | O => EmptyString
  | S n' =>
      match rest with
      | String c r => String c (filler n' fillString r)
      | EmptyString =>
          match fillString with
          | String c r => String c (filler n' fillString r)
          | EmptyString => EmptyString
          end
      end
  end.

(** [s.padStart(maxLength, fillString)] *)
Definition padStart (maxLength : nat) (fillString s : string) : string :=
  if (maxLength <=? String.length s)%nat then s
  else (filler (maxLength - String.length s) fillString fillString ++ s)%string.

(** The two decimal digits of a number below one hundred. *)
Definition two_digits (r : Z) : string :=
  String (ascii_of_nat (48 + Z.to_nat (r / 10)))
    (String (ascii_of_nat (48 + Z.to_nat (r mod 10))) EmptyString).

(** A time of [n] whole seconds as minutes, a colon and two digits of
    seconds. *)
Definition clock (n : Z) : string :=
  (decimal (n / 60) ++ ":" ++ two_digits (n mod 60))%string.

(** A double that is zero or below. *)
Definition nonpos (y : t) : Prop :=
  match y with
  | S754_zero _ | S754_infinity true | S754_finite true _ _ => True
  | _ => False
  end.

End Builtins.

(** ** The player interface *)

Module PlayerUI.

Import Number Builtins AudioEngine.

(** What the interface writes into the page: the width of the progress
    bar, the [aria-valuenow] attribute of the progress track, the text
    for screen readers, the time read-out, the class of the play icon
    and the label of the play button. *)
Record View := mkView {
  progressBar_width : string;
  progress_valuenow : string;
  progressSr_text : string;
  time_text : string;
  playIcon_className : string;
  playBtn_label : string
}.

(** The part of [getBoundingClientRect()] the click handler reads. *)
Record Rect := mkRect {
  left : Number.t;
  width : Number.t
}.

(** The click handler of the progress track:
    [const p = (e.clientX - r.left) / r.width;
     this.engine.seekPercent(Math.max(0, Math.min(1, p)));] *)
Definition progress_click (clientX : Number.t) (r : Rect) (a : Audio) :
    JSString.completion Audio :=
  let p := div (sub clientX (left r)) (width r) in
  seekPercent (Math_max (of_Z 0) (Math_min (of_Z 1) p)) a.

(** [_updatePlayState(isPlaying)] *)
Definition _updatePlayState (isPlaying : bool) (v : View) : View :=
  {| progressBar_width := progressBar_width v;
     progress_valuenow := progress_valuenow v;
     progressSr_text := progressSr_text v;
     time_text := time_text v;
     playIcon_className := "icon " ++ (if isPlaying then "pause" else "play");
     playBtn_label := if isPlaying then "Pausar" else "Reproduzir" |}.

Section Display.

Variable shortest_digits : Number.t -> string.

(** [_fmt(sec){ const s = Math.floor(sec % 60);
      const m = Math.floor(sec / 60);
      return `${m}:${String(s).padStart(2,'0')}`; }] *)
Definition _fmt (sec : Number.t) : string :=
  let s := Math_floor (rem sec (of_Z 60)) in
  let m := Math_floor (div sec (of_Z 60)) in
  ToString shortest_digits m ++ ":" ++
  padStart 2 "0" (ToString shortest_digits s).

(** [_updateProgress({current, duration, percent})] *)
Definition _updateProgress (info : TimeInfo) (a : Audio) (v : View) : View :=
  let pct := Math_round (mul (percent info) (of_Z 100)) in
  _updatePlayState (negb (paused a))
    {| progressBar_width := ToString shortest_digits pct ++ "%";
       progress_valuenow := ToString shortest_digits pct;
       progressSr_text := ToString shortest_digits pct ++ "%";
       time_text :=
         _fmt (current info) ++
         (if ToBoolean (total info) then " / " ++ _fmt (total info) else "");
       playIcon_className := playIcon_className v;
       playBtn_label := playBtn_label v |}.

(** The listener of [timeupdate] once the interface has registered its
    callback: [this._onTime(this.timeInfo())] with
    [_onTime = (info) => this._updateProgress(info)]. *)
Definition on_timeupdate (a : Audio) (v : View) : View :=
  _updateProgress (timeInfo a) a v.

End Display.

(** A tile of the grid: the button that [renderGrid] creates for a
    track.  [is_current] tells whether its class list holds
    [is-current]; [click_index] and [click_track] are the [idx] and [t]
    that its click handler
    [()=>{ this.playlist.setIndex(idx); this.play(t); }] has captured. *)
Record Tile := mkTile {
  className : string;
  data_id : string;
  aria_label : string;
  innerHTML : string;
  is_current : bool;
  click_index : Z;
  click_track : Playlist.Track
}.

Definition quote : string := String (ascii_of_nat 34) EmptyString.
Definition newline : string := String (ascii_of_nat 10) EmptyString.

(** [t.color ? `background:${t.color}` : ''] *)
Definition cover_style (t : Playlist.Track) : string :=
  match Playlist.color t with
  | Some (String c rest) => "background:" ++ String c rest
  | _ => EmptyString
  end.

(** The markup assigned to [el.innerHTML]. *)
Definition tile_markup (t : Playlist.Track) : string :=
  newline ++
  "        <span class=" ++ quote ++ "cover" ++ quote ++ " style=" ++ quote ++
    cover_style t ++ quote ++ "></span>" ++ newline ++
  "        <span class=" ++ quote ++ "meta" ++ quote ++ ">" ++ newline ++
  "          <span class=" ++ quote ++ "title" ++ quote ++ ">" ++
    Playlist.title t ++ "</span>" ++ newline ++
  "          <span class=" ++ quote ++ "subtitle" ++ quote ++ ">" ++
    Playlist.artist t ++ "</span>" ++ newline ++
  "        </span>".

(** The body of the [forEach] callback of [renderGrid]. *)
Definition tile (idx : Z) (t : Playlist.Track) : Tile :=
  {| className := "track";
     data_id := Playlist.id t;
     aria_label := "Tocar " ++ Playlist.title t ++ " de " ++ Playlist.artist t;
     innerHTML := tile_markup t;
     is_current := false;
     click_index := idx;
     click_track := t |}.

(** [this.playlist.tracks.forEach((t,idx)=>{ ... })] from index [idx]
    on. *)
Fixpoint tiles_from (idx : Z) (ts : list Playlist.Track) : list Tile :=
  match ts with
  | [] => []
  | t :: ts' => tile idx t :: tiles_from (idx + 1) ts'
  end.

(** [el.classList.toggle("is-current", force)] *)
Definition toggle_current (force : bool) (el : Tile) : Tile :=
  {| className := className el;
     data_id := data_id el;
     aria_label := aria_label el;
     innerHTML := innerHTML el;
     is_current := force;
     click_index := click_index el;
     click_track := click_track el |}.

(** [_markCurrent()] over the elements of class [track]:
    [const id = this.playlist.current()?.id;
     ... el.classList.toggle("is-current", el.getAttribute("data-id") === id)] *)
Definition _markCurrent (p : Playlist.t) (els : list Tile) : list Tile :=
  let id := option_map Playlist.id (Playlist.current p) in
  map (fun el =>
         toggle_current
           (match id with
            | Some i => String.eqb (data_id el) i
            | None => false
            end) el) els.

(** [renderGrid()]: the tiles of the grid once it has run, the grid
    holding the only elements of class [track]. *)
Definition renderGrid (p : Playlist.t) : list Tile :=
  _markCurrent p (tiles_from 0 (Playlist.tracks p)).

End PlayerUI.

(** * Properties *)

(** ** The catalog cursor *)

Module PlaylistFacts.

Import Playlist.

Lemma rem_range (i n : Z) : 0 < n -> - n < Z.rem i n < n.
Proof.
  intros Hn.
  assert (Z.abs (Z.rem i n) < Z.abs n) by (apply Z.rem_bound_abs; lia).
  lia.
Qed.

(** The double-remainder formula of [setIndex] is the floor modulus. *)
Lemma wrap_mod (i n : Z) : 0 < n -> Z.rem (Z.rem i n + n) n = i mod n.
Proof.
  intros Hn.
  pose proof (rem_range i n Hn) as Hr.
  rewrite Z.rem_mod_nonneg by lia.
  replace (Z.rem i n + n) with (Z.rem i n + 1 * n) by lia.
  rewrite Z.mod_add by lia.
  rewrite (Z.quot_rem' i n) at 2.
  rewrite Z.add_comm, (Z.mul_comm n), Z.mod_add by lia.
  reflexivity.
Qed.

Lemma length_pos (p : t) : tracks p <> [] -> 0 < length p.
Proof.
  unfold length. destruct (tracks p); [congruence | simpl; lia].
Qed.

Lemma length_empty (p : t) : tracks p = [] -> length p = 0.
Proof. unfold length. intros ->. reflexivity. Qed.

Lemma setIndex_empty (i : Z) (p : t) : tracks p = [] -> setIndex i p = p.
Proof.
  intros He. unfold setIndex. now rewrite (length_empty p He).
Qed.

Lemma setIndex_tracks (i : Z) (p : t) : tracks (setIndex i p) = tracks p.
Proof. unfold setIndex. destruct (length p =? 0); reflexivity. Qed.

Lemma setIndex_length (i : Z) (p : t) : length (setIndex i p) = length p.
Proof. unfold length. now rewrite setIndex_tracks. Qed.

Lemma setIndex_index (i : Z) (p : t) :
  tracks p <> [] -> index (setIndex i p) = i mod length p.
Proof.
  intros Hne. pose proof (length_pos p Hne) as Hn.
  unfold setIndex. destruct (Z.eqb_spec (length p) 0); [lia |].
  simpl. now apply wrap_mod.
Qed.

Lemma item_at_in_range {A} (l : list A) (i : Z) :
  0 <= i < Z.of_nat (List.length l) ->
  item_at l i = nth_error l (Z.to_nat i) /\ item_at l i <> None.
Proof.
  intros Hi. unfold item_at.
  destruct (Z.ltb_spec i 0); [lia |]. split; [reflexivity |].
  apply nth_error_Some. lia.
Qed.

Lemma item_at_nil {A} (i : Z) : item_at (@nil A) i = None.
Proof.
  unfold item_at. destruct (i <? 0); [reflexivity |].
  now destruct (Z.to_nat i).
Qed.

Lemma step_tracks (o : op) (p : t) : tracks (step p o) = tracks p.
Proof. destruct o; simpl; apply setIndex_tracks. Qed.

Lemma run_tracks (ops : list op) (p : t) : tracks (run ops p) = tracks p.
Proof.
  revert p. induction ops as [| o ops IH]; intros p; simpl; [reflexivity |].
  unfold run in IH. now rewrite IH, step_tracks.
Qed.

Lemma setIndex_in_range (i : Z) (p : t) :
  tracks p <> [] -> in_range (setIndex i p).
Proof.
  intros Hne. unfold in_range.
  rewrite setIndex_length, setIndex_index by assumption.
  apply Z.mod_pos_bound. now apply length_pos.
Qed.

Lemma step_in_range (o : op) (p : t) :
  tracks p <> [] -> in_range (step p o).
Proof. intros Hne. destruct o; simpl; now apply setIndex_in_range. Qed.

Lemma run_in_range (ops : list op) (p : t) :
  tracks p <> [] -> in_range p -> in_range (run ops p).
Proof.
  revert p. induction ops as [| o ops IH]; intros p Hne Hr; simpl; [exact Hr |].
  apply IH.
  - now rewrite step_tracks.
  - now apply step_in_range.
Qed.

(** [prev] after [next] puts an in-range cursor back where it was. *)
Lemma prev_next_index (p : t) :
  tracks p <> [] -> in_range p -> index (snd (prev (snd (next p)))) = index p.
Proof.
  intros Hne Hr. pose proof (length_pos p Hne) as Hn.
  unfold prev, next. simpl.
  rewrite setIndex_index by now rewrite setIndex_tracks.
  rewrite setIndex_length, setIndex_index by assumption.
  rewrite Zminus_mod_idemp_l.
  replace (index p + 1 - 1) with (index p) by lia.
  apply Z.mod_small. exact Hr.
Qed.

Lemma prev_next_current (p : t) :
  tracks p = [] \/ in_range p ->
  current (snd (prev (snd (next p)))) = current p.
Proof.
  intros [He | Hr].
  - unfold prev, next. simpl.
    now rewrite (setIndex_empty _ p He), (setIndex_empty _ p He).
  - assert (Hne : tracks p <> []).
    { unfold in_range, length in Hr. destruct (tracks p); simpl in Hr; [lia | congruence]. }
    unfold current at 1. rewrite prev_next_index by assumption.
    unfold prev, next. simpl. now rewrite !setIndex_tracks.
Qed.

Lemma new_valid (ts : list Track) : tracks (new ts) = [] \/ in_range (new ts).
Proof.
  destruct ts as [| a ts]; [now left | right].
  unfold in_range, length. simpl. lia.
Qed.

(** C1: on a catalog with a non-empty track sequence of length [n], for
    every integer [i] (negative or beyond [n] included), [setIndex i]
    followed by [current] returns the track stored at position
    [((i % n) + n) % n]; that position lies in [0, n), is the floor
    modulus of [i], and holds a track. *)
Theorem setIndex_then_current (p : t) (i : Z) :
  tracks p <> [] ->
  let n := length p in
  let k := Z.rem (Z.rem i n + n) n in
  0 <= k < n /\ k = i mod n /\
  current (setIndex i p) = nth_error (tracks p) (Z.to_nat k) /\
  current (setIndex i p) <> None.
Proof.
  intros Hne n k. pose proof (length_pos p Hne) as Hn.
  assert (Hk : k = i mod n) by (now apply wrap_mod).
  assert (Hb : 0 <= k < n) by (rewrite Hk; now apply Z.mod_pos_bound).
  assert (Hi : index (setIndex i p) = k)
    by (rewrite Hk; now apply setIndex_index).
  assert (Hc : current (setIndex i p) = item_at (tracks p) k)
    by (unfold current; now rewrite Hi, setIndex_tracks).
  destruct (item_at_in_range (tracks p) k Hb) as [He Hs].
  rewrite Hc. repeat split; try tauto; lia.
Qed.

Lemma setIndex_then_current_witness :
  current (setIndex (-4) (new demoTracks)) = nth_error demoTracks 8 /\
  current (setIndex 31 (new demoTracks)) = nth_error demoTracks 7.
Proof.
  split.
  - apply (setIndex_then_current (new demoTracks) (-4)). discriminate.
  - apply (setIndex_then_current (new demoTracks) 31). discriminate.
Defined.

Lemma run_valid (ts : list Track) (ops : list op) :
  tracks (run ops (new ts)) = [] \/ in_range (run ops (new ts)).
Proof.
  destruct (new_valid ts) as [He | Hr].
  - left. now rewrite run_tracks.
  - right. apply run_in_range; [| exact Hr].
    unfold in_range, length in Hr.
    destruct (tracks (new ts)); simpl in Hr; [lia | congruence].
Qed.

Lemma byId_absent (key : string) (l : list Track) :
  (forall tr, In tr l -> id tr <> key) ->
  find (fun tr => String.eqb (id tr) key) l = None.
Proof.
  induction l as [| a l IH]; intros Hno; simpl; [reflexivity |].
  destruct (String.eqb_spec (id a) key) as [Heq | _].
  - exfalso. apply (Hno a); [now left | exact Heq].
  - apply IH. intros tr Hin. apply Hno. now right.
Qed.

(** C7: on an empty catalog [current], [next] and [prev] all return
    [null] and leave the catalog as it is; [setIndex] is defined for
    every integer on every catalog (a no-op on the empty one, and it
    never touches the tracks); and [byId] returns [null] whenever no
    track carries the requested id. *)
Theorem empty_catalog_is_safe (p q : t) (i : Z) (key : string) :
  tracks p = [] ->
  (forall tr, In tr (tracks q) -> id tr <> key) ->
  current p = None /\ next p = (None, p) /\ prev p = (None, p) /\
  setIndex i p = p /\
  (exists q', setIndex i q = q' /\ tracks q' = tracks q) /\
  byId key q = None.
Proof.
  intros He Hno.
  assert (Hc : current p = None)
    by (unfold current; rewrite He; apply item_at_nil).
  repeat split.
  - exact Hc.
  - unfold next. now rewrite (setIndex_empty _ p He), Hc.
  - unfold prev. now rewrite (setIndex_empty _ p He), Hc.
  - now apply setIndex_empty.
  - exists (setIndex i q). split; [reflexivity | apply setIndex_tracks].
  - unfold byId. now apply byId_absent.
Qed.

Lemma empty_catalog_is_safe_witness :
  current (new []) = None /\ next (new []) = (None, new []) /\
  prev (new []) = (None, new []) /\
  setIndex (-7) (new []) = new [] /\
  (exists q', setIndex (-7) (new demoTracks) = q' /\
              tracks q' = tracks (new demoTracks)) /\
  byId "13" (new demoTracks) = None.
Proof.
  apply (empty_catalog_is_safe (new []) (new demoTracks) (-7) "13").
  - reflexivity.
  - intros tr Hin. simpl in Hin.
    repeat (destruct Hin as [<- | Hin]; [discriminate |]).
    contradiction.
Defined.

(** C8: on a catalog built from a non-empty track sequence of length
    [n], the cursor is in [0, n) right after construction and after any
    sequence of [setIndex], [next] and [prev] calls. *)
Theorem cursor_always_in_range (ts : list Track) (ops : list op) :
  ts <> [] ->
  0 <= index (run ops (new ts)) < Z.of_nat (List.length ts).
Proof.
  intros Hne.
  destruct (run_valid ts ops) as [He | Hr].
  - rewrite run_tracks in He. simpl in He. congruence.
  - unfold in_range, length in Hr. now rewrite run_tracks in Hr.
Qed.

Lemma cursor_always_in_range_witness :
  0 <= index (run [Prev; Prev; SetIndex 100; Next] (new demoTracks)) < 12.
Proof.
  apply (cursor_always_in_range demoTracks [Prev; Prev; SetIndex 100; Next]).
  discriminate.
Defined.

(** C9: in every state a catalog can be in (any track sequence, empty or
    not, after any history of navigation calls), [next()] followed by
    [prev()] gives back the original value of [current()]. *)
Theorem prev_undoes_next (ts : list Track) (ops : list op) :
  let p := run ops (new ts) in
  current (snd (prev (snd (next p)))) = current p.
Proof.
  intros p. apply prev_next_current. apply run_valid.
Qed.

End PlaylistFacts.

(** ** Binary64 rounding *)

Module NumberFacts.

Import Number.

(** *** The constants of the source *)

(** Each decimal literal is the correctly rounded quotient of two
    integers, and so the double nearest to the decimal it is written as. *)
Lemma literals_correctly_rounded :
  lit_0_35 = div (of_Z 35) (of_Z 100) /\
  lit_0_5 = div (of_Z 1) (of_Z 2) /\
  lit_0_25 = div (of_Z 1) (of_Z 4).
Proof. split; [| split]; reflexivity. Qed.

Lemma literal_values :
  (to_Q lit_0_5 == 1 # 2)%Q /\ (to_Q lit_0_25 == 1 # 4)%Q /\
  (to_Q (of_Z 255) == 255)%Q /\
  ((35 # 100) - F2Q 1 (-55) <= to_Q lit_0_35)%Q /\
  (to_Q lit_0_35 <= 35 # 100)%Q.
Proof.
  split; [| split; [| split; [| split]]];
    vm_compute; solve [reflexivity | discriminate].
Qed.

(** *** Number of binary digits *)

Lemma digits2_pos_bounds (m : positive) :
  2 ^ (Zpos (digits2_pos m) - 1) <= Zpos m < 2 ^ Zpos (digits2_pos m).
Proof.
  induction m as [m IH | m IH |]; simpl digits2_pos.
  - rewrite Pos2Z.inj_succ.
    replace (Z.succ (Zpos (digits2_pos m)) - 1) with (Z.succ (Zpos (digits2_pos m) - 1)) by lia.
    rewrite !Z.pow_succ_r by lia. lia.
  - rewrite Pos2Z.inj_succ.
    replace (Z.succ (Zpos (digits2_pos m)) - 1) with (Z.succ (Zpos (digits2_pos m) - 1)) by lia.
    rewrite !Z.pow_succ_r by lia. lia.
  - simpl. lia.
Qed.

Lemma Zdigits2_nonneg (z : Z) : 0 <= Zdigits2 z.
Proof. destruct z; simpl; lia. Qed.

Lemma Zdigits2_bounds (z : Z) :
  0 < z -> 2 ^ (Zdigits2 z - 1) <= z < 2 ^ Zdigits2 z.
Proof.
  destruct z as [| m | m]; try lia. intros _. apply digits2_pos_bounds.
Qed.

Lemma Zdigits2_unique (z d : Z) :
  2 ^ (d - 1) <= z < 2 ^ d -> 0 < z -> Zdigits2 z = d.
Proof.
  intros Hb Hz. pose proof (Zdigits2_bounds z Hz) as Hd.
  pose proof (Zdigits2_nonneg z) as Hn.
  assert (Hd0 : 0 < d).
  { destruct (Z.lt_ge_cases 0 d) as [|Hle]; [assumption |].
    destruct (Z.eq_dec d 0) as [-> | Hne]; [simpl in Hb; lia |].
    rewrite (Z.pow_neg_r 2 d) in Hb by lia. lia. }
  destruct (Z.lt_trichotomy (Zdigits2 z) d) as [Hlt | [Heq | Hgt]]; [| exact Heq |].
  - exfalso.
    assert (2 ^ Zdigits2 z <= 2 ^ (d - 1)) by (apply Z.pow_le_mono_r; lia).
    lia.
  - exfalso.
    assert (2 ^ d <= 2 ^ (Zdigits2 z - 1)) by (apply Z.pow_le_mono_r; lia).
    lia.
Qed.

(** *** Shifting a mantissa right *)

Lemma iter_pos_nat {A} (f : A -> A) (p : positive) (x : A) :
  iter_pos f p x = Nat.iter (Pos.to_nat p) f x.
Proof.
  revert x. induction p as [p IH | p IH |]; intros x; cbn [iter_pos].
  - rewrite !IH, Pos2Nat.inj_xI, Nat.iter_succ_r.
    replace (2 * Pos.to_nat p)%nat with (Pos.to_nat p + Pos.to_nat p)%nat by lia.
    now rewrite Nat.iter_add.
  - rewrite !IH, Pos2Nat.inj_xO.
    replace (2 * Pos.to_nat p)%nat with (Pos.to_nat p + Pos.to_nat p)%nat by lia.
    now rewrite Nat.iter_add.
  - reflexivity.
Qed.

Lemma shr_1_m (mrs : shr_record) :
  0 <= shr_m mrs -> shr_m (shr_1 mrs) = shr_m mrs / 2.
Proof.
  destruct mrs as [m r s]. intros Hm. rewrite <- Z.div2_div.
  destruct m as [| [p | p |] | p]; try reflexivity.
  simpl in Hm. lia.
Qed.

Lemma shr_1_exact (mrs : shr_record) :
  0 <= shr_m mrs -> shr_m mrs mod 2 = 0 ->
  shr_r mrs = false -> shr_s mrs = false ->
  shr_r (shr_1 mrs) = false /\ shr_s (shr_1 mrs) = false.
Proof.
  destruct mrs as [m r s]. cbn [shr_m shr_r shr_s]. intros Hm Hev -> ->.
  destruct m as [| [p | p |] | p]; try (now split); try lia.
  exfalso. rewrite Pos2Z.inj_xI in Hev.
  rewrite Z.add_comm, Z.mul_comm, Z.mod_add in Hev by lia. discriminate.
Qed.

Lemma shr_iter_m (n : nat) (mrs : shr_record) :
  0 <= shr_m mrs ->
  shr_m (Nat.iter n shr_1 mrs) = shr_m mrs / 2 ^ Z.of_nat n.
Proof.
  intros Hm. induction n as [| n IH].
  - simpl. now rewrite Z.div_1_r.
  - rewrite Nat2Z.inj_succ, Z.pow_succ_r by lia. simpl Nat.iter.
    rewrite shr_1_m.
    + rewrite IH, Z.div_div by lia. f_equal. lia.
    + rewrite IH. apply Z.div_pos; lia.
Qed.

Lemma shr_iter_exact (n : nat) (mrs : shr_record) :
  0 <= shr_m mrs -> shr_m mrs mod 2 ^ Z.of_nat n = 0 ->
  shr_r mrs = false -> shr_s mrs = false ->
  shr_r (Nat.iter n shr_1 mrs) = false /\
  shr_s (Nat.iter n shr_1 mrs) = false.
Proof.
  intros Hm. induction n as [| n IH]; intros Hdiv Hr Hs.
  - simpl. now split.
  - rewrite Nat2Z.inj_succ, Z.pow_succ_r in Hdiv by lia.
    assert (Hp : 0 < 2 ^ Z.of_nat n) by (apply Z.pow_pos_nonneg; lia).
    assert (Hdiv' : shr_m mrs mod 2 ^ Z.of_nat n = 0).
    { apply Z.mod_divide in Hdiv; [| lia]. apply Z.mod_divide; [lia |].
      destruct Hdiv as [q Hq]. exists (q * 2). lia. }
    destruct (IH Hdiv' Hr Hs) as [Hr' Hs'].
    simpl Nat.iter. apply shr_1_exact; try assumption.
    + rewrite shr_iter_m by assumption. apply Z.div_pos; lia.
    + rewrite shr_iter_m by assumption.
      apply Z.mod_divide in Hdiv; [| lia]. destruct Hdiv as [q Hq].
      rewrite Hq.
      replace (q * (2 * 2 ^ Z.of_nat n)) with (q * 2 * 2 ^ Z.of_nat n) by lia.
      rewrite Z.div_mul by lia. rewrite Z.mul_comm, Z.mul_comm.
      apply Z.mod_mul. lia.
Qed.

Lemma pow2_pos (e : Z) : (0 < 2 ^ e)%Q.
Proof. apply Qpower_0_lt. reflexivity. Qed.

Lemma pow2_split (a b : Z) : (2 ^ (a + b) == 2 ^ a * 2 ^ b)%Q.
Proof. apply Qpower_plus. discriminate. Qed.

Lemma F2Q_shift (m e k : Z) : 0 <= k -> (F2Q (m * 2 ^ k) e == F2Q m (e + k))%Q.
Proof.
  intros Hk. unfold F2Q.
  rewrite inject_Z_mult, Zpower_Qpower by assumption.
  change (inject_Z 2) with 2%Q.
  rewrite (Z.add_comm e k), pow2_split. ring.
Qed.

Lemma F2Q_le_same (a b e : Z) : (F2Q a e <= F2Q b e)%Q <-> a <= b.
Proof.
  unfold F2Q. rewrite Qmult_le_r by apply pow2_pos. now rewrite <- Zle_Qle.
Qed.

Lemma F2Q_lt_same (a b e : Z) : (F2Q a e < F2Q b e)%Q <-> a < b.
Proof.
  unfold F2Q. rewrite Qmult_lt_r by apply pow2_pos. now rewrite <- Zlt_Qlt.
Qed.

Lemma F2Q_le_l (a b e1 e2 : Z) :
  e1 <= e2 -> (F2Q a e1 <= F2Q b e2)%Q <-> a <= b * 2 ^ (e2 - e1).
Proof.
  intros He. rewrite <- (F2Q_le_same a _ e1).
  rewrite (F2Q_shift b e1 (e2 - e1)) by lia.
  now replace (e1 + (e2 - e1)) with e2 by lia.
Qed.

Lemma F2Q_le_r (a b e1 e2 : Z) :
  e2 <= e1 -> (F2Q a e1 <= F2Q b e2)%Q <-> a * 2 ^ (e1 - e2) <= b.
Proof.
  intros He. rewrite <- (F2Q_le_same _ b e2).
  rewrite (F2Q_shift a e2 (e1 - e2)) by lia.
  now replace (e2 + (e1 - e2)) with e1 by lia.
Qed.

Lemma F2Q_lt_r (a b e1 e2 : Z) :
  e2 <= e1 -> (F2Q a e1 < F2Q b e2)%Q <-> a * 2 ^ (e1 - e2) < b.
Proof.
  intros He. rewrite <- (F2Q_lt_same _ b e2).
  rewrite (F2Q_shift a e2 (e1 - e2)) by lia.
  now replace (e2 + (e1 - e2)) with e1 by lia.
Qed.

Lemma F2Q_mul (a b e1 e2 : Z) : (F2Q a e1 * F2Q b e2 == F2Q (a * b) (e1 + e2))%Q.
Proof. unfold F2Q. rewrite inject_Z_mult, pow2_split. ring. Qed.

Lemma F2Q_add (a b e : Z) : (F2Q a e + F2Q b e == F2Q (a + b) e)%Q.
Proof. unfold F2Q. rewrite inject_Z_plus. ring. Qed.

Lemma F2Q_pos (m : positive) (e : Z) : (0 < F2Q (Zpos m) e)%Q.
Proof.
  unfold F2Q. apply Qmult_lt_0_compat; [reflexivity | apply pow2_pos].
Qed.

Lemma fexp_eq (e : Z) : fexp prec emax e = Z.max (e - 53) (-1074).
Proof. reflexivity. Qed.

(** [shr] drops [Z.max n 0] low bits and reports an exact location when
    the dropped bits were all zero. *)
Lemma shr_spec (mrs : shr_record) (e n : Z) :
  0 <= shr_m mrs ->
  let sh := Z.max n 0 in
  snd (shr mrs e n) = e + sh /\
  shr_m (fst (shr mrs e n)) = shr_m mrs / 2 ^ sh /\
  (shr_r mrs = false -> shr_s mrs = false -> shr_m mrs mod 2 ^ sh = 0 ->
   loc_of_shr_record (fst (shr mrs e n)) = loc_Exact).
Proof.
  intros Hm sh. unfold shr. destruct n as [| p | p]; cbn [fst snd].
  - subst sh. simpl Z.max. rewrite Z.add_0_r, Z.pow_0_r, Z.div_1_r.
    repeat split. intros Hr Hs _. destruct mrs as [m r s]. simpl in *. now subst.
  - assert (Hsh : sh = Zpos p) by (subst sh; lia). rewrite Hsh.
    rewrite iter_pos_nat. rewrite <- (positive_nat_Z p).
    repeat split.
    + apply shr_iter_m. assumption.
    + intros Hr Hs Hd.
      destruct (shr_iter_exact (Pos.to_nat p) mrs Hm Hd Hr Hs) as [Hr' Hs'].
      destruct (Nat.iter (Pos.to_nat p) shr_1 mrs) as [m' r' s'].
      simpl in *. now subst.
  - assert (Hsh : sh = 0) by (subst sh; lia). rewrite Hsh.
    rewrite Z.add_0_r, Z.pow_0_r, Z.div_1_r.
    repeat split. intros Hr Hs _. destruct mrs as [m r s]. simpl in *. now subst.
Qed.

Lemma round_nearest_even_bounds (m : Z) (l : location) :
  m <= round_nearest_even m l <= m + 1.
Proof.
  destruct l as [| []]; simpl; try lia. destruct (Z.even m); lia.
Qed.

(** After rounding, the mantissa may have gained one digit; the second
    normalisation then drops a zero bit and loses nothing. *)
Lemma renormalise_exact (m' m1 E : Z) :
  0 <= m' -> m' <= m1 <= m' + 1 ->
  fexp prec emax (Zdigits2 m' + E) <= E -> -1074 <= E ->
  let res := shr_fexp prec emax m1 E loc_Exact in
  0 <= shr_m (fst res) /\
  E <= snd res <= E + 1 /\
  shr_m (fst res) * 2 ^ (snd res - E) = m1.
Proof.
  intros Hm' Hm1 Hfe HE res.
  unfold shr_fexp in res. cbn [shr_record_of_loc] in res.
  set (mrs := {| shr_m := m1; shr_r := false; shr_s := false |}) in res.
  set (n := fexp prec emax (Zdigits2 m1 + E) - E) in res.
  assert (H0 : 0 <= shr_m mrs) by (simpl; lia).
  destruct (shr_spec mrs E n H0) as (He & Hm & _). fold res in He, Hm.
  simpl shr_m in Hm.
  assert (Hcase : Z.max n 0 = 0 \/ (Z.max n 0 = 1 /\ m1 mod 2 = 0)).
  { rewrite fexp_eq in Hfe. subst n. rewrite fexp_eq.
    destruct (Z.eq_dec m1 m') as [-> | Hne]; [left; lia |].
    assert (Hs : m1 = m' + 1) by lia.
    destruct (Z.eq_dec m' 0) as [-> | Hpos].
    { subst m1. simpl Zdigits2. left. lia. }
    assert (Hp : 0 < m') by lia.
    pose proof (Zdigits2_bounds m' Hp) as Hd.
    pose proof (Zdigits2_nonneg m') as Hdn.
    destruct (Z.eq_dec m1 (2 ^ Zdigits2 m')) as [Hpow | Hnp].
    - assert (Hd1 : Zdigits2 m1 = Zdigits2 m' + 1).
      { apply Zdigits2_unique; [| lia].
        replace (Zdigits2 m' + 1 - 1) with (Zdigits2 m') by lia.
        rewrite Z.pow_add_r by lia. lia. }
      rewrite Hd1.
      assert (Hdp : 0 < Zdigits2 m').
      { destruct m'; simpl; lia. }
      assert (Hev : m1 mod 2 = 0).
      { rewrite Hpow.
        replace (Zdigits2 m') with ((Zdigits2 m' - 1) + 1) by lia.
        rewrite Z.pow_add_r by lia. apply Z.mod_mul. lia. }
      lia.
    - assert (Hd1 : Zdigits2 m1 = Zdigits2 m').
      { apply Zdigits2_unique; lia. }
      rewrite Hd1. left. lia. }
  rewrite He, Hm.
  destruct Hcase as [-> | [-> Hev]].
  - rewrite Z.pow_0_r, Z.div_1_r, Z.add_0_r, Z.sub_diag, Z.pow_0_r.
    repeat split; lia.
  - replace (E + 1 - E) with 1 by lia.
    change (2 ^ 1) with 2.
    pose proof (Z.div_mod m1 2 ltac:(lia)) as Hdm.
    assert (0 <= m1 / 2) by (apply Z.div_pos; lia).
    repeat split; lia.
Qed.

Lemma Zdigits2_div_pow2 (m k : Z) :
  0 <= k -> 0 < m / 2 ^ k -> Zdigits2 (m / 2 ^ k) = Zdigits2 m - k.
Proof.
  intros Hk Hq.
  assert (Hp : 0 < 2 ^ k) by (apply Z.pow_pos_nonneg; lia).
  assert (Hm : 0 < m).
  { destruct (Z.lt_ge_cases 0 m) as [| Hle]; [assumption |].
    assert (m / 2 ^ k <= 0) by (apply Z.div_le_upper_bound; lia). lia. }
  pose proof (Zdigits2_bounds m Hm) as [Hlo Hhi].
  assert (Hkd : k < Zdigits2 m).
  { destruct (Z.lt_ge_cases k (Zdigits2 m)) as [| Hge]; [assumption |].
    assert (2 ^ Zdigits2 m <= 2 ^ k) by (apply Z.pow_le_mono_r; lia).
    rewrite Z.div_small in Hq by lia. lia. }
  apply Zdigits2_unique; [| assumption]. split.
  - apply Z.div_le_lower_bound; [assumption |].
    rewrite <- Z.pow_add_r by lia.
    now replace (k + (Zdigits2 m - k - 1)) with (Zdigits2 m - 1) by lia.
  - apply Z.div_lt_upper_bound; [assumption |].
    rewrite <- Z.pow_add_r by lia.
    now replace (k + (Zdigits2 m - k)) with (Zdigits2 m) by lia.
Qed.

(** What rounding an exact product or sum [m * 2^e] to the format
    returns: with [E] the exponent of the grid the result lives on, the
    result stands for [r * 2^E] where [r] is [m / 2^(E-e)] rounded down
    or up, and is that quotient itself when the division is exact. *)
Lemma binary_round_aux_spec (s : bool) (m : positive) (e : Z) :
  let E := Z.max e (fexp prec emax (Zpos (digits2_pos m) + e)) in
  E + 1 <= emax - prec ->
  exists r m1 e1 : Z,
    Zpos m / 2 ^ (E - e) <= r <= Zpos m / 2 ^ (E - e) + 1 /\
    (Zpos m mod 2 ^ (E - e) = 0 -> r = Zpos m / 2 ^ (E - e)) /\
    0 <= m1 /\ E <= e1 <= E + 1 /\ m1 * 2 ^ (e1 - E) = r /\
    binary_round_aux prec emax s (Zpos m) e loc_Exact =
      match m1 with
      | Zpos p => S754_finite s p e1
      | _ => S754_zero s
      end.
Proof.
  intros E HE.
  set (d := Zpos (digits2_pos m)) in *.
  set (n := fexp prec emax (d + e) - e).
  assert (Hsh : Z.max n 0 = E - e) by (subst n E; lia).
  set (mrs := {| shr_m := Zpos m; shr_r := false; shr_s := false |}).
  assert (H0 : 0 <= shr_m mrs) by (simpl; lia).
  destruct (shr_spec mrs e n H0) as (He' & Hm' & Hex).
  rewrite Hsh in He', Hm', Hex. simpl shr_m in Hm', Hex.
  set (m' := Zpos m / 2 ^ (E - e)) in *.
  assert (Hpw : 0 < 2 ^ (E - e)) by (apply Z.pow_pos_nonneg; subst E; lia).
  assert (Hm'0 : 0 <= m') by (apply Z.div_pos; lia).
  set (r := round_nearest_even (shr_m (fst (shr mrs e n)))
              (loc_of_shr_record (fst (shr mrs e n)))).
  assert (Hr : m' <= r <= m' + 1).
  { subst r. rewrite Hm'. apply round_nearest_even_bounds. }
  assert (Hrex : Zpos m mod 2 ^ (E - e) = 0 -> r = m').
  { intros Hd. subst r. rewrite Hex by (reflexivity || assumption).
    simpl. exact Hm'. }
  assert (Hfe : fexp prec emax (Zdigits2 m' + E) <= E).
  { destruct (Z.eq_dec m' 0) as [Hz | Hnz].
    - rewrite Hz. simpl Zdigits2. rewrite fexp_eq. subst E. rewrite fexp_eq. lia.
    - subst m'. rewrite Zdigits2_div_pow2 by lia.
      change (Zdigits2 (Zpos m)) with d.
      replace (d - (E - e) + E) with (d + e) by lia. subst E. lia. }
  assert (HEmin : -1074 <= E) by (subst E; rewrite fexp_eq; lia).
  destruct (renormalise_exact m' r E Hm'0 Hr Hfe HEmin) as (Hn0 & Hn1 & Hn2).
  exists r, (shr_m (fst (shr_fexp prec emax r E loc_Exact))),
         (snd (shr_fexp prec emax r E loc_Exact)).
  repeat split; try assumption; try lia.
  unfold binary_round_aux.
  change (shr_fexp prec emax (Zpos m) e loc_Exact) with (shr mrs e n).
  destruct (shr mrs e n) as [mrs1 e1] eqn:Hshr.
  cbn [fst snd] in *. subst e1. fold r.
  replace (e + (E - e)) with E by lia.
  destruct (shr_fexp prec emax r E loc_Exact) as [mrs2 e2] eqn:Hshr2.
  cbn [fst snd] in *.
  destruct (shr_m mrs2) as [| p | p]; try reflexivity; [| lia].
  destruct (Z.leb_spec e2 (emax - prec)); [reflexivity | lia].
Qed.

Lemma F2Q_zero (e : Z) : (F2Q 0 e == 0)%Q.
Proof. unfold F2Q. ring. Qed.

Lemma F2Q_nonpos (m e : Z) : (F2Q m e <= 0)%Q -> m <= 0.
Proof.
  intros H. rewrite <- (F2Q_zero e) in H. now apply F2Q_le_same in H.
Qed.

(** A positive dyadic below [2^k] has its leading bit below position [k]. *)
Lemma magnitude_bound (m : positive) (e k : Z) :
  (F2Q (Zpos m) e < F2Q 1 k)%Q -> Zpos (digits2_pos m) + e <= k.
Proof.
  intros Hlt.
  destruct (Z.le_gt_cases (Zpos (digits2_pos m) + e) k) as [| Hgt]; [assumption |].
  exfalso.
  pose proof (digits2_pos_bounds m) as [Hlo _].
  set (d := Zpos (digits2_pos m)) in *.
  assert (H1 : (F2Q 1 k <= F2Q (Zpos m) e)%Q).
  { apply Qle_trans with (F2Q (1 * 2 ^ (d - 1)) e).
    - rewrite F2Q_shift by lia. apply F2Q_le_l; [lia |].
      assert (0 < 2 ^ (e + (d - 1) - k)) by (apply Z.pow_pos_nonneg; lia). lia.
    - apply F2Q_le_same. lia. }
  apply (Qlt_irrefl (F2Q 1 k)). eapply Qle_lt_trans; eassumption.
Qed.

(** Rounding keeps a value between any two dyadic bounds that lie on the
    grid of the result. *)
Lemma binary_round_aux_bounds (s : bool) (m : positive)
      (e k ML EL MU EU : Z) :
  e + 1 <= emax - prec -> fexp prec emax k + 1 <= emax - prec ->
  fexp prec emax k <= EL -> fexp prec emax k <= EU ->
  (F2Q MU EU < F2Q 1 k)%Q ->
  (F2Q ML EL <= F2Q (Zpos m) e)%Q -> (F2Q (Zpos m) e <= F2Q MU EU)%Q ->
  match binary_round_aux prec emax s (Zpos m) e loc_Exact with
  | S754_zero s' => s' = s /\ ML <= 0
  | S754_finite s' m' e' =>
      s' = s /\ (F2Q ML EL <= F2Q (Zpos m') e')%Q /\
      (F2Q (Zpos m') e' <= F2Q MU EU)%Q /\
      e' <= Z.max e (fexp prec emax k) + 1
  | _ => False
  end.
Proof.
  intros He Hk HEL HEU Hmag HL HU.
  assert (Hd : Zpos (digits2_pos m) + e <= k).
  { apply magnitude_bound. eapply Qle_lt_trans; eassumption. }
  set (d := Zpos (digits2_pos m)) in *.
  assert (Hfk : fexp prec emax (d + e) <= fexp prec emax k)
    by (rewrite !fexp_eq; lia).
  destruct (binary_round_aux_spec s m e) as (r & m1 & e1 & Hr & Hrex & Hm1 & He1 & Hval & Hres).
  { fold d. lia. }
  fold d in Hr, Hrex, He1, Hval, Hres.
  set (E := Z.max e (fexp prec emax (d + e))) in *.
  assert (Hpw : 0 < 2 ^ (E - e)) by (apply Z.pow_pos_nonneg; subst E; lia).
  assert (HrL : (F2Q ML EL <= F2Q r E)%Q).
  { destruct (Z.eq_dec E e) as [Heq | Hne].
    - rewrite Heq in *. rewrite Z.sub_diag, Z.pow_0_r in *.
      rewrite Z.div_1_r in *. rewrite (Hrex (Z.mod_1_r _)). exact HL.
    - assert (HEe : e < E) by (subst E; lia).
      assert (HEL' : E <= EL) by (subst E; lia).
      apply F2Q_le_r; [assumption |].
      apply F2Q_le_r in HL; [| lia].
      replace (EL - e) with ((EL - E) + (E - e)) in HL by lia.
      rewrite Z.pow_add_r, Z.mul_assoc in HL by lia.
      apply Z.le_trans with (Zpos m / 2 ^ (E - e)); [| lia].
      apply Z.div_le_lower_bound; lia. }
  assert (HrU : (F2Q r E <= F2Q MU EU)%Q).
  { destruct (Z.eq_dec E e) as [Heq | Hne].
    - rewrite Heq in *. rewrite Z.sub_diag, Z.pow_0_r in *.
      rewrite Z.div_1_r in *. rewrite (Hrex (Z.mod_1_r _)). exact HU.
    - assert (HEe : e < E) by (subst E; lia).
      assert (HEU' : E <= EU) by (subst E; lia).
      apply F2Q_le_l; [assumption |].
      apply F2Q_le_l in HU; [| lia].
      replace (EU - e) with ((EU - E) + (E - e)) in HU by lia.
      rewrite Z.pow_add_r, Z.mul_assoc in HU by lia.
      set (u := MU * 2 ^ (EU - E)) in *.
      pose proof (Z.div_mod (Zpos m) (2 ^ (E - e)) ltac:(lia)) as Hdm.
      pose proof (Z.mod_pos_bound (Zpos m) (2 ^ (E - e)) Hpw) as Hmb.
      destruct (Z.eq_dec (Zpos m mod 2 ^ (E - e)) 0) as [Hz | Hnz].
      + rewrite (Hrex Hz). apply Z.div_le_upper_bound; lia.
      + assert (Zpos m / 2 ^ (E - e) < u) by nia. lia. }
  assert (Hv : (F2Q m1 e1 == F2Q r E)%Q).
  { rewrite <- Hval. rewrite F2Q_shift by lia.
    now replace (E + (e1 - E)) with e1 by lia. }
  rewrite Hres. destruct m1 as [| p | p]; [| | lia].
  - split; [reflexivity |].
    rewrite Z.mul_0_l in Hval. subst r.
    apply (F2Q_nonpos ML EL). rewrite <- (F2Q_zero E). exact HrL.
  - rewrite Hv. repeat split; try assumption. subst E. lia.
Qed.

Lemma F2Q_lt_l (a b e1 e2 : Z) :
  e1 <= e2 -> (F2Q a e1 < F2Q b e2)%Q <-> a < b * 2 ^ (e2 - e1).
Proof.
  intros He. rewrite <- (F2Q_lt_same a _ e1).
  rewrite (F2Q_shift b e1 (e2 - e1)) by lia.
  now replace (e1 + (e2 - e1)) with e2 by lia.
Qed.

(** *** Aligning mantissas *)

Lemma iter_xO (m d : positive) : Zpos (Pos.iter xO m d) = Zpos m * 2 ^ Zpos d.
Proof.
  induction d as [| d IH] using Pos.peano_ind.
  - simpl. lia.
  - rewrite Pos.iter_succ, Pos2Z.inj_xO, IH, Pos2Z.inj_succ, Z.pow_succ_r by lia.
    lia.
Qed.

Lemma shl_align_spec (m : positive) (e e' : Z) :
  snd (shl_align m e e') = Z.min e e' /\
  Zpos (fst (shl_align m e e')) = Zpos m * 2 ^ (e - Z.min e e').
Proof.
  unfold shl_align. destruct (e' - e) as [| d | d] eqn:Hd; cbn [fst snd].
  - assert (Z.min e e' = e) as -> by lia. rewrite Z.sub_diag. simpl. lia.
  - assert (Z.min e e' = e) as -> by lia. rewrite Z.sub_diag. simpl. lia.
  - assert (Z.min e e' = e') as -> by lia.
    rewrite iter_xO. replace (e - e') with (Zpos d) by lia. lia.
Qed.

Lemma shl_align_value (m : positive) (e e' : Z) :
  (F2Q (Zpos (fst (shl_align m e e'))) (snd (shl_align m e e')) == F2Q (Zpos m) e)%Q.
Proof.
  destruct (shl_align_spec m e e') as [-> ->].
  rewrite F2Q_shift by lia.
  now replace (Z.min e e' + (e - Z.min e e')) with e by lia.
Qed.

(** [binary_round] first widens the mantissa, then rounds: the bounds of
    [binary_round_aux_bounds] carry over. *)
Lemma binary_round_bounds (s : bool) (m : positive) (e k ML EL MU EU : Z) :
  e + 1 <= emax - prec -> fexp prec emax k + 1 <= emax - prec ->
  fexp prec emax k <= EL -> fexp prec emax k <= EU ->
  (F2Q MU EU < F2Q 1 k)%Q ->
  (F2Q ML EL <= F2Q (Zpos m) e)%Q -> (F2Q (Zpos m) e <= F2Q MU EU)%Q ->
  match binary_round prec emax s m e with
  | S754_zero s' => s' = s /\ ML <= 0
  | S754_finite s' m' e' =>
      s' = s /\ (F2Q ML EL <= F2Q (Zpos m') e')%Q /\
      (F2Q (Zpos m') e' <= F2Q MU EU)%Q /\
      e' <= Z.max e (fexp prec emax k) + 1
  | _ => False
  end.
Proof.
  intros He Hk HEL HEU Hmag HL HU. unfold binary_round.
  set (e0 := fexp prec emax (Zpos (digits2_pos m) + e)).
  pose proof (shl_align_value m e e0) as Hv.
  destruct (shl_align_spec m e e0) as [Hs _].
  destruct (shl_align m e e0) as [mz ez]. cbn [fst snd] in *.
  rewrite <- Hv in HL, HU.
  pose proof (binary_round_aux_bounds s mz ez k ML EL MU EU
                ltac:(lia) Hk HEL HEU Hmag HL HU) as H.
  destruct (binary_round_aux prec emax s (Zpos mz) ez loc_Exact);
    try assumption.
  destruct H as (H1 & H2 & H3 & H4). repeat split; try assumption. lia.
Qed.

(** *** Products and sums of finite doubles *)

Lemma cond_Zopp_mul (s : bool) (a b : Z) :
  cond_Zopp s a * b = cond_Zopp s (a * b).
Proof. destruct s; unfold cond_Zopp; [apply Z.mul_opp_l | reflexivity]. Qed.

Lemma mul_finite (sx sy : bool) (mx my : positive) (ex ey : Z) :
  mul (S754_finite sx mx ex) (S754_finite sy my ey) =
  binary_round_aux prec emax (xorb sx sy) (Zpos (mx * my)) (ex + ey) loc_Exact.
Proof. reflexivity. Qed.

Lemma add_finite (sx sy : bool) (mx my : positive) (ex ey : Z) :
  let ez := Z.min ex ey in
  let z := cond_Zopp sx (Zpos mx * 2 ^ (ex - ez)) +
           cond_Zopp sy (Zpos my * 2 ^ (ey - ez)) in
  add (S754_finite sx mx ex) (S754_finite sy my ey) =
  binary_normalize prec emax z ez false /\
  (F2Q z ez == F2Q (cond_Zopp sx (Zpos mx)) ex + F2Q (cond_Zopp sy (Zpos my)) ey)%Q.
Proof.
  intros ez z. split.
  - unfold add, SFadd. fold ez.
    destruct (shl_align_spec mx ex ez) as [_ ->].
    destruct (shl_align_spec my ey ez) as [_ ->].
    subst z.
    replace (Z.min ex ez) with ez by (subst ez; lia).
    replace (Z.min ey ez) with ez by (subst ez; lia).
    reflexivity.
  - subst z. rewrite <- F2Q_add.
    assert (Hx : (F2Q (cond_Zopp sx (Zpos mx * 2 ^ (ex - ez))) ez
                  == F2Q (cond_Zopp sx (Zpos mx)) ex)%Q).
    { replace (cond_Zopp sx (Zpos mx * 2 ^ (ex - ez)))
        with (cond_Zopp sx (Zpos mx) * 2 ^ (ex - ez)) by (apply cond_Zopp_mul).
      rewrite F2Q_shift by (subst ez; lia).
      now replace (ez + (ex - ez)) with ex by lia. }
    assert (Hy : (F2Q (cond_Zopp sy (Zpos my * 2 ^ (ey - ez))) ez
                  == F2Q (cond_Zopp sy (Zpos my)) ey)%Q).
    { replace (cond_Zopp sy (Zpos my * 2 ^ (ey - ez)))
        with (cond_Zopp sy (Zpos my) * 2 ^ (ey - ez)) by (apply cond_Zopp_mul).
      rewrite F2Q_shift by (subst ez; lia).
      now replace (ez + (ey - ez)) with ey by lia. }
    now rewrite Hx, Hy.
Qed.

(** *** Rounding never produces [NaN] *)

Lemma shr_record_of_loc_m (m : Z) (l : location) :
  shr_m (shr_record_of_loc m l) = m.
Proof. destruct l as [| []]; reflexivity. Qed.

Lemma shr_fexp_nonneg (m e : Z) (l : location) :
  0 <= m -> 0 <= shr_m (fst (shr_fexp prec emax m e l)).
Proof.
  intros Hm. unfold shr_fexp.
  set (mrs := shr_record_of_loc m l).
  assert (H0 : 0 <= shr_m mrs) by (subst mrs; now rewrite shr_record_of_loc_m).
  destruct (shr_spec mrs e (fexp prec emax (Zdigits2 m + e) - e) H0) as (_ & -> & _).
  apply Z.div_pos; [assumption |]. apply Z.pow_pos_nonneg; lia.
Qed.

Lemma binary_round_aux_not_nan (s : bool) (m e : Z) (l : location) :
  0 <= m -> binary_round_aux prec emax s m e l <> S754_nan.
Proof.
  intros Hm. unfold binary_round_aux.
  pose proof (shr_fexp_nonneg m e l Hm) as H1.
  destruct (shr_fexp prec emax m e l) as [mrs1 e1]. cbn [fst] in H1.
  pose proof (round_nearest_even_bounds (shr_m mrs1) (loc_of_shr_record mrs1)) as Hr.
  pose proof (shr_fexp_nonneg
                (round_nearest_even (shr_m mrs1) (loc_of_shr_record mrs1))
                e1 loc_Exact ltac:(lia)) as H2.
  destruct (shr_fexp prec emax _ e1 loc_Exact) as [mrs2 e2]. cbn [fst] in H2.
  destruct (shr_m mrs2) as [| p | p]; try discriminate; [| lia].
  destruct (e2 <=? emax - prec); discriminate.
Qed.

End NumberFacts.

(** ** The audio engine *)

Module AudioEngineFacts.

Import Number NumberFacts JSString AudioEngine.

Ltac Qdecide := vm_compute; solve [reflexivity | discriminate].

Lemma bounded_exponent (m : positive) (e : Z) :
  bounded prec emax m e = true ->
  e <= emax - prec /\ Zpos (digits2_pos m) <= 53 /\ -1074 <= e.
Proof.
  unfold bounded, canonical_mantissa. rewrite andb_true_iff, fexp_eq.
  intros [Hc He]. apply Z.eqb_eq in Hc. apply Z.leb_le in He. lia.
Qed.

Lemma compare_cont_Eq (p q : positive) :
  PosDef.Pos.compare_cont Eq p q = Pos.compare p q.
Proof. reflexivity. Qed.

(** A well-formed double that compares at most [1] in absolute value
    has a magnitude of at most one. *)
Lemma le_one_value (s : bool) (m : positive) (e : Z) :
  bounded prec emax m e = true ->
  leb (of_Z (-1)) (S754_finite s m e) = true ->
  leb (S754_finite s m e) (of_Z 1) = true ->
  (F2Q (Zpos m) e <= 1)%Q.
Proof.
  intros Hb Hlo Hhi.
  destruct (bounded_exponent m e Hb) as (_ & Hd & _).
  pose proof (digits2_pos_bounds m) as [_ Hm].
  assert (Hm53 : Zpos m < 2 ^ 53).
  { eapply Z.lt_le_trans; [exact Hm |]. apply Z.pow_le_mono_r; lia. }
  change 1%Q with (F2Q 1 0).
  assert (Hcase : e < -52 \/ (e = -52 /\ Zpos m <= 4503599627370496)).
  { destruct s.
    - change (of_Z (-1)) with (S754_finite true 4503599627370496 (-52)) in Hlo.
      unfold leb, SFleb, SFcompare in Hlo.
      rewrite compare_cont_Eq in Hlo.
      destruct (Z.compare_spec (-52) e) as [Heq | Hlt | Hgt]; try discriminate; [| lia].
      right. split; [lia |].
      destruct (Pos.compare_spec 4503599627370496 m) as [Hc | Hc | Hc];
        try discriminate.
      + rewrite <- Hc. apply Z.le_refl.
      + apply Pos2Z.pos_le_pos, Pos.lt_le_incl, Hc.
    - change (of_Z 1) with (S754_finite false 4503599627370496 (-52)) in Hhi.
      unfold leb, SFleb, SFcompare in Hhi.
      rewrite compare_cont_Eq in Hhi.
      destruct (Z.compare_spec e (-52)) as [Heq | Hlt | Hgt]; try discriminate; [| lia].
      right. split; [lia |].
      destruct (Pos.compare_spec m 4503599627370496) as [Hc | Hc | Hc];
        try discriminate.
      + rewrite Hc. apply Z.le_refl.
      + apply Pos2Z.pos_le_pos, Pos.lt_le_incl, Hc. }
  apply F2Q_le_l.
  - lia.
  - destruct Hcase as [He | [-> Hle]].
    + assert (2 ^ 53 <= 2 ^ (0 - e)) by (apply Z.pow_le_mono_r; lia). lia.
    + simpl. lia.
Qed.

(** [v * 0.35] for [|v| <= 1]: the sign of [v], magnitude at most 0.35. *)
Lemma mul_0_35_bounds (s : bool) (m : positive) (e : Z) :
  bounded prec emax m e = true ->
  (F2Q (Zpos m) e <= 1)%Q ->
  match mul (S754_finite s m e) lit_0_35 with
  | S754_zero s' => s' = s
  | S754_finite s' ma ea =>
      s' = s /\ (F2Q (Zpos ma) ea <= F2Q 6305039478318694 (-54))%Q /\ ea <= 918
  | _ => False
  end.
Proof.
  intros Hb Hv. destruct (bounded_exponent m e Hb) as (He & _ & _).
  unfold lit_0_35. rewrite mul_finite, xorb_false_r.
  pose proof (binary_round_aux_bounds s (m * 6305039478318694) (e + -54)
                (-1) 0 0 6305039478318694 (-54)) as H.
  unfold emax, prec in He.
  assert (Hx : (F2Q (Zpos (m * 6305039478318694)) (e + -54)
                == F2Q (Zpos m) e * F2Q 6305039478318694 (-54))%Q).
  { now rewrite F2Q_mul. }
  pose proof (F2Q_pos m e) as Hp.
  pose proof (F2Q_pos 6305039478318694 (-54)) as Hc.
  lapply H; [clear H; intros H | unfold emax, prec; lia].
  lapply H; [clear H; intros H | Qdecide].
  lapply H; [clear H; intros H | Qdecide].
  lapply H; [clear H; intros H | Qdecide].
  lapply H; [clear H; intros H | Qdecide].
  lapply H; [clear H; intros H |].
  2: { rewrite Hx, F2Q_zero. apply Qmult_le_0_compat; apply Qlt_le_weak; assumption. }
  lapply H; [clear H; intros H |].
  2: { rewrite Hx. rewrite <- (Qmult_1_l (F2Q 6305039478318694 (-54))) at 2.
       apply Qmult_le_compat_r; [assumption | apply Qlt_le_weak; assumption]. }
  destruct (binary_round_aux prec emax s (Zpos (m * 6305039478318694)) (e + -54) loc_Exact);
    try assumption; try tauto.
  destruct H as (H1 & _ & H3 & H4). repeat split; try assumption.
  rewrite fexp_eq in H4. lia.
Qed.

Lemma F2Q_pos_lt (z e : Z) : (0 < F2Q z e)%Q -> 0 < z.
Proof.
  intros H. rewrite <- (F2Q_zero e) in H. now apply F2Q_lt_same in H.
Qed.

(** [a + 0.5] for a finite [a] of magnitude at most 0.35, between dyadic
    bounds [L <= 0.5 +- |a| <= U < 1] given on the grid of the result. *)
Lemma add_0_5_bounds (s : bool) (ma : positive) (ea ML EL MU EU : Z) :
  -53 <= EL -> -53 <= EU ->
  (F2Q MU EU < F2Q 1 0)%Q -> (0 < F2Q ML EL)%Q ->
  (F2Q ML EL <= F2Q (cond_Zopp s (Zpos ma)) ea + F2Q 1 (-1))%Q ->
  (F2Q (cond_Zopp s (Zpos ma)) ea + F2Q 1 (-1) <= F2Q MU EU)%Q ->
  match add (S754_finite s ma ea) lit_0_5 with
  | S754_finite false mb eb =>
      (F2Q ML EL <= F2Q (Zpos mb) eb)%Q /\ (F2Q (Zpos mb) eb <= F2Q MU EU)%Q /\
      eb <= -52
  | _ => False
  end.
Proof.
  intros HEL HEU Hmag HLpos HL HU. unfold lit_0_5.
  destruct (add_finite s false ma 4503599627370496 ea (-53)) as [Hadd Hval].
  rewrite Hadd. clear Hadd.
  set (ez := Z.min ea (-53)) in *.
  set (z := cond_Zopp s (Zpos ma * 2 ^ (ea - ez)) +
            cond_Zopp false (4503599627370496 * 2 ^ (-53 - ez))) in *.
  assert (Hhalf : (F2Q (cond_Zopp false 4503599627370496) (-53) == F2Q 1 (-1))%Q)
    by Qdecide.
  rewrite Hhalf in Hval. rewrite <- Hval in HL, HU.
  assert (Hz : 0 < z).
  { apply (F2Q_pos_lt z ez). eapply Qlt_le_trans; eassumption. }
  destruct z as [| mz | mz]; try lia. cbn [binary_normalize].
  pose proof (binary_round_bounds false mz ez 0 ML EL MU EU) as H.
  lapply H; [clear H; intros H | unfold emax, prec; subst ez; lia].
  lapply H; [clear H; intros H | Qdecide].
  lapply H; [clear H; intros H | exact HEL].
  lapply H; [clear H; intros H | exact HEU].
  specialize (H Hmag HL HU).
  destruct (binary_round prec emax false mz ez) as [s' | s' | | s' mb eb];
    try assumption.
  - destruct H as [_ H]. apply (F2Q_pos_lt ML EL) in HLpos. lia.
  - destruct H as (-> & H2 & H3 & H4). repeat split; try assumption.
    rewrite fexp_eq in H4. subst ez. lia.
Qed.

(** [b * 255] for a positive finite [b] between dyadic bounds. *)
Lemma mul_255_bounds (mb : positive) (eb ML EL MU EU ML' EL' MU' EU' : Z) :
  eb <= -52 -> -45 <= EL' -> -45 <= EU' ->
  (F2Q MU' EU' < F2Q 1 8)%Q -> (0 < F2Q ML' EL')%Q ->
  (F2Q ML' EL' <= F2Q ML EL * 255)%Q -> (F2Q MU EU * 255 <= F2Q MU' EU')%Q ->
  (F2Q ML EL <= F2Q (Zpos mb) eb)%Q -> (F2Q (Zpos mb) eb <= F2Q MU EU)%Q ->
  match mul (S754_finite false mb eb) (of_Z 255) with
  | S754_finite false md ed =>
      (F2Q ML' EL' <= F2Q (Zpos md) ed)%Q /\ (F2Q (Zpos md) ed <= F2Q MU' EU')%Q
  | _ => False
  end.
Proof.
  intros Heb HEL HEU Hmag HLpos HL' HU' HL HU.
  change (of_Z 255) with (S754_finite false 8972014882652160 (-45)).
  rewrite mul_finite. cbn [xorb].
  assert (Hx : (F2Q (Zpos (mb * 8972014882652160)) (eb + -45)
                == F2Q (Zpos mb) eb * 255)%Q).
  { rewrite Pos2Z.inj_mul, <- F2Q_mul.
    assert (H255 : (F2Q 8972014882652160 (-45) == 255)%Q) by Qdecide.
    now rewrite H255. }
  pose proof (binary_round_aux_bounds false (mb * 8972014882652160) (eb + -45)
                8 ML' EL' MU' EU') as H.
  lapply H; [clear H; intros H | unfold emax, prec; lia].
  lapply H; [clear H; intros H | Qdecide].
  lapply H; [clear H; intros H | exact HEL].
  lapply H; [clear H; intros H | exact HEU].
  lapply H; [clear H; intros H | exact Hmag].
  lapply H; [clear H; intros H | rewrite Hx; lra].
  lapply H; [clear H; intros H | rewrite Hx; lra].
  destruct (binary_round_aux prec emax false (Zpos (mb * 8972014882652160))
              (eb + -45) loc_Exact) as [s' | s' | | s' md ed];
    try assumption.
  - destruct H as [_ H]. apply (F2Q_pos_lt ML' EL') in HLpos. lia.
  - destruct H as (-> & H2 & H3 & _). now split.
Qed.

(** The integer part of a positive finite double between integer bounds. *)
Lemma truncate_bounds (md : positive) (ed lo hi : Z) :
  (F2Q lo 0 <= F2Q (Zpos md) ed)%Q -> (F2Q (Zpos md) ed < F2Q (hi + 1) 0)%Q ->
  lo <= truncate (S754_finite false md ed) <= hi.
Proof.
  intros HL HU. cbn [truncate cond_Zopp].
  destruct (Z.le_gt_cases 0 ed) as [Hpos | Hneg].
  - rewrite Z.shiftl_mul_pow2 by assumption.
    apply F2Q_le_l in HL; [| assumption]. apply F2Q_lt_r in HU; [| assumption].
    rewrite Z.sub_0_r in HL, HU. lia.
  - rewrite Z.shiftl_div_pow2 by lia.
    apply F2Q_le_r in HL; [| lia]. apply F2Q_lt_l in HU; [| lia].
    rewrite Z.sub_0_l in HL, HU.
    assert (Hp : 0 < 2 ^ (- ed)) by (apply Z.pow_pos_nonneg; lia).
    split.
    + apply Z.div_le_lower_bound; lia.
    + assert (Zpos md / 2 ^ (- ed) < hi + 1)
        by (apply Z.div_lt_upper_bound; lia).
      lia.
Qed.

Lemma bitor0_small (x : Number.t) (lo hi : Z) :
  0 <= lo -> hi < 2147483648 ->
  lo <= truncate x <= hi -> bitor0 x = truncate x.
Proof.
  intros Hlo Hhi Ht. unfold bitor0, ToInt32, wrap_int32.
  rewrite Z.lor_0_r, Z.mod_small by lia.
  destruct (Z.ltb_spec (truncate x) 2147483648); [reflexivity | lia].
Qed.

Lemma F2Q_opp (m e : Z) : (F2Q (- m) e == - F2Q m e)%Q.
Proof. unfold F2Q. rewrite inject_Z_opp. ring. Qed.

(** The sample computed from a sine value [v] with [-1 <= v <= 1]:
    [(v*0.35 + 0.5)*255 | 0] lies between 38 and 216. *)
Lemma u8_of_range (v : Number.t) :
  well_formed v = true ->
  leb (of_Z (-1)) v = true -> leb v (of_Z 1) = true ->
  38 <= u8_of v <= 216.
Proof.
  intros Hwf Hlo Hhi. unfold u8_of.
  destruct v as [s | s | | s m e].
  - destruct s; vm_compute; split; discriminate.
  - destruct s; discriminate.
  - discriminate.
  - cbn [well_formed valid_binary] in Hwf.
    pose proof (le_one_value s m e Hwf Hlo Hhi) as Hv.
    pose proof (mul_0_35_bounds s m e Hwf Hv) as Ha.
    destruct (mul (S754_finite s m e) lit_0_35) as [sa | sa | | sa ma ea];
      try contradiction.
    + vm_compute. split; discriminate.
    + destruct Ha as (-> & Hma & Hea).
      pose proof (F2Q_pos ma ea) as Hpos.
      assert (Hc1 : (F2Q 6305039478318694 (-54) + F2Q 1 (-1) <= F2Q 1741 (-11))%Q)
        by Qdecide.
      assert (Hc2 : (F2Q 307 (-11) <= - F2Q 6305039478318694 (-54) + F2Q 1 (-1))%Q)
        by Qdecide.
      destruct s.
      * pose proof (add_0_5_bounds true ma ea 307 (-11) 1 (-1)) as Hb.
        cbn [cond_Zopp] in Hb. rewrite F2Q_opp in Hb.
        lapply Hb; [clear Hb; intros Hb | Qdecide].
        lapply Hb; [clear Hb; intros Hb | Qdecide].
        lapply Hb; [clear Hb; intros Hb | Qdecide].
        lapply Hb; [clear Hb; intros Hb | Qdecide].
        lapply Hb; [clear Hb; intros Hb | lra].
        lapply Hb; [clear Hb; intros Hb | lra].
        destruct (add (S754_finite true ma ea) lit_0_5) as [sb | sb | | [|] mb eb];
          try contradiction.
        destruct Hb as (HbL & HbU & Heb).
        pose proof (mul_255_bounds mb eb 307 (-11) 1 (-1) 305 (-3) 255 (-1)) as Hd.
        lapply Hd; [clear Hd; intros Hd | exact Heb].
        lapply Hd; [clear Hd; intros Hd | Qdecide].
        lapply Hd; [clear Hd; intros Hd | Qdecide].
        lapply Hd; [clear Hd; intros Hd | Qdecide].
        lapply Hd; [clear Hd; intros Hd | Qdecide].
        lapply Hd; [clear Hd; intros Hd | Qdecide].
        lapply Hd; [clear Hd; intros Hd | Qdecide].
        specialize (Hd HbL HbU).
        destruct (mul (S754_finite false mb eb) (of_Z 255)) as [sd | sd | | [|] md ed];
          try contradiction.
        destruct Hd as [HdL HdU].
        assert (Ht : 38 <= truncate (S754_finite false md ed) <= 127).
        { apply truncate_bounds.
          - eapply Qle_trans; [| exact HdL]. Qdecide.
          - eapply Qle_lt_trans; [exact HdU |]. Qdecide. }
        rewrite (bitor0_small _ 38 127) by (assumption || lia). lia.
      * pose proof (add_0_5_bounds false ma ea 1 (-1) 1741 (-11)) as Hb.
        cbn [cond_Zopp] in Hb.
        lapply Hb; [clear Hb; intros Hb | Qdecide].
        lapply Hb; [clear Hb; intros Hb | Qdecide].
        lapply Hb; [clear Hb; intros Hb | Qdecide].
        lapply Hb; [clear Hb; intros Hb | Qdecide].
        lapply Hb; [clear Hb; intros Hb | lra].
        lapply Hb; [clear Hb; intros Hb | lra].
        destruct (add (S754_finite false ma ea) lit_0_5) as [sb | sb | | [|] mb eb];
          try contradiction.
        destruct Hb as (HbL & HbU & Heb).
        pose proof (mul_255_bounds mb eb 1 (-1) 1741 (-11) 255 (-1) 1735 (-3)) as Hd.
        lapply Hd; [clear Hd; intros Hd | exact Heb].
        lapply Hd; [clear Hd; intros Hd | Qdecide].
        lapply Hd; [clear Hd; intros Hd | Qdecide].
        lapply Hd; [clear Hd; intros Hd | Qdecide].
        lapply Hd; [clear Hd; intros Hd | Qdecide].
        lapply Hd; [clear Hd; intros Hd | Qdecide].
        lapply Hd; [clear Hd; intros Hd | Qdecide].
        specialize (Hd HbL HbU).
        destruct (mul (S754_finite false mb eb) (of_Z 255)) as [sd | sd | | [|] md ed];
          try contradiction.
        destruct Hd as [HdL HdU].
        assert (Ht : 127 <= truncate (S754_finite false md ed) <= 216).
        { apply truncate_bounds.
          - eapply Qle_trans; [| exact HdL]. Qdecide.
          - eapply Qle_lt_trans; [exact HdU |]. Qdecide. }
        rewrite (bitor0_small _ 127 216) by (assumption || lia). lia.
Qed.

(** In double arithmetic the grouping of the sample expression matters:
    for this sine value the code's [(v*0.35 + 0.5)*255 | 0] is 215 while
    [floor(v*0.35*255 + 0.5*255)] is 216.  The formula of the
    specification is therefore read over the real numbers
    ([Sine.ideal_sample]). *)
Lemma regrouping_changes_a_sample :
  let v := S754_finite false 8931508504701150 (-53) in
  well_formed v = true /\
  leb (of_Z (-1)) v = true /\ leb v (of_Z 1) = true /\
  u8_of v = 215 /\ u8_as_specified v = 216.
Proof. cbv zeta. split; [| split; [| split; [| split]]]; reflexivity. Qed.

Lemma div_core_nonneg (mx my : positive) (ex ey : Z) :
  0 <= fst (fst (SFdiv_core_binary prec emax (Zpos mx) ex (Zpos my) ey)).
Proof.
  unfold SFdiv_core_binary.
  set (s := ex - ey - _).
  set (m' := match s with Zpos _ => Z.shiftl (Zpos mx) s | 0 => Zpos mx | Zneg _ => 0 end).
  assert (Hm' : 0 <= m').
  { subst m'. destruct s; try lia. apply Z.shiftl_nonneg. lia. }
  pose proof (Z_div_mod m' (Zpos my) ltac:(lia)) as H.
  destruct (Z.div_eucl m' (Zpos my)) as [q r]. cbn [fst].
  destruct H as [H1 H2]. nia.
Qed.

(** A quotient is [NaN] only for [NaN] operands, [0/0] and [inf/inf]. *)
Lemma div_not_nan (c d : Number.t) :
  isNaN c = false -> ToBoolean d = true ->
  isInfinite c && isInfinite d = false ->
  isNaN (div c d) = false.
Proof.
  intros Hc Hd Hinf.
  destruct c as [sc | sc | | sc mc ec]; try discriminate;
    destruct d as [sd | sd | | sd md ed]; try discriminate; try reflexivity.
  unfold div, SFdiv.
  pose proof (div_core_nonneg mc md ec ed) as Hq.
  destruct (SFdiv_core_binary prec emax (Zpos mc) ec (Zpos md) ed) as [[q e] l].
  cbn [fst] in Hq.
  pose proof (binary_round_aux_not_nan (xorb sc sd) q e l Hq) as Hn.
  destruct (binary_round_aux prec emax (xorb sc sd) q e l); try reflexivity.
  congruence.
Qed.


(** *** Clamping *)

Lemma ltb_leb (x y : Number.t) : ltb x y = true -> leb x y = true.
Proof.
  unfold ltb, leb, SFltb, SFleb. destruct (SFcompare x y) as [[| |] |]; congruence.
Qed.

Lemma clamp01_range (x : Number.t) :
  isNaN x = false ->
  leb (of_Z 0) (clamp01 x) = true /\ leb (clamp01 x) (of_Z 1) = true.
Proof.
  intros Hx. unfold clamp01.
  set (y := Math_max (of_Z 0) x).
  assert (Hy : y = of_Z 0 \/ (y = x /\ ltb (of_Z 0) x = true)).
  { subst y. unfold Math_max. change (of_Z 0) with (S754_zero false).
    destruct x as [sx | sx | | sx mx ex]; try discriminate;
      match goal with
      | |- context [if ltb ?a ?b then _ else _] =>
          destruct (ltb a b) eqn:H1; [right; now split | left];
          destruct (ltb b a); reflexivity
      end. }
  assert (Hyn : isNaN y = false) by (destruct Hy as [-> | [-> _]]; [reflexivity | assumption]).
  assert (Hy0 : leb (of_Z 0) y = true).
  { destruct Hy as [-> | [-> Hlt]]; [reflexivity | now apply ltb_leb]. }
  assert (Hz : Math_min (of_Z 1) y = of_Z 1 \/
               (Math_min (of_Z 1) y = y /\ ltb y (of_Z 1) = true)).
  { unfold Math_min. change (of_Z 1) with (S754_finite false 4503599627370496 (-52)).
    destruct y as [sy | sy | | sy my ey]; try discriminate;
      match goal with
      | |- context [if ltb ?a ?b then _ else _] =>
          destruct (ltb a b) eqn:H1; [now left |];
          destruct (ltb b a) eqn:H2; [right; now split | now left]
      end. }
  destruct Hz as [-> | [-> Hlt]].
  - split; reflexivity.
  - split; [assumption | now apply ltb_leb].
Qed.

Ltac conjs := repeat match goal with |- _ /\ _ => split end.

Section Beep.

Variable Math_sin : Number.t -> Number.t.

Lemma len_value : len = 2000.
Proof. reflexivity. Qed.

Lemma header_length : List.length header = 40%nat.
Proof. reflexivity. Qed.

(** The loop appends one code unit per index, in order. *)
Lemma fill_spec (n : nat) (i : Z) (d : units) :
  fill Math_sin n i d =
  d ++ map (fun k => ToUint16 (u8 Math_sin (i + Z.of_nat k))) (seq 0 n).
Proof.
  revert i d. induction n as [| n IH]; intros i d.
  - simpl. now rewrite app_nil_r.
  - cbn [fill]. rewrite IH. cbn [seq map fromCharCode].
    rewrite <- app_assoc. cbn [app]. rewrite Z.add_0_r.
    rewrite <- seq_shift, map_map.
    do 2 f_equal. apply map_ext. intros k. do 2 f_equal. lia.
Qed.

Lemma data_spec :
  data Math_sin =
  map (fun k => ToUint16 (u8 Math_sin (Z.of_nat k))) (seq 0 2000).
Proof.
  unfold data. rewrite len_value, fill_spec. reflexivity.
Qed.

Lemma data_length : List.length (data Math_sin) = 2000%nat.
Proof. now rewrite data_spec, length_map, length_seq. Qed.

Lemma patched_header_value :
  patched_header Math_sin =
  [82; 73; 70; 70; 244; 7; 0; 0; 87; 65; 86; 69; 102; 109; 116; 32;
   16; 0; 0; 0; 1; 0; 1; 0; 64; 31; 0; 0; 1; 0; 8; 0;
   100; 97; 116; 97; 208; 7; 0; 0].
Proof.
  unfold patched_header, totalSize, chunkSize.
  rewrite data_length. reflexivity.
Qed.

End Beep.

(** C2: the synthesized WAV string has a data chunk of 2000 sample
    bytes, but its header is 40 bytes long, not the canonical 44 (the
    byte-rate field of the [fmt ] chunk is missing), so the whole string
    is 2040 bytes, while the header itself declares a RIFF size of
    [36 + 2000 = 2036], the size that goes with a 44-byte header. *)
Theorem wav_is_2040_bytes (Math_sin : Number.t -> Number.t) :
  List.length (data Math_sin) = 2000%nat /\
  List.length (patched_header Math_sin) = 40%nat /\
  List.length (wav Math_sin) = 2040%nat /\
  totalSize Math_sin = 2036 /\
  firstn 4 (skipn 4 (wav Math_sin)) = u32 2036 /\
  Z.of_nat (List.length (wav Math_sin)) - 8 = 2032.
Proof.
  assert (Hw : List.length (wav Math_sin) = 2040%nat).
  { unfold wav. now rewrite length_app, patched_header_value, data_length. }
  conjs.
  - apply data_length.
  - now rewrite patched_header_value.
  - exact Hw.
  - unfold totalSize. now rewrite data_length.
  - unfold wav. rewrite patched_header_value. reflexivity.
  - now rewrite Hw.
Qed.

(** C4, as the code has it: when the duration is greater than 0 and
    the product [p * duration] is a finite double, [seekPercent p] sets
    the position to that product (0.5 of 120 seconds is 60 seconds) and
    touches nothing else; when the product is [NaN] or infinite, the
    assignment throws a [TypeError] and no position is set; when the
    duration is not greater than 0 ([0], [-0], or [NaN] while it is
    unknown), the audio element is left as it was. *)
Theorem seekPercent_spec (p : Number.t) (a : Audio) :
  (ltb (of_Z 0) (duration a) = true -> isFinite (mul p (duration a)) = true ->
     exists a',
       seekPercent p a = Normal a' /\
       currentTime a' = mul p (duration a) /\
       src a' = src a /\ duration a' = duration a /\ paused a' = paused a) /\
  (ltb (of_Z 0) (duration a) = true -> isFinite (mul p (duration a)) = false ->
     seekPercent p a = Throw "TypeError") /\
  (duration a = of_Z 120 ->
     exists a', seekPercent lit_0_5 a = Normal a' /\ currentTime a' = of_Z 60) /\
  (ltb (of_Z 0) (duration a) = false -> seekPercent p a = Normal a).
Proof.
  unfold seekPercent, assign_currentTime. conjs.
  - intros H Hf. rewrite H, Hf. eexists. split; [reflexivity |]. now conjs.
  - intros H Hf. now rewrite H, Hf.
  - intros H. rewrite H. eexists. split; reflexivity.
  - intros H. now rewrite H.
Qed.

Lemma seekPercent_spec_witness :
  (exists a',
     seekPercent lit_0_5 (mkAudio "a.mp3" (of_Z 120) (of_Z 7) false) = Normal a' /\
     currentTime a' = of_Z 60) /\
  seekPercent lit_0_5 fresh = Normal fresh.
Proof.
  split.
  - apply (seekPercent_spec lit_0_5 (mkAudio "a.mp3" (of_Z 120) (of_Z 7) false)).
    reflexivity.
  - apply (seekPercent_spec lit_0_5 fresh). reflexivity.
Defined.

(** C4 as stated fails: the duration of a live stream is infinite, so
    is half of it, and the assignment throws instead of setting the
    position; the same happens on a track of 120 seconds when [p] is
    [NaN]. *)
Lemma seekPercent_refused :
  ltb (of_Z 0) (S754_infinity false) = true /\
  seekPercent lit_0_5 (mkAudio "live" (S754_infinity false) (of_Z 7) false) =
    Throw "TypeError" /\
  seekPercent NaN (mkAudio "a.mp3" (of_Z 120) (of_Z 7) false) =
    Throw "TypeError".
Proof. conjs; reflexivity. Qed.

(** C5: the position that an audio element reports is a finite double
    ([currentTime] is never [NaN] or infinite); for every such position
    and every duration, the [percent] handed to the time-update handler
    lies in [0, 1], it is [clamp(position/duration, 0, 1)] when the
    duration is greater than 0, and it is [0] when the duration is [0],
    [-0] or [NaN] (unknown), whatever the position. *)
Theorem percent_in_unit_interval (a : Audio) :
  isFinite (currentTime a) = true ->
  leb (of_Z 0) (percent (timeInfo a)) = true /\
  leb (percent (timeInfo a)) (of_Z 1) = true /\
  (ltb (of_Z 0) (duration a) = true ->
     percent (timeInfo a) = clamp01 (div (currentTime a) (duration a))) /\
  (ToBoolean (duration a) = false -> percent (timeInfo a) = of_Z 0).
Proof.
  destruct a as [sr d c pa]. cbn [currentTime duration timeInfo percent].
  intros Hfin.
  assert (Hrange :
            leb (of_Z 0)
              (if ToBoolean (or_else d (of_Z 0))
               then Math_min (of_Z 1)
                      (Math_max (of_Z 0)
                         (div (or_else c (of_Z 0)) (or_else d (of_Z 0))))
               else of_Z 0) = true /\
            leb (if ToBoolean (or_else d (of_Z 0))
                 then Math_min (of_Z 1)
                        (Math_max (of_Z 0)
                           (div (or_else c (of_Z 0)) (or_else d (of_Z 0))))
                 else of_Z 0) (of_Z 1) = true).
  { destruct (ToBoolean d) eqn:Hd.
    - assert (Hd' : or_else d (of_Z 0) = d) by (unfold or_else; now rewrite Hd).
      rewrite Hd', Hd.
      apply clamp01_range. apply div_not_nan; try assumption.
      + unfold or_else. destruct c as [| | |]; reflexivity.
      + unfold or_else. destruct c as [| | |]; try reflexivity; discriminate.
    - assert (Hd' : ToBoolean (or_else d (of_Z 0)) = false)
        by (unfold or_else; now rewrite Hd).
      rewrite Hd'. split; reflexivity. }
  destruct Hrange as [H0 H1].
  split; [exact H0 |]. split; [exact H1 |]. split.
  - intros Hd.
    assert (Hd1 : ToBoolean d = true)
      by (destruct d as [| [|] | |]; try discriminate; reflexivity).
    assert (Hd' : or_else d (of_Z 0) = d) by (unfold or_else; now rewrite Hd1).
    rewrite Hd', Hd1. unfold clamp01.
    destruct c as [[|] | | |]; try discriminate; try reflexivity.
    destruct d as [| [|] | | [|]]; try discriminate; reflexivity.
  - intros Hd.
    assert (Hd' : ToBoolean (or_else d (of_Z 0)) = false)
      by (unfold or_else; now rewrite Hd).
    now rewrite Hd'.
Qed.

Lemma percent_in_unit_interval_witness :
  percent (timeInfo (mkAudio "a.mp3" (of_Z 120) (of_Z 30) false)) = lit_0_25 /\
  percent (timeInfo (mkAudio "a.mp3" (of_Z 120) (of_Z 500) false)) = of_Z 1 /\
  percent (timeInfo fresh) = of_Z 0.
Proof.
  split; [| split].
  - destruct (percent_in_unit_interval
                (mkAudio "a.mp3" (of_Z 120) (of_Z 30) false) eq_refl)
      as (_ & _ & H & _).
    rewrite H; reflexivity.
  - destruct (percent_in_unit_interval
                (mkAudio "a.mp3" (of_Z 120) (of_Z 500) false) eq_refl)
      as (_ & _ & H & _).
    rewrite H; reflexivity.
  - apply (percent_in_unit_interval fresh eq_refl). reflexivity.
Defined.

(** The hypothesis on the position cannot be dropped: were the position
    infinite on a stream of infinite duration, the quotient would be
    [NaN], and so would [percent]. *)
Lemma percent_of_infinite_position :
  let a := mkAudio "live" (S754_infinity false) (S754_infinity false) false in
  percent (timeInfo a) = NaN /\
  leb (of_Z 0) (percent (timeInfo a)) = false /\
  leb (percent (timeInfo a)) (of_Z 1) = false.
Proof. cbv zeta. conjs; reflexivity. Qed.

Lemma ToUint16_small (z : Z) : 0 <= z < 65536 -> ToUint16 z = z.
Proof. intros Hz. unfold ToUint16. now apply Z.mod_small. Qed.

Lemma loop_index (k : nat) : In k (seq 0 2000) -> 0 <= Z.of_nat k < len.
Proof. intros H. apply in_seq in H. rewrite len_value. lia. Qed.

(** C10: with a [Math.sin] that returns doubles in [-1, 1] on the
    arguments of the loop, every sample [(v*0.35 + 0.5)*255 | 0] of the
    loop lies in [38, 216]; the character code appended for it is the
    sample itself (no wrap in [String.fromCharCode]), so every code unit
    of the 2000-unit data string is an octet in [38, 216]. *)
Theorem sample_bytes_in_range (Math_sin : Number.t -> Number.t) :
  sine_like Math_sin ->
  (forall i, 0 <= i < len -> 38 <= u8 Math_sin i <= 216) /\
  data Math_sin = map (fun k => u8 Math_sin (Z.of_nat k)) (seq 0 2000) /\
  Forall (fun c => 38 <= c <= 216) (data Math_sin).
Proof.
  intros Hsin.
  assert (Hu : forall i, 0 <= i < len -> 38 <= u8 Math_sin i <= 216).
  { intros i Hi. unfold u8. destruct (Hsin i Hi) as (Hw & Hl & Hh).
    now apply u8_of_range. }
  assert (Hd : data Math_sin = map (fun k => u8 Math_sin (Z.of_nat k)) (seq 0 2000)).
  { rewrite data_spec. apply map_ext_in. intros k Hk.
    apply ToUint16_small. specialize (Hu (Z.of_nat k) (loop_index k Hk)). lia. }
  conjs; try assumption.
  rewrite Hd. apply Forall_map, Forall_forall. intros k Hk.
  apply Hu, loop_index, Hk.
Qed.

Lemma wav_octets (Math_sin : Number.t -> Number.t) :
  sine_like Math_sin ->
  forallb (fun c => c <=? 255) (wav Math_sin) = true.
Proof.
  intros Hsin. unfold wav. rewrite forallb_app, patched_header_value.
  apply andb_true_iff. split; [reflexivity |].
  rewrite data_spec. apply forallb_forall. intros c Hc.
  apply in_map_iff in Hc. destruct Hc as (k & <- & Hk).
  unfold u8. destruct (Hsin (Z.of_nat k) (loop_index k Hk)) as (Hw & Hl & Hh).
  pose proof (u8_of_range _ Hw Hl Hh).
  rewrite ToUint16_small by lia. apply Z.leb_le. lia.
Qed.

Lemma tone_uri (Math_sin : Number.t -> Number.t) :
  sine_like Math_sin ->
  _tinyBeepDataURI Math_sin =
  Normal ("data:audio/wav;base64," ++ encode (wav Math_sin))%string.
Proof.
  intros Hsin. unfold _tinyBeepDataURI, btoa.
  now rewrite (wav_octets Math_sin Hsin).
Qed.

(** C6: with a [Math.sin] that returns doubles in [-1, 1] on the
    arguments of the loop, the tone generator returns its data URI
    without throwing; [load] of a missing track, or of a track whose
    [audioUrl] is empty, completes normally and leaves that URI as the
    source of the audio element, and [load] of a track with a non-empty
    [audioUrl] completes normally and leaves exactly that URL as the
    source.  In each case the element has been reset by the assignment
    and by [load()]: it is paused at position 0 and its duration is
    unknown. *)
Theorem load_assigns_source (Math_sin : Number.t -> Number.t) (a : Audio) :
  sine_like Math_sin ->
  let tone := ("data:audio/wav;base64," ++ encode (wav Math_sin))%string in
  _tinyBeepDataURI Math_sin = Normal tone /\
  load Math_sin None a =
    Normal {| src := tone; duration := NaN; currentTime := of_Z 0;
              paused := true |} /\
  (forall t, Playlist.audioUrl t = EmptyString ->
     load Math_sin (Some t) a =
       Normal {| src := tone; duration := NaN; currentTime := of_Z 0;
                 paused := true |}) /\
  (forall t, Playlist.audioUrl t <> EmptyString ->
     load Math_sin (Some t) a =
       Normal {| src := Playlist.audioUrl t; duration := NaN;
                 currentTime := of_Z 0; paused := true |}).
Proof.
  intros Hsin tone.
  pose proof (tone_uri Math_sin Hsin) as Hb. fold tone in Hb.
  conjs.
  - exact Hb.
  - unfold load. rewrite Hb. reflexivity.
  - intros t Ht. unfold load. rewrite Ht, Hb. reflexivity.
  - intros t Ht. unfold load.
    destruct (String.eqb_spec (Playlist.audioUrl t) EmptyString);
      [contradiction | reflexivity].
Qed.

End AudioEngineFacts.

(** ** The samples of the tone against the sine formula *)

Module SineFacts.
Import Number NumberFacts AudioEngine Sine.
Import Lra.

Local Open Scope R_scope.

(** *** Rationals as reals *)

Lemma Q2R_qpow (a : Q) (n : nat) : Q2R (qpow a n) = Q2R a ^ n.
Proof.
  induction n as [| n IH]; simpl.
  - unfold Q2R. simpl. lra.
  - now rewrite Q2R_mult, IH.
Qed.

Lemma Q2R_inject_Z (z : Z) : Q2R (inject_Z z) = IZR z.
Proof. unfold Q2R, inject_Z. simpl. lra. Qed.

Lemma Q2R_of_nat (n : nat) : Q2R (inject_Z (Z.of_nat n)) = INR n.
Proof. now rewrite Q2R_inject_Z, INR_IZR_INZ. Qed.

Lemma Q2R_qsum (f : nat -> Q) (g : nat -> R) (n : nat) :
  (forall k, Q2R (f k) = g k) -> Q2R (qsum f n) = sum_f_R0 g n.
Proof.
  intros H. induction n as [| n IH]; simpl.
  - apply H.
  - now rewrite Q2R_plus, IH, H.
Qed.

Lemma Q2R_zero : Q2R 0 = 0.
Proof. unfold Q2R. simpl. lra. Qed.

Lemma Q2R_pos (q : Q) : (0 < q)%Q -> 0 < Q2R q.
Proof. intros H. rewrite <- Q2R_zero. now apply Qlt_Rlt. Qed.

Lemma Q2R_unit_fraction (d : positive) : Q2R (1 # d) = / IZR (Zpos d).
Proof. unfold Q2R. cbn [Qnum Qden]. lra. Qed.

Lemma Rabs_le_inv (x y : R) : Rabs x <= y -> - y <= x <= y.
Proof. unfold Rabs. destruct (Rcase_abs x); lra. Qed.

(** *** Bounds of pi *)

Lemma minus_one_pow (n : nat) : (-1) ^ n = if Nat.even n then 1 else -1.
Proof.
  induction n as [| n IH].
  - simpl. reflexivity.
  - rewrite Nat.even_succ, <- Nat.negb_even. simpl pow. rewrite IH.
    destruct (Nat.even n); simpl; lra.
Qed.

Lemma Q2R_alternate (n : nat) (x : Q) :
  Q2R (alternate n x) = (-1) ^ n * Q2R x.
Proof.
  unfold alternate. rewrite minus_one_pow.
  destruct (Nat.even n); [| rewrite Q2R_opp]; lra.
Qed.

Lemma Q2R_atan_term (x : Q) (n : nat) :
  Q2R (atan_term x n) = Ratan_seq (Q2R x) n.
Proof.
  unfold atan_term, Ratan_seq.
  rewrite Q2R_div, Q2R_qpow, Q2R_of_nat; [reflexivity |].
  intros H. apply Qeq_eqR in H. rewrite Q2R_of_nat in H.
  rewrite Q2R_zero in H.
  apply (not_0_INR (2 * n + 1)); [lia | exact H].
Qed.

Lemma Q2R_pi_term (n : nat) : Q2R (pi_term n) = tg_alt PI_2_3_7_tg n.
Proof.
  unfold pi_term, tg_alt, PI_2_3_7_tg.
  rewrite Q2R_alternate, Q2R_plus, Q2R_mult, !Q2R_atan_term.
  replace (Q2R (1 # 3)) with (/ 3) by (unfold Q2R; simpl; lra).
  replace (Q2R (1 # 7)) with (/ 7) by (unfold Q2R; simpl; lra).
  replace (Q2R 2) with 2 by (unfold Q2R; simpl; lra).
  reflexivity.
Qed.

Lemma PI_enclosure : Q2R pi_lo <= PI <= Q2R pi_hi.
Proof.
  destruct (PI_2_3_7_ineq 5) as [Hlo Hhi].
  unfold pi_lo, pi_hi. rewrite !Q2R_mult.
  rewrite (Q2R_qsum pi_term (tg_alt PI_2_3_7_tg) 11 Q2R_pi_term).
  rewrite (Q2R_qsum pi_term (tg_alt PI_2_3_7_tg) 10 Q2R_pi_term).
  replace (Q2R 4) with 4 by (unfold Q2R; simpl; lra).
  change (S (2 * 5)) with 11%nat in Hlo. change (2 * 5)%nat with 10%nat in Hhi.
  lra.
Qed.

Lemma pi_bounds : 3141592653589 / 1000000000000 <= PI <= 3141592653594 / 1000000000000.
Proof.
  destruct PI_enclosure as [Hlo Hhi].
  assert (Hl : Q2R pil <= Q2R pi_lo) by (apply Qle_Rle; vm_compute; discriminate).
  assert (Hh : Q2R pi_hi <= Q2R pih) by (apply Qle_Rle; vm_compute; discriminate).
  change (Q2R pil) with (3141592653589 / 1000000000000) in Hl.
  change (Q2R pih) with (3141592653594 / 1000000000000) in Hh.
  lra.
Qed.

(** *** The sine polynomial *)

Lemma zfact_fact (n : nat) : IZR (zfact n) = INR (fact n).
Proof.
  induction n as [| n IH].
  - reflexivity.
  - cbn [zfact fact]. rewrite mult_IZR, IH.
    change (fact n + n * fact n)%nat with (S n * fact n)%nat.
    now rewrite mult_INR, <- INR_IZR_INZ.
Qed.

Lemma sin_poly_R (x : Q) : Q2R (sin_poly x) = sin_approx (Q2R x) 5.
Proof.
  unfold sin_poly. cbv zeta.
  repeat (rewrite Q2R_mult || rewrite Q2R_minus || rewrite Q2R_unit_fraction).
  unfold sin_approx. cbn [sum_f_R0]. unfold sin_term.
  rewrite <- !zfact_fact.
  change (zfact (2 * 0 + 1)) with 1%Z. change (zfact (2 * 1 + 1)) with 6%Z.
  change (zfact (2 * 2 + 1)) with 120%Z. change (zfact (2 * 3 + 1)) with 5040%Z.
  change (zfact (2 * 4 + 1)) with 362880%Z.
  change (zfact (2 * 5 + 1)) with 39916800%Z.
  cbn [Nat.mul Nat.add]. field.
Qed.

(** The next term of the series is below [10^-7] up to [8/5]. *)
Lemma sin_approx_next (a : R) :
  0 <= a <= 8 / 5 -> sin_approx a 6 <= sin_approx a 5 + / 10000000.
Proof.
  intros Ha. unfold sin_approx.
  change (sum_f_R0 (sin_term a) 6)
    with (sum_f_R0 (sin_term a) 5 + sin_term a 6).
  apply Rplus_le_compat_l. unfold sin_term.
  rewrite <- zfact_fact. change (zfact (2 * 6 + 1)) with 6227020800%Z.
  cbn [Nat.mul Nat.add].
  assert (Hp : a ^ 13 <= (8 / 5) ^ 13) by (apply pow_incr; lra).
  assert (H0 : 0 <= a ^ 13) by (apply pow_le; lra).
  lra.
Qed.

(** The sine is 1-Lipschitz. *)
Lemma sin_abs_le (u : R) : Rabs (sin u) <= Rabs u.
Proof.
  assert (Hpos : forall x, 0 < x -> Rabs (sin x) <= x).
  { intros x Hx. apply Rabs_le. split.
    - destruct (Rle_lt_dec 1 x) as [H1 | H1].
      + pose proof (SIN_bound x). lra.
      + assert (0 < sin x).
        { apply sin_gt_0; [assumption |]. pose proof PI2_1. lra. }
        lra.
    - pose proof (sin_lt_x x Hx). lra. }
  destruct (Rtotal_order u 0) as [Hneg | [-> | Hp]].
  - rewrite <- (Ropp_involutive u) at 1. rewrite sin_neg, Rabs_Ropp.
    rewrite (Rabs_left u) by assumption. apply Hpos. lra.
  - rewrite sin_0, Rabs_R0. lra.
  - rewrite (Rabs_right u) by lra. now apply Hpos.
Qed.

Lemma sin_lipschitz (p q : R) : Rabs (sin p - sin q) <= Rabs (p - q).
Proof.
  rewrite form4, !Rabs_mult.
  pose proof (COS_bound ((p + q) / 2)) as Hc.
  assert (Hc' : Rabs (cos ((p + q) / 2)) <= 1) by (apply Rabs_le; lra).
  pose proof (sin_abs_le ((p - q) / 2)) as Hs.
  assert (Hh : Rabs ((p - q) / 2) = Rabs (p - q) / 2).
  { unfold Rdiv. rewrite Rabs_mult, (Rabs_right (/ 2)) by lra. reflexivity. }
  rewrite Hh in Hs. rewrite (Rabs_right 2) by lra.
  pose proof (Rabs_pos (sin ((p - q) / 2))).
  pose proof (Rabs_pos (cos ((p + q) / 2))).
  nra.
Qed.

(** *** The table *)

Lemma unit_value : Q2R (F2Q 1 (-40)) = / 1099511627776.
Proof.
  change (F2Q 1 (-40)) with (1 # 1099511627776)%Q. apply Q2R_unit_fraction.
Qed.

Lemma units_R_eq (z : Z) : units_R z = IZR z / 1099511627776.
Proof.
  unfold units_R, Rdiv. rewrite <- unit_value, <- Q2R_inject_Z, <- Q2R_mult.
  apply Qeq_eqR. unfold F2Q. ring.
Qed.

Lemma units_R_opp (z : Z) : units_R (- z) = - units_R z.
Proof. rewrite !units_R_eq, opp_IZR. lra. Qed.

Lemma quarter_sound (t : Z) :
  (0 <= t <= 50)%Z ->
  units_R (fst (quarter t)) <= sin (PI * IZR t / 100) <= units_R (snd (quarter t)).
Proof.
  intros Ht. unfold quarter. cbv zeta. cbn [fst snd].
  set (S := sin_poly (angle t)).
  set (q := Qfloor (S * inject_Z (2 ^ 40))).
  pose proof (Qle_Rle _ _ (Qfloor_le (S * inject_Z (2 ^ 40)))) as Hq1.
  pose proof (Qlt_Rlt _ _ (Qlt_floor (S * inject_Z (2 ^ 40)))) as Hq2.
  fold q in Hq1, Hq2.
  rewrite Q2R_inject_Z, Q2R_mult, Q2R_inject_Z in Hq1, Hq2.
  rewrite plus_IZR in Hq2.
  change (2 ^ 40)%Z with 1099511627776%Z in Hq1, Hq2.
  subst S. rewrite sin_poly_R in Hq1, Hq2.
  set (x := Q2R (angle t)) in *.
  assert (HT : 0 <= IZR t <= 50) by (split; apply IZR_le; lia).
  assert (Hx : x = 31415926 * IZR t / 1000000000).
  { subst x. unfold angle, Q2R. cbn [Qnum Qden]. rewrite mult_IZR. reflexivity. }
  destruct pi_bounds as [Hpl Hph].
  assert (Hd : 0 <= PI * IZR t / 100 - x <= 27 / 1000000000).
  { rewrite Hx. nra. }
  assert (Hx0 : 0 <= x <= 8 / 5) by (rewrite Hx; lra).
  assert (HxPI : x <= PI) by lra.
  destruct (sin_bound x 2 (proj1 Hx0) HxPI) as [Hl Hu].
  change (2 * 2 + 1)%nat with 5%nat in Hl. change (2 * (2 + 1))%nat with 6%nat in Hu.
  pose proof (sin_approx_next x Hx0) as Hn.
  pose proof (sin_lipschitz (PI * IZR t / 100) x) as HL.
  rewrite (Rabs_right (PI * IZR t / 100 - x)) in HL by lra.
  apply Rabs_le_inv in HL.
  rewrite !units_R_eq, minus_IZR, plus_IZR.
  change (2 ^ 17)%Z with 131072%Z. change (2 ^ 18)%Z with 262144%Z.
  split; lra.
Qed.

Lemma sine_j_sound (j : Z) :
  (0 <= j < 200)%Z ->
  units_R (fst (sine_j j)) <= sin (PI * IZR j / 100) <= units_R (snd (sine_j j)).
Proof.
  intros Hj. unfold sine_j.
  destruct (Z.leb_spec j 50) as [H50 | H50].
  - apply quarter_sound. lia.
  - destruct (Z.leb_spec j 100) as [H100 | H100].
    + replace (PI * IZR j / 100) with (PI - PI * IZR (100 - j) / 100)
        by (rewrite minus_IZR; field).
      rewrite sin_PI_x. apply quarter_sound. lia.
    + destruct (Z.leb_spec j 150) as [H150 | H150].
      * replace (PI * IZR j / 100) with (PI * IZR (j - 100) / 100 + PI)
          by (rewrite minus_IZR; field).
        rewrite neg_sin. unfold negate. cbn [fst snd]. rewrite !units_R_opp.
        pose proof (quarter_sound (j - 100) ltac:(lia)). lra.
      * replace (PI * IZR j / 100) with (PI * IZR (j - 100) / 100 + PI)
          by (rewrite minus_IZR; field).
        rewrite neg_sin.
        replace (PI * IZR (j - 100) / 100) with (PI - PI * IZR (200 - j) / 100)
          by (rewrite !minus_IZR; field).
        rewrite sin_PI_x. unfold negate. cbn [fst snd]. rewrite !units_R_opp.
        pose proof (quarter_sound (200 - j) ltac:(lia)). lra.
Qed.

(** The ideal angle of sample [i] and its reduction modulo a full turn. *)
Lemma ideal_angle_reduce (i : Z) :
  (0 <= i)%Z ->
  sin (2 * PI * 440 * IZR i / 8000) = sin (PI * IZR ((11 * i) mod 200) / 100).
Proof.
  intros Hi.
  pose proof (Z.div_mod (11 * i) 200 ltac:(lia)) as Hdm.
  pose proof (Z.mod_pos_bound (11 * i) 200 ltac:(lia)) as Hm.
  set (q := ((11 * i) / 200)%Z) in *. set (j := ((11 * i) mod 200)%Z) in *.
  assert (Hq : (0 <= q)%Z) by (subst q; apply Z.div_pos; lia).
  replace (2 * PI * 440 * IZR i / 8000)
    with (PI * IZR j / 100 + 2 * INR (Z.to_nat q) * PI).
  - apply sin_period.
  - rewrite INR_IZR_INZ, Z2Nat.id by assumption.
    assert (Hi11 : IZR i = (200 * IZR q + IZR j) / 11).
    { assert (H : IZR (11 * i) = IZR (200 * q + j)) by now rewrite Hdm.
      rewrite mult_IZR, plus_IZR, mult_IZR in H. lra. }
    rewrite Hi11. field.
Qed.

Lemma sine_units_sound (i : Z) :
  (0 <= i)%Z ->
  units_R (fst (sine_units i)) <= sin (2 * PI * 440 * IZR i / 8000)
    <= units_R (snd (sine_units i)).
Proof.
  intros Hi. rewrite ideal_angle_reduce by assumption.
  apply sine_j_sound. apply Z.mod_pos_bound. lia.
Qed.

Lemma sine_j_width (j : Z) : (snd (sine_j j) = fst (sine_j j) + 393216)%Z.
Proof.
  unfold sine_j, negate, quarter.
  destruct (j <=? 50)%Z; [cbn [fst snd]; lia |].
  destruct (j <=? 100)%Z; [cbn [fst snd]; lia |].
  destruct (j <=? 150)%Z; cbn [fst snd]; lia.
Qed.

End SineFacts.

(** *** Interval evaluation of the sample expression *)

Module SampleBoundsFacts.
Import Number NumberFacts AudioEngine AudioEngineFacts SampleBounds.

Lemma cdiv_spec (a b : Z) : 0 < b -> a <= cdiv a b * b < a + b.
Proof.
  intros Hb. unfold cdiv.
  pose proof (Z.div_mod (- a) b ltac:(lia)) as H.
  pose proof (Z.mod_pos_bound (- a) b Hb) as Hm.
  nia.
Qed.

Lemma fdiv_spec (a b : Z) : 0 < b -> a - b < a / b * b <= a.
Proof.
  intros Hb.
  pose proof (Z.div_mod a b ltac:(lia)) as H.
  pose proof (Z.mod_pos_bound a b Hb) as Hm.
  nia.
Qed.

(** [v * 0.35] between dyadic bounds on the grid [2^-54]. *)
Lemma mul_0_35_enclosure (s : bool) (m : positive) (e La Ua : Z) :
  bounded prec emax m e = true ->
  Ua < 2 ^ 53 ->
  (F2Q La (-54) <= F2Q (Zpos m) e * F2Q 6305039478318694 (-54))%Q ->
  (F2Q (Zpos m) e * F2Q 6305039478318694 (-54) <= F2Q Ua (-54))%Q ->
  match mul (S754_finite s m e) lit_0_35 with
  | S754_zero s' => s' = s /\ La <= 0
  | S754_finite s' ma ea =>
      s' = s /\ (F2Q La (-54) <= F2Q (Zpos ma) ea)%Q /\
      (F2Q (Zpos ma) ea <= F2Q Ua (-54))%Q /\ ea <= 918
  | _ => False
  end.
Proof.
  intros Hb HUa HL HU. destruct (bounded_exponent m e Hb) as (He & _ & _).
  unfold lit_0_35. rewrite mul_finite, xorb_false_r.
  unfold emax, prec in He.
  assert (Hx : (F2Q (Zpos (m * 6305039478318694)) (e + -54)
                == F2Q (Zpos m) e * F2Q 6305039478318694 (-54))%Q).
  { now rewrite F2Q_mul. }
  pose proof (binary_round_aux_bounds s (m * 6305039478318694) (e + -54)
                (-1) La (-54) Ua (-54)) as H.
  lapply H; [clear H; intros H | unfold emax, prec; lia].
  lapply H; [clear H; intros H | Qdecide].
  lapply H; [clear H; intros H | Qdecide].
  lapply H; [clear H; intros H | Qdecide].
  lapply H; [clear H; intros H |].
  2: { apply F2Q_lt_l; [lia |]. change (1 * 2 ^ (-1 - -54)) with (2 ^ 53). exact HUa. }
  lapply H; [clear H; intros H | now rewrite Hx].
  lapply H; [clear H; intros H | now rewrite Hx].
  destruct (binary_round_aux prec emax s (Zpos (m * 6305039478318694)) (e + -54) loc_Exact);
    try assumption.
  destruct H as (H1 & H2 & H3 & H4). repeat split; try assumption.
  rewrite fexp_eq in H4. lia.
Qed.

Lemma F2Q_scale_le (a b e1 e2 : Z) :
  e2 <= e1 -> a * 2 ^ (e1 - e2) <= b -> (F2Q a e1 <= F2Q b e2)%Q.
Proof. intros He H. now apply F2Q_le_r. Qed.

Lemma F2Q_le_scale (a b e1 e2 : Z) :
  e1 <= e2 -> a <= b * 2 ^ (e2 - e1) -> (F2Q a e1 <= F2Q b e2)%Q.
Proof. intros He H. now apply F2Q_le_l. Qed.

Lemma F2Q_mul_255 (a e : Z) : (F2Q a e * 255 == F2Q (a * 255) e)%Q.
Proof. unfold F2Q. rewrite inject_Z_mult. ring. Qed.

Lemma F2Q_half_plus (a : Z) : (F2Q a (-54) + F2Q 1 (-1) == F2Q (a + 2 ^ 53) (-54))%Q.
Proof.
  rewrite <- F2Q_add. apply Qplus_inj_l.
  change (2 ^ 53) with (1 * 2 ^ 53). rewrite F2Q_shift by lia. reflexivity.
Qed.

Lemma u8_mag_sound (s : bool) (L U k : Z) (m : positive) (e : Z) :
  u8_mag s L U = Some k ->
  bounded prec emax m e = true ->
  (F2Q L (-40) <= F2Q (Zpos m) e)%Q -> (F2Q (Zpos m) e <= F2Q U (-40))%Q ->
  u8_of (S754_finite s m e) = k.
Proof.
  unfold u8_mag.
  set (La := (L * 6305039478318694) / 2 ^ 40).
  set (Ua := cdiv (U * 6305039478318694) (2 ^ 40)).
  set (Lb := if s then (2 ^ 53 - Ua) / 2 else (2 ^ 53 + La) / 2).
  set (Ub := if s then cdiv (2 ^ 53 - La) 2 else cdiv (2 ^ 53 + Ua) 2).
  set (Ld := (Lb * 255) / 2 ^ 8).
  set (Ud := cdiv (Ub * 255) (2 ^ 8)).
  set (k0 := Ld / 2 ^ 45).
  destruct (_ && _) eqn:Hc; [| discriminate].
  intros Hk Hb HL HU. injection Hk as Hk.
  repeat (apply andb_true_iff in Hc; destruct Hc as [Hc ?]).
  repeat match goal with
         | H : (_ <=? _) = true |- _ => apply Z.leb_le in H
         | H : (_ <? _) = true |- _ => apply Z.ltb_lt in H
         end.
  pose proof (fdiv_spec (L * 6305039478318694) (2 ^ 40) ltac:(lia)) as HLa.
  fold La in HLa.
  pose proof (cdiv_spec (U * 6305039478318694) (2 ^ 40) ltac:(lia)) as HUa.
  fold Ua in HUa.
  pose proof (fdiv_spec (Lb * 255) (2 ^ 8) ltac:(lia)) as HLd. fold Ld in HLd.
  pose proof (cdiv_spec (Ub * 255) (2 ^ 8) ltac:(lia)) as HUd. fold Ud in HUd.
  pose proof (fdiv_spec Ld (2 ^ 45) ltac:(lia)) as Hk0. fold k0 in Hk0.
  assert (HLb : if s then Lb * 2 <= 2 ^ 53 - Ua else Lb * 2 <= 2 ^ 53 + La).
  { subst Lb. destruct s.
    - apply (fdiv_spec (2 ^ 53 - Ua) 2). lia.
    - apply (fdiv_spec (2 ^ 53 + La) 2). lia. }
  assert (HUb : if s then 2 ^ 53 - La <= Ub * 2 else 2 ^ 53 + Ua <= Ub * 2).
  { subst Ub. destruct s.
    - apply (cdiv_spec (2 ^ 53 - La) 2). lia.
    - apply (cdiv_spec (2 ^ 53 + Ua) 2). lia. }
  clearbody La Ua Lb Ub Ld Ud k0. subst k0.
  pose proof (F2Q_pos m e) as Hpos.
  pose proof (F2Q_pos 6305039478318694 (-54)) as Hcpos.
  assert (HcL : (F2Q La (-54) <= F2Q (Zpos m) e * F2Q 6305039478318694 (-54))%Q).
  { apply Qle_trans with (F2Q L (-40) * F2Q 6305039478318694 (-54))%Q.
    - rewrite F2Q_mul. apply F2Q_scale_le; [lia |].
      change (2 ^ (-54 - (-40 + -54))) with (2 ^ 40). lia.
    - apply Qmult_le_compat_r; [assumption | now apply Qlt_le_weak]. }
  assert (HcU : (F2Q (Zpos m) e * F2Q 6305039478318694 (-54) <= F2Q Ua (-54))%Q).
  { apply Qle_trans with (F2Q U (-40) * F2Q 6305039478318694 (-54))%Q.
    - apply Qmult_le_compat_r; [assumption | now apply Qlt_le_weak].
    - rewrite F2Q_mul. apply F2Q_le_scale; [lia |].
      change (2 ^ (-54 - (-40 + -54))) with (2 ^ 40). lia. }
  pose proof (mul_0_35_enclosure s m e La Ua Hb ltac:(assumption) HcL HcU) as Ha.
  unfold u8_of.
  assert (Hfinal : forall mb eb,
            (F2Q Lb (-53) <= F2Q (Zpos mb) eb)%Q ->
            (F2Q (Zpos mb) eb <= F2Q Ub (-53))%Q -> eb <= -52 ->
            bitor0 (mul (S754_finite false mb eb) (of_Z 255)) = k).
  { intros mb eb HbL HbU Heb.
    pose proof (mul_255_bounds mb eb Lb (-53) Ub (-53) Ld (-45) Ud (-45)) as Hd.
    lapply Hd; [clear Hd; intros Hd | exact Heb].
    lapply Hd; [clear Hd; intros Hd | lia].
    lapply Hd; [clear Hd; intros Hd | lia].
    lapply Hd; [clear Hd; intros Hd |].
    2: { apply F2Q_lt_l; [lia |]. change (1 * 2 ^ (8 - -45)) with (2 ^ 53). lia. }
    lapply Hd; [clear Hd; intros Hd |].
    2: { rewrite <- (F2Q_zero (-45)). apply F2Q_lt_same. lia. }
    lapply Hd; [clear Hd; intros Hd |].
    2: { rewrite F2Q_mul_255. apply F2Q_scale_le; [lia |].
         change (2 ^ (-45 - -53)) with (2 ^ 8). lia. }
    lapply Hd; [clear Hd; intros Hd |].
    2: { rewrite F2Q_mul_255. apply F2Q_le_scale; [lia |].
         change (2 ^ (-45 - -53)) with (2 ^ 8). lia. }
    specialize (Hd HbL HbU).
    destruct (mul (S754_finite false mb eb) (of_Z 255)) as [sd | sd | | [|] md ed];
      try contradiction.
    destruct Hd as [HdL HdU].
    assert (Ht : k <= truncate (S754_finite false md ed) <= k).
    { apply truncate_bounds.
      - eapply Qle_trans; [| exact HdL]. apply F2Q_scale_le; [lia |].
        change (2 ^ (0 - -45)) with (2 ^ 45). lia.
      - eapply Qle_lt_trans; [exact HdU |]. apply F2Q_lt_l; [lia |].
        change (2 ^ (0 - -45)) with (2 ^ 45). lia. }
    assert (HLb2 : Lb * 2 <= 2 ^ 54) by (destruct s; lia).
    assert (Hk31 : 0 <= k < 2147483648) by lia.
    rewrite (bitor0_small _ k k) by lia. lia. }
  destruct (mul (S754_finite s m e) lit_0_35) as [sa | sa | | sa ma ea];
    try contradiction.
  - (* the product underflows to a zero *)
    destruct Ha as [_ HLa0].
    change (add (S754_zero sa) lit_0_5) with (S754_finite false 4503599627370496 (-53)).
    apply Hfinal; [| | lia].
    + apply F2Q_le_same. destruct s; lia.
    + apply F2Q_le_same.
      assert (0 <= Ua).
      { assert (0 <= U * 6305039478318694) by lia. nia. }
      destruct s; lia.
  - destruct Ha as (-> & HaL & HaU & Hea).
    pose proof (add_0_5_bounds s ma ea Lb (-53) Ub (-53)) as Hbb.
    lapply Hbb; [clear Hbb; intros Hbb | lia].
    lapply Hbb; [clear Hbb; intros Hbb | lia].
    lapply Hbb; [clear Hbb; intros Hbb |].
    2: { apply F2Q_lt_l; [lia |]. change (1 * 2 ^ (0 - -53)) with (2 ^ 53). lia. }
    lapply Hbb; [clear Hbb; intros Hbb |].
    2: { rewrite <- (F2Q_zero (-53)). apply F2Q_lt_same. lia. }
    assert (Hsum : (F2Q Lb (-53) <= F2Q (cond_Zopp s (Zpos ma)) ea + F2Q 1 (-1)
                    /\ F2Q (cond_Zopp s (Zpos ma)) ea + F2Q 1 (-1) <= F2Q Ub (-53))%Q).
    { destruct s; cbn [cond_Zopp].
      - rewrite F2Q_opp. split.
        + apply Qle_trans with (- F2Q Ua (-54) + F2Q 1 (-1))%Q; [| lra].
          rewrite <- F2Q_opp, F2Q_half_plus. apply F2Q_scale_le; [lia |].
          change (2 ^ (-53 - -54)) with 2. lia.
        + apply Qle_trans with (- F2Q La (-54) + F2Q 1 (-1))%Q; [lra |].
          rewrite <- F2Q_opp, F2Q_half_plus. apply F2Q_le_scale; [lia |].
          change (2 ^ (-53 - -54)) with 2. lia.
      - split.
        + apply Qle_trans with (F2Q La (-54) + F2Q 1 (-1))%Q; [| lra].
          rewrite F2Q_half_plus. apply F2Q_scale_le; [lia |].
          change (2 ^ (-53 - -54)) with 2. lia.
        + apply Qle_trans with (F2Q Ua (-54) + F2Q 1 (-1))%Q; [lra |].
          rewrite F2Q_half_plus. apply F2Q_le_scale; [lia |].
          change (2 ^ (-53 - -54)) with 2. lia. }
    destruct Hsum as [Hs1 Hs2]. specialize (Hbb Hs1 Hs2).
    destruct (add (S754_finite s ma ea) lit_0_5) as [sb | sb | | [|] mb eb];
      try contradiction.
    destruct Hbb as (HbL & HbU & Heb). now apply Hfinal.
Qed.

Lemma Some_eqb_eq (o : option Z) (k : Z) : Some_eqb o k = true -> o = Some k.
Proof.
  destruct o as [z |]; simpl; [| discriminate].
  intros H. apply Z.eqb_eq in H. now subst.
Qed.

(** When [u8_certain lo hi k] holds, every finite double between
    [lo * 2^-40] and [hi * 2^-40] gives the sample [k]. *)
Lemma u8_certain_sound (lo hi k : Z) (v : Number.t) :
  u8_certain lo hi k = true ->
  well_formed v = true -> isFinite v = true ->
  (F2Q lo (-40) <= to_Q v)%Q -> (to_Q v <= F2Q hi (-40))%Q ->
  u8_of v = k.
Proof.
  unfold u8_certain. intros Hc Hwf Hfin HL HU.
  apply andb_true_iff in Hc. destruct Hc as [Hc Hzero].
  apply andb_true_iff in Hc. destruct Hc as [Hpos Hneg].
  destruct v as [s | s | | s m e]; try discriminate.
  - cbn [to_Q] in HL, HU.
    rewrite <- (F2Q_zero (-40)) in HL, HU.
    apply F2Q_le_same in HL. apply F2Q_le_same in HU.
    destruct (Z.leb_spec lo 0); [| lia]. destruct (Z.leb_spec 0 hi); [| lia].
    cbn [andb] in Hzero. apply Z.eqb_eq in Hzero. subst k.
    destruct s; reflexivity.
  - cbn [to_Q] in HL, HU. cbn [well_formed valid_binary] in Hwf.
    pose proof (F2Q_pos m e) as Hm.
    destruct s; cbn [cond_Zopp] in HL, HU.
    + change (Z.neg m) with (- Zpos m) in HL, HU. rewrite F2Q_opp in HL, HU.
      assert (Hlo : lo < 0).
      { apply (F2Q_lt_same lo 0 (-40)). rewrite F2Q_zero. lra. }
      destruct (Z.ltb_spec lo 0); [| lia].
      apply Some_eqb_eq in Hneg.
      apply (u8_mag_sound true _ _ k m e Hneg Hwf).
      * destruct (Z.max_spec (- hi) 0) as [[_ ->] | [_ ->]].
        -- rewrite F2Q_zero. lra.
        -- rewrite F2Q_opp. lra.
      * rewrite F2Q_opp. lra.
    + assert (Hhi : 0 < hi).
      { apply (F2Q_lt_same 0 hi (-40)). rewrite F2Q_zero. lra. }
      destruct (Z.ltb_spec 0 hi); [| lia].
      apply Some_eqb_eq in Hpos.
      apply (u8_mag_sound false _ _ k m e Hpos Hwf).
      * destruct (Z.max_spec lo 0) as [[_ ->] | [_ ->]].
        -- rewrite F2Q_zero. lra.
        -- exact HL.
      * exact HU.
Qed.

End SampleBoundsFacts.

(** *** The computed phase *)

Module PhaseFacts.
Import Number NumberFacts AudioEngine AudioEngineFacts.
Import Sine SineFacts SampleBounds SampleBoundsFacts.
Import Lra.

Lemma In_indices (i : Z) : In i indices <-> 0 <= i < 2000.
Proof.
  unfold indices. rewrite in_map_iff. split.
  - intros (k & <- & Hk). apply in_seq in Hk. lia.
  - intros Hi. exists (Z.to_nat i). split; [lia |]. apply in_seq. lia.
Qed.

(** Checked by running the loop's phase computation on all 2000
    indices, the constant factors being evaluated once. *)
Lemma phase_close_all (i : Z) : 0 <= i < 2000 -> phase_close i = true.
Proof.
  intros Hi.
  assert (H : forallb phase_close indices = true).
  { change ((fun k c =>
               forallb (fun i => close_to (div (mul k (of_Z i)) c) i) indices)
              (mul (mul (of_Z 2) Math_PI) (of_Z freq)) (of_Z sampleRate) = true).
    vm_compute. reflexivity. }
  rewrite forallb_forall in H. apply H, In_indices, Hi.
Qed.

(** Checked by evaluating the 51 entries of the first quadrant. *)
Lemma quarter_check_all (t : Z) : 0 <= t <= 50 -> quarter_check t = true.
Proof.
  intros Ht.
  assert (H : forallb quarter_check (map Z.of_nat (seq 0 51)) = true)
    by (vm_compute; reflexivity).
  rewrite forallb_forall in H. apply H.
  apply in_map_iff. exists (Z.to_nat t). split; [lia |]. apply in_seq. lia.
Qed.

Local Open Scope R_scope.

Lemma to_R_scaled (m : positive) (e : Z) :
  (e <= 0)%Z ->
  to_R (S754_finite false m e) * IZR (2 ^ (- e)) = IZR (Zpos m).
Proof.
  intros He. unfold to_R. cbn [to_Q cond_Zopp].
  rewrite <- !Q2R_inject_Z, <- Q2R_mult. apply Qeq_eqR.
  assert (H : (inject_Z (2 ^ (- e)) == F2Q (1 * 2 ^ (- e)) 0)%Q).
  { unfold F2Q. rewrite Z.mul_1_l. change (2 ^ 0)%Q with 1%Q. ring. }
  rewrite H, F2Q_shift by lia. rewrite F2Q_mul.
  replace (e + (0 + - e))%Z with 0%Z by lia. rewrite Z.mul_1_r.
  unfold F2Q. change (2 ^ 0)%Q with 1%Q. ring.
Qed.

Lemma close_to_sound (x : Number.t) (i : Z) :
  (0 <= i < 2000)%Z -> close_to x i = true ->
  isFinite x = true /\ Rabs (to_R x - PI * IZR (11 * i) / 100) <= / 268435456.
Proof.
  intros Hi Hc. destruct x as [s | s | | [|] m e]; try discriminate.
  - cbn [close_to] in Hc. apply Z.eqb_eq in Hc. subst i.
    split; [reflexivity |].
    unfold to_R. cbn [to_Q]. rewrite Q2R_zero.
    replace (0 - PI * IZR (11 * 0) / 100) with 0 by (simpl; lra).
    rewrite Rabs_R0. lra.
  - split; [reflexivity |].
    cbn [close_to] in Hc. apply andb_prop in Hc. destruct Hc as [Hc H2].
    apply andb_prop in Hc. destruct Hc as [He H1].
    apply Z.leb_le in He, H1, H2.
    change (Qnum pil) with 3141592653589%Z in H1.
    change (QDen pil) with 1000000000000%Z in H1.
    change (Qnum pih) with 3141592653594%Z in H2.
    change (QDen pih) with 1000000000000%Z in H2.
    pose proof (to_R_scaled m e ltac:(lia)) as HX.
    set (X := to_R (S754_finite false m e)) in *.
    assert (Ha : 4294967296 <= IZR (2 ^ (- e))).
    { apply IZR_le. change 4294967296%Z with (2 ^ 32)%Z.
      apply Z.pow_le_mono_r; lia. }
    apply IZR_le in H1, H2.
    repeat (rewrite mult_IZR in H1 || rewrite plus_IZR in H1).
    repeat (rewrite mult_IZR in H2 || rewrite minus_IZR in H2).
    rewrite <- HX in H1, H2.
    set (a := IZR (2 ^ (- e))) in *.
    rewrite mult_IZR.
    assert (Hn : 0 <= 11 * IZR i <= 21989).
    { rewrite <- mult_IZR. split; apply IZR_le; lia. }
    set (n := 11 * IZR i) in *.
    clearbody a n X. clear HX.
    assert (Hu : 0 < / a <= / 4294967296).
    { split; [apply Rinv_0_lt_compat; lra |].
      apply Rinv_le_contravar; lra. }
    assert (Hau : a * / a = 1) by (apply Rinv_r; lra).
    set (u := / a) in *. clearbody u.
    assert (H1' : 3141592653589 * n <= (X + u / 4) * 100000000000000).
    { apply Rmult_le_compat_r with (r := u) in H1; [| lra].
      replace (3141592653589 * n * (4 * a) * u)
        with (3141592653589 * n * 4 * (a * u)) in H1 by ring.
      replace ((4 * (X * a) + 1) * (100 * 1000000000000) * u)
        with ((4 * X * (a * u) + u) * 100000000000000) in H1 by ring.
      rewrite Hau in H1. lra. }
    assert (H2' : (X - u / 4) * 100000000000000 <= 3141592653594 * n).
    { apply Rmult_le_compat_r with (r := u) in H2; [| lra].
      replace (3141592653594 * n * (4 * a) * u)
        with (3141592653594 * n * 4 * (a * u)) in H2 by ring.
      replace ((4 * (X * a) - 1) * (100 * 1000000000000) * u)
        with ((4 * X * (a * u) - u) * 100000000000000) in H2 by ring.
      rewrite Hau in H2. lra. }
    destruct pi_bounds as [Hpl Hph].
    assert (Hp1 : 0 <= (PI - 3141592653589 / 1000000000000) * n)
      by (apply Rmult_le_pos; lra).
    assert (Hp2 : 0 <= (3141592653594 / 1000000000000 - PI) * n)
      by (apply Rmult_le_pos; lra).
    apply Rabs_le. split; lra.
Qed.

(** The sine of the computed phase against the sine of the ideal angle. *)
Lemma phase_sound (i : Z) :
  (0 <= i < 2000)%Z ->
  isFinite (phase i) = true /\
  Rabs (sin (to_R (phase i)) - sin (2 * PI * 440 * IZR i / 8000))
    <= / 268435456.
Proof.
  intros Hi.
  destruct (close_to_sound (phase i) i Hi (phase_close_all i Hi)) as [Hf Hc].
  split; [exact Hf |].
  eapply Rle_trans; [apply sin_lipschitz |].
  replace (2 * PI * 440 * IZR i / 8000) with (PI * IZR (11 * i) / 100)
    by (rewrite mult_IZR; field).
  exact Hc.
Qed.

End PhaseFacts.

(** *** The samples *)

Module ToneFacts.
Import Number NumberFacts AudioEngine AudioEngineFacts.
Import Sine SineFacts SampleBounds SampleBoundsFacts PhaseFacts.
Import Lra.

Lemma sine_j_checks (j : Z) :
  0 <= j < 200 ->
  certain_sample (sine_j j) = true /\ entry_ok (sine_j j) = true.
Proof.
  intros Hj.
  assert (H : forall t, 0 <= t <= 50 ->
            (certain_sample (quarter t) = true /\ entry_ok (quarter t) = true) /\
            (certain_sample (negate (quarter t)) = true /\
             entry_ok (negate (quarter t)) = true)).
  { intros t Ht. pose proof (quarter_check_all t Ht) as Hq.
    unfold quarter_check in Hq. cbv zeta in Hq.
    apply andb_prop in Hq. destruct Hq as [Hq H4].
    apply andb_prop in Hq. destruct Hq as [Hq H3].
    apply andb_prop in Hq. destruct Hq as [H1 H2].
    repeat split; assumption. }
  unfold sine_j.
  destruct (Z.leb_spec j 50); [exact (proj1 (H j ltac:(lia))) |].
  destruct (Z.leb_spec j 100); [exact (proj1 (H (100 - j) ltac:(lia))) |].
  destruct (Z.leb_spec j 150);
    [exact (proj2 (H (j - 100) ltac:(lia))) | exact (proj2 (H (200 - j) ltac:(lia)))].
Qed.

Lemma same_refl (x : Number.t) : same x x = true.
Proof.
  destruct x as [s | s | | s m e]; cbn [same];
    rewrite ?Bool.eqb_reflx, ?Pos.eqb_refl, ?Z.eqb_refl; reflexivity.
Qed.

Lemma same_eq (x y : Number.t) : same x y = true -> x = y.
Proof.
  destruct x as [a | a | | a m e], y as [b | b | | b n f]; cbn [same];
    try discriminate; try reflexivity.
  - intros H. apply Bool.eqb_prop in H. now subst.
  - intros H. apply Bool.eqb_prop in H. now subst.
  - intros H. apply andb_prop in H. destruct H as [H H3].
    apply andb_prop in H. destruct H as [H1 H2].
    apply Bool.eqb_prop in H1. apply Pos.eqb_eq in H2. apply Z.eqb_eq in H3.
    now subst.
Qed.

Local Open Scope R_scope.

Lemma formula_R (s : Z) :
  Q2R (formula_at s) = units_R s * (35 / 100) * 255 + (5 / 10) * 255.
Proof.
  unfold formula_at, units_R. rewrite Q2R_plus, !Q2R_mult.
  change (Q2R (35 # 100)) with (35 / 100).
  change (Q2R (5 # 10)) with (5 / 10).
  replace (Q2R 255) with 255 by (unfold Q2R; simpl; lra).
  reflexivity.
Qed.

(** On an interval that passed the check, the floor of the formula is
    the one computed at its lower end. *)
Lemma formula_floor (b : Z * Z) (s : R) :
  certain_sample b = true ->
  units_R (fst b) <= s <= units_R (snd b) ->
  Int_part (s * (35 / 100) * 255 + (5 / 10) * 255) = Qfloor (formula_at (fst b)).
Proof.
  intros Hc Hs. unfold certain_sample in Hc. cbv zeta in Hc.
  apply andb_prop in Hc. destruct Hc as [_ Hlt].
  set (k := Qfloor (formula_at (fst b))) in *.
  pose proof (Qle_Rle _ _ (Qfloor_le (formula_at (fst b)))) as Hk.
  fold k in Hk. rewrite Q2R_inject_Z, formula_R in Hk.
  assert (Hlt' : (formula_at (snd b) < inject_Z (k + 1))%Q).
  { unfold Qltb in Hlt. apply Z.ltb_lt in Hlt. exact Hlt. }
  apply Qlt_Rlt in Hlt'. rewrite Q2R_inject_Z, formula_R, plus_IZR in Hlt'.
  symmetry. apply Int_part_spec. lra.
Qed.

(** Every finite double within [2^-13 + 2^-28] of an interval that
    passed the check gives the sample computed at its lower end. *)
Lemma certain_sample_sound (b : Z * Z) (v : Number.t) :
  certain_sample b = true ->
  well_formed v = true -> isFinite v = true ->
  units_R (fst b) - / 8192 - / 268435456 <= to_R v
    <= units_R (snd b) + / 8192 + / 268435456 ->
  u8_of v = Qfloor (formula_at (fst b)) /\
  (0 <= Qfloor (formula_at (fst b)) < 256)%Z.
Proof.
  intros Hc Hw Hf [HL HU]. unfold certain_sample in Hc. cbv zeta in Hc.
  apply andb_prop in Hc. destruct Hc as [Hc _].
  apply andb_prop in Hc. destruct Hc as [Hc Hu].
  apply andb_prop in Hc. destruct Hc as [Hk0 Hk1].
  apply Z.leb_le in Hk0. apply Z.ltb_lt in Hk1.
  split; [| lia].
  apply (u8_certain_sound _ _ _ v Hu Hw Hf).
  - apply Rle_Qle. fold (units_R (fst b - 2 ^ 27 - 2 ^ 12)). fold (to_R v).
    rewrite units_R_eq, !minus_IZR. rewrite units_R_eq in HL.
    change (IZR (2 ^ 27)) with 134217728. change (IZR (2 ^ 12)) with 4096.
    lra.
  - apply Rle_Qle. fold (units_R (snd b + 2 ^ 27 + 2 ^ 12)). fold (to_R v).
    rewrite units_R_eq, !plus_IZR. rewrite units_R_eq in HU.
    change (IZR (2 ^ 27)) with 134217728. change (IZR (2 ^ 12)) with 4096.
    lra.
Qed.

Lemma ideal_sample_eq (i : Z) :
  ideal_sample i =
  Int_part (sin (2 * PI * 440 * IZR i / 8000) * (35 / 100) * 255 + (5 / 10) * 255).
Proof. reflexivity. Qed.

(** The sample of index [i], for a sine that is accurate at the phase of
    that index. *)
Lemma accurate_sample (v : Number.t) (i : Z) :
  (0 <= i < 2000)%Z ->
  well_formed v = true -> isFinite v = true ->
  Rabs (to_R v - sin (to_R (phase i))) <= / 8192 ->
  u8_of v = ideal_sample i /\ (0 <= u8_of v < 256)%Z.
Proof.
  intros Hi Hw Hf Hacc.
  assert (Hj : (0 <= (11 * i) mod 200 < 200)%Z) by (apply Z.mod_pos_bound; lia).
  destruct (sine_j_checks _ Hj) as [Hc _]. fold (sine_units i) in Hc.
  pose proof (sine_units_sound i ltac:(lia)) as Hs.
  destruct (phase_sound i Hi) as [_ Hp].
  apply Rabs_le_inv in Hacc. apply Rabs_le_inv in Hp.
  destruct (certain_sample_sound (sine_units i) v Hc Hw Hf) as [Hu Hk].
  { split; lra. }
  rewrite ideal_sample_eq, (formula_floor (sine_units i) _ Hc Hs).
  split; [exact Hu | now rewrite Hu].
Qed.

Local Close Scope R_scope.

(** C3: with a [Math.sin] that is accurate to [2^-13] on the loop's
    arguments, the [i]-th sample byte is
    [floor(sin(2 pi 440 i / 8000) * 0.35 * 255 + 0.5 * 255)] for every
    [i] in [[0, len)], the sine, products and sum on the right being
    those of the real numbers. *)
Theorem samples_follow_the_formula (Math_sin : Number.t -> Number.t) (i : Z) :
  accurate_sine Math_sin -> 0 <= i < len ->
  nth (Z.to_nat i) (data Math_sin) 0 = ideal_sample i.
Proof.
  intros Hsin Hi. destruct (Hsin i Hi) as (Hw & Hf & Hacc).
  rewrite len_value in Hi.
  destruct (accurate_sample _ i Hi Hw Hf Hacc) as [Hu Hr].
  rewrite data_spec.
  rewrite (nth_indep _ 0 (ToUint16 (u8 Math_sin (Z.of_nat 0))))
    by (rewrite length_map, length_seq; lia).
  rewrite (map_nth (fun k => ToUint16 (u8 Math_sin (Z.of_nat k)))).
  rewrite seq_nth by lia. cbn [Nat.add]. rewrite Z2Nat.id by lia.
  unfold u8. rewrite ToUint16_small by lia. exact Hu.
Qed.

Lemma table_sine_accurate : accurate_sine table_sine.
Proof.
  intros i Hi. rewrite len_value in Hi. unfold table_sine.
  destruct (find (fun k => same (phase k) (phase i)) indices) as [k |] eqn:Hfind.
  - apply find_some in Hfind. destruct Hfind as [Hin Hsame].
    apply In_indices in Hin. apply same_eq in Hsame.
    assert (Hj : 0 <= (11 * k) mod 200 < 200) by (apply Z.mod_pos_bound; lia).
    destruct (sine_j_checks _ Hj) as [_ He]. fold (sine_units k) in He.
    unfold entry_ok in He.
    apply andb_prop in He. destruct He as [He Hv].
    apply andb_prop in He. destruct He as [Hw Hf].
    split; [exact Hw |]. split; [exact Hf |].
    apply Qeq_bool_iff, Qeq_eqR in Hv.
    fold (to_R (entry (sine_units k))) in Hv. fold (units_R (fst (sine_units k))) in Hv.
    rewrite Hv, <- Hsame.
    pose proof (sine_units_sound k ltac:(lia)) as Hs.
    destruct (phase_sound k Hin) as [_ Hp]. apply Rabs_le_inv in Hp.
    unfold sine_units in *. rewrite (sine_j_width ((11 * k) mod 200)) in Hs.
    rewrite !units_R_eq in *. rewrite plus_IZR in Hs.
    apply Rabs_le. split; lra.
  - apply find_none with (x := i) in Hfind; [| now apply In_indices].
    cbv beta in Hfind. now rewrite same_refl in Hfind.
Qed.

Lemma samples_follow_the_formula_witness :
  accurate_sine table_sine /\
  nth (Z.to_nat 165) (data table_sine) 0 = ideal_sample 165.
Proof.
  split; [exact table_sine_accurate |].
  apply (samples_follow_the_formula table_sine 165 table_sine_accurate).
  rewrite len_value. lia.
Defined.

End ToneFacts.

(** ** The stand-in for the sine within [-1, 1] *)

Module StandInFacts.

Import Number NumberFacts JSString AudioEngine AudioEngineFacts.
Import Sine SampleBounds ToneFacts.

(** Clamping a double that is not [NaN] to [-1, 1]. *)
Lemma clamp_unit (y : Number.t) :
  well_formed y = true -> isNaN y = false ->
  let z := Math_max (of_Z (-1)) (Math_min (of_Z 1) y) in
  well_formed z = true /\ leb (of_Z (-1)) z = true /\ leb z (of_Z 1) = true.
Proof.
  intros Hw Hn z. subst z. set (z1 := Math_min (of_Z 1) y).
  assert (Hz1 : z1 = of_Z 1 \/ (z1 = y /\ ltb y (of_Z 1) = true)).
  { subst z1. unfold Math_min.
    change (of_Z 1) with (S754_finite false 4503599627370496 (-52)).
    destruct y as [sy | sy | | sy my ey]; try discriminate;
      match goal with
      | |- context [if ltb ?a ?b then _ else _] =>
          destruct (ltb a b) eqn:H1; [now left |];
          destruct (ltb b a) eqn:H2; [right; now split | now left]
      end. }
  assert (Hz1n : isNaN z1 = false)
    by (destruct Hz1 as [-> | [-> _]]; [reflexivity | assumption]).
  assert (Hz1w : well_formed z1 = true)
    by (destruct Hz1 as [-> | [-> _]]; [reflexivity | assumption]).
  assert (Hz11 : leb z1 (of_Z 1) = true).
  { destruct Hz1 as [-> | [-> Hlt]]; [reflexivity | now apply ltb_leb]. }
  assert (Hz : Math_max (of_Z (-1)) z1 = of_Z (-1) \/
               (Math_max (of_Z (-1)) z1 = z1 /\ ltb (of_Z (-1)) z1 = true)).
  { unfold Math_max.
    change (of_Z (-1)) with (S754_finite true 4503599627370496 (-52)).
    destruct z1 as [sz | sz | | sz mz ez]; try discriminate;
      match goal with
      | |- context [if ltb ?a ?b then _ else _] =>
          destruct (ltb a b) eqn:H1; [right; now split | left];
          destruct (ltb b a); reflexivity
      end. }
  destruct Hz as [-> | [-> Hlt]].
  - conjs; reflexivity.
  - conjs; [assumption | now apply ltb_leb | assumption].
Qed.

Lemma unit_sine_like : sine_like unit_sine.
Proof.
  intros i Hi. destruct (table_sine_accurate i Hi) as (Hw & Hf & _).
  apply clamp_unit; [exact Hw |].
  destruct (table_sine (phase i)); try discriminate; reflexivity.
Qed.

Lemma sample_bytes_in_range_witness :
  sine_like unit_sine /\
  38 <= u8 unit_sine 165 <= 216 /\
  Forall (fun c => 38 <= c <= 216) (data unit_sine).
Proof.
  split; [exact unit_sine_like |].
  destruct (sample_bytes_in_range unit_sine unit_sine_like) as (Hu & _ & Hall).
  split; [| exact Hall].
  apply Hu. rewrite len_value. lia.
Defined.

Lemma load_assigns_source_witness :
  load unit_sine None fresh =
    Normal {| src := ("data:audio/wav;base64," ++ encode (wav unit_sine))%string;
              duration := NaN; currentTime := of_Z 0; paused := true |} /\
  load unit_sine (nth_error Playlist.demoTracks 0)
    (mkAudio "old.mp3" (of_Z 120) (of_Z 7) false) =
    Normal {| src := "assets/musics/1.mp3"; duration := NaN;
              currentTime := of_Z 0; paused := true |}.
Proof.
  split.
  - destruct (load_assigns_source unit_sine fresh unit_sine_like)
      as (_ & Hnone & _).
    exact Hnone.
  - destruct (load_assigns_source unit_sine
                (mkAudio "old.mp3" (of_Z 120) (of_Z 7) false) unit_sine_like)
      as (_ & _ & _ & Hurl).
    apply (Hurl (Playlist.mkTrack "1" "Música player" "Canal A"
                   "assets/musics/1.mp3" (Some "#12c274"%string))).
    discriminate.
Defined.

End StandInFacts.

(** * Further properties of the code *)

(** ** Navigation laws of the catalog *)

Module PlaylistLaws.

Import Playlist PlaylistFacts.

Lemma in_range_nonempty (p : t) : in_range p -> tracks p <> [].
Proof.
  unfold in_range, length. destruct (tracks p); simpl; [lia | congruence].
Qed.

Lemma eq_by_fields (p q : t) : tracks p = tracks q -> index p = index q -> p = q.
Proof. destruct p, q. simpl. intros -> ->. reflexivity. Qed.

Lemma next_index (p : t) :
  in_range p -> index (snd (next p)) = (index p + 1) mod length p.
Proof. intros Hr. apply setIndex_index. now apply in_range_nonempty. Qed.

Lemma prev_index (p : t) :
  in_range p -> index (snd (prev p)) = (index p - 1) mod length p.
Proof. intros Hr. apply setIndex_index. now apply in_range_nonempty. Qed.

Lemma next_in_range (p : t) : in_range p -> in_range (snd (next p)).
Proof. intros Hr. apply setIndex_in_range. now apply in_range_nonempty. Qed.

Lemma prev_in_range (p : t) : in_range p -> in_range (snd (prev p)).
Proof. intros Hr. apply setIndex_in_range. now apply in_range_nonempty. Qed.

Lemma next_prev_state (p : t) :
  tracks p = [] \/ in_range p ->
  snd (prev (snd (next p))) = p /\ snd (next (snd (prev p))) = p.
Proof.
  intros [He | Hr].
  - unfold prev, next. simpl.
    repeat rewrite (setIndex_empty _ p He). now split.
  - pose proof (length_pos p (in_range_nonempty p Hr)) as Hn.
    split; apply eq_by_fields.
    + unfold prev, next. simpl. now rewrite !setIndex_tracks.
    + rewrite prev_index by now apply next_in_range.
      unfold next at 2. cbn [snd]. rewrite setIndex_length.
      rewrite next_index by assumption.
      rewrite Zminus_mod_idemp_l. replace (index p + 1 - 1) with (index p) by lia.
      apply Z.mod_small. exact Hr.
    + unfold prev, next. simpl. now rewrite !setIndex_tracks.
    + rewrite next_index by now apply prev_in_range.
      unfold prev at 2. cbn [snd]. rewrite setIndex_length.
      rewrite prev_index by assumption.
      rewrite Zplus_mod_idemp_l. replace (index p - 1 + 1) with (index p) by lia.
      apply Z.mod_small. exact Hr.
Qed.

(** X1: in every state a catalog can be in, [next()] and [prev()] undo
    each other on the whole state (tracks and cursor), in both orders. *)
Theorem next_prev_inverse (ts : list Track) (ops : list op) :
  let p := run ops (new ts) in
  snd (prev (snd (next p))) = p /\ snd (next (snd (prev p))) = p.
Proof. intros p. apply next_prev_state, run_valid. Qed.

Lemma run_app (l1 l2 : list op) (p : t) : run (l1 ++ l2) p = run l2 (run l1 p).
Proof. unfold run. apply fold_left_app. Qed.

Lemma run_repeat_snoc (o : op) (k : nat) (p : t) :
  run (repeat o (S k)) p = step (run (repeat o k) p) o.
Proof.
  replace (repeat o (S k)) with (repeat o k ++ [o]).
  - now rewrite run_app.
  - clear. induction k as [| k IH]; simpl; [reflexivity |]. now rewrite IH.
Qed.

Lemma run_repeat_in_range (o : op) (k : nat) (p : t) :
  in_range p -> in_range (run (repeat o k) p).
Proof.
  intros Hr. apply run_in_range; [now apply in_range_nonempty | exact Hr].
Qed.

(** The cursor after [k] calls of [next] or of [prev]. *)
Lemma repeat_next_index (k : nat) (p : t) :
  in_range p ->
  index (run (repeat Next k) p) = (index p + Z.of_nat k) mod length p.
Proof.
  intros Hr. pose proof (length_pos p (in_range_nonempty p Hr)) as Hn.
  induction k as [| k IH].
  - simpl. rewrite Z.add_0_r. symmetry. now apply Z.mod_small.
  - rewrite run_repeat_snoc. cbn [step].
    rewrite next_index by now apply run_repeat_in_range.
    unfold length at 1. rewrite run_tracks. fold (length p). rewrite IH.
    rewrite Zplus_mod_idemp_l. f_equal. lia.
Qed.

Lemma repeat_prev_index (k : nat) (p : t) :
  in_range p ->
  index (run (repeat Prev k) p) = (index p - Z.of_nat k) mod length p.
Proof.
  intros Hr. pose proof (length_pos p (in_range_nonempty p Hr)) as Hn.
  induction k as [| k IH].
  - simpl. rewrite Z.sub_0_r. symmetry. now apply Z.mod_small.
  - rewrite run_repeat_snoc. cbn [step].
    rewrite prev_index by now apply run_repeat_in_range.
    unfold length at 1. rewrite run_tracks. fold (length p). rewrite IH.
    rewrite Zminus_mod_idemp_l. f_equal. lia.
Qed.

(** X2: starting from a fresh catalog, [k] calls of [next()] leave the
    cursor on track [k mod n] and [k] calls of [prev()] on track
    [(-k) mod n] (so one [prev()] selects the last track); and in every
    state a catalog can be in, [n] calls of either bring the catalog back
    to the state it was in.  On the empty catalog all of them do nothing. *)
Theorem navigation_cycles (ts : list Track) (ops : list op) (k : nat) :
  let n := Z.of_nat (List.length ts) in
  let p := run ops (new ts) in
  current (run (repeat Next k) (new ts)) = item_at ts (Z.of_nat k mod n) /\
  current (run (repeat Prev k) (new ts)) = item_at ts ((- Z.of_nat k) mod n) /\
  run (repeat Next (List.length ts)) p = p /\
  run (repeat Prev (List.length ts)) p = p.
Proof.
  intros n p.
  assert (Hcur : forall o, current (run (repeat o k) (new ts)) =
                           item_at ts (index (run (repeat o k) (new ts)))).
  { intros o. unfold current. now rewrite run_tracks. }
  destruct (new_valid ts) as [He | Hr].
  - simpl in He. subst ts. rewrite !Hcur, !item_at_nil.
    repeat split; reflexivity.
  - assert (Hlen : length (new ts) = n) by reflexivity.
    assert (Hn : 0 < n) by (rewrite <- Hlen; apply length_pos, in_range_nonempty, Hr).
    rewrite !Hcur, repeat_next_index, repeat_prev_index by assumption.
    rewrite Hlen. cbn [index new].
    split; [reflexivity |]. split; [reflexivity |].
    assert (Hp : in_range p).
    { apply run_in_range; [now apply in_range_nonempty | exact Hr]. }
    assert (Hpl : length p = n).
    { unfold length, p. now rewrite run_tracks. }
    split; apply eq_by_fields; try apply run_tracks.
    + rewrite repeat_next_index by assumption. rewrite Hpl. fold n.
      replace (index p + n) with (index p + 1 * n) by lia.
      rewrite Z.mod_add by lia. apply Z.mod_small. now rewrite <- Hpl.
    + rewrite repeat_prev_index by assumption. rewrite Hpl. fold n.
      replace (index p - n) with (index p + (-1) * n) by lia.
      rewrite Z.mod_add by lia. apply Z.mod_small. now rewrite <- Hpl.
Qed.

(** *** Lookup by id *)

Lemma find_first {A} (f : A -> bool) (l : list A) (x : A) :
  find f l = Some x ->
  exists l1 l2, l = l1 ++ x :: l2 /\ f x = true /\ forall y, In y l1 -> f y = false.
Proof.
  induction l as [| a l IH]; simpl; [discriminate |].
  destruct (f a) eqn:Hfa.
  - intros [= ->]. exists [], l. repeat split; [assumption | intros y []].
  - intros Hfind. destruct (IH Hfind) as (l1 & l2 & -> & Hfx & Hl1).
    exists (a :: l1), l2. repeat split; [assumption |].
    intros y [<- | Hy]; [assumption | now apply Hl1].
Qed.

(** X3: [byId] returns the first track, in catalog order, that carries
    the requested id: what it returns is a track of the catalog with that
    id and no earlier track has it; it returns [null] exactly when no
    track has the id. *)
Theorem byId_finds_first (key : string) (p : t) :
  (forall tr, byId key p = Some tr ->
     id tr = key /\
     exists before after,
       tracks p = before ++ tr :: after /\
       forall other, In other before -> id other <> key) /\
  (byId key p = None <-> forall tr, In tr (tracks p) -> id tr <> key).
Proof.
  split.
  - intros tr Hfind. unfold byId in Hfind.
    destruct (find_first _ _ _ Hfind) as (l1 & l2 & Heq & Hkey & Hl1).
    apply String.eqb_eq in Hkey. split; [exact Hkey |].
    exists l1, l2. split; [exact Heq |].
    intros other Hin Hid. specialize (Hl1 other Hin).
    apply String.eqb_neq in Hl1. contradiction.
  - split.
    + intros Hnone tr Hin Hid. unfold byId in Hnone.
      pose proof (find_none _ _ Hnone tr Hin) as Hf. cbv beta in Hf.
      apply String.eqb_neq in Hf. contradiction.
    + intros Hno. unfold byId. now apply byId_absent.
Qed.

Lemma find_unique (l : list Track) (tr : Track) :
  NoDup (map id l) -> In tr l ->
  find (fun x => String.eqb (id x) (id tr)) l = Some tr.
Proof.
  induction l as [| a l IH]; simpl; intros Hnd Hin; [contradiction |].
  inversion Hnd as [| ? ? Hnotin Hnd']; subst.
  destruct Hin as [-> | Hin].
  - now rewrite String.eqb_refl.
  - destruct (String.eqb_spec (id a) (id tr)) as [Heq | _].
    + exfalso. apply Hnotin. rewrite Heq. now apply in_map.
    + now apply IH.
Qed.

(** X4: in a catalog whose ids are pairwise distinct, looking a track up
    by its own id gives that very track back, in whatever state the
    cursor is; and selecting the position a track is stored at makes it
    the current one, which [byId] then confirms. *)
Theorem byId_round_trip (ts : list Track) (ops : list op) (tr : Track) (pos : nat) :
  NoDup (map id ts) -> nth_error ts pos = Some tr ->
  let p := run ops (new ts) in
  byId (id tr) p = Some tr /\
  current (setIndex (Z.of_nat pos) p) = Some tr /\
  byId (id tr) (setIndex (Z.of_nat pos) p) = current (setIndex (Z.of_nat pos) p).
Proof.
  intros Hnd Hnth p.
  assert (Hin : In tr ts) by (eapply nth_error_In; eassumption).
  assert (Htr : tracks p = ts) by (unfold p; apply run_tracks).
  assert (Hby : forall q, tracks q = ts -> byId (id tr) q = Some tr).
  { intros q Hq. unfold byId. rewrite Hq. now apply find_unique. }
  assert (Hpos : (pos < List.length ts)%nat).
  { apply nth_error_Some. congruence. }
  assert (Hne : tracks p <> []).
  { rewrite Htr. intros ->. simpl in Hpos. lia. }
  assert (Hcur : current (setIndex (Z.of_nat pos) p) = Some tr).
  { unfold current. rewrite setIndex_tracks, setIndex_index by assumption.
    unfold length. rewrite Htr. rewrite Z.mod_small by lia.
    unfold item_at. destruct (Z.ltb_spec (Z.of_nat pos) 0); [lia |].
    now rewrite Nat2Z.id. }
  split; [now apply Hby |]. split; [exact Hcur |].
  rewrite Hcur. apply Hby. now rewrite setIndex_tracks.
Qed.

Lemma demoTracks_distinct : NoDup (map id demoTracks).
Proof.
  simpl. repeat (constructor; [simpl; intuition discriminate |]). constructor.
Qed.

Lemma byId_round_trip_witness :
  byId "7" (run [Next; Prev; Prev] (new demoTracks)) = nth_error demoTracks 6 /\
  current (setIndex 6 (run [Next; Prev; Prev] (new demoTracks))) = nth_error demoTracks 6.
Proof.
  destruct (byId_round_trip demoTracks [Next; Prev; Prev]
              (mkTrack "7" "Música player" "Canal G" "assets/audio7.mp3" None) 6
              demoTracks_distinct eq_refl) as (H1 & H2 & _).
  split; [exact H1 | exact H2].
Defined.

End PlaylistLaws.

(** ** Tracks, time information and the WAV container *)

Module EngineLaws.

Import Number NumberFacts JSString AudioEngine AudioEngineFacts.
Import Sine SineFacts SampleBounds PhaseFacts ToneFacts StandInFacts.

(** X5: [load] of a newly constructed track never fails and leaves
    the audio element paused at position 0 with an unknown duration;
    its source is the [audioUrl] given to the constructor when that is
    a non-empty string, and the synthesized tone when the [audioUrl] is
    missing, [null] or empty: the default [""] of the constructor and
    the test [!track.audioUrl] of [load] agree. *)
Theorem new_track_then_load (Math_sin : Number.t -> Number.t)
    (d : Track.Data) (a : Audio) :
  sine_like Math_sin ->
  let tone := ("data:audio/wav;base64," ++ encode (wav Math_sin))%string in
  load Math_sin (Some (Track.new d)) a =
  Normal {| src := match Track.audioUrl d with
                   | Some u => if String.eqb u EmptyString then tone else u
                   | None => tone
                   end;
            duration := NaN; currentTime := of_Z 0; paused := true |}.
Proof.
  intros Hsin tone.
  pose proof (tone_uri Math_sin Hsin) as Hb. fold tone in Hb.
  unfold load, Track.new. cbn [Playlist.audioUrl].
  destruct (Track.audioUrl d) as [u |]; cbn [Track.nullish].
  - destruct (String.eqb u EmptyString); [| reflexivity].
    rewrite Hb. reflexivity.
  - cbn [String.eqb]. rewrite Hb. reflexivity.
Qed.

Lemma new_track_then_load_witness :
  load unit_sine
    (Some (Track.new (Track.mkData "1" "a" None (Some "x.mp3"%string) None)))
    (mkAudio "old.mp3" (of_Z 120) (of_Z 7) false) =
    Normal {| src := "x.mp3"; duration := NaN; currentTime := of_Z 0;
              paused := true |} /\
  load unit_sine
    (Some (Track.new (Track.mkData "1" "a" None (Some EmptyString) None))) fresh =
    Normal {| src := ("data:audio/wav;base64," ++ encode (wav unit_sine))%string;
              duration := NaN; currentTime := of_Z 0; paused := true |} /\
  load unit_sine
    (Some (Track.new (Track.mkData "1" "a" None None None))) fresh =
    Normal {| src := ("data:audio/wav;base64," ++ encode (wav unit_sine))%string;
              duration := NaN; currentTime := of_Z 0; paused := true |}.
Proof.
  split; [| split].
  - exact (new_track_then_load unit_sine
             (Track.mkData "1" "a" None (Some "x.mp3"%string) None)
             (mkAudio "old.mp3" (of_Z 120) (of_Z 7) false) unit_sine_like).
  - exact (new_track_then_load unit_sine
             (Track.mkData "1" "a" None (Some EmptyString) None) fresh
             unit_sine_like).
  - exact (new_track_then_load unit_sine
             (Track.mkData "1" "a" None None None) fresh unit_sine_like).
Defined.

(** X6: the [current] and [duration] fields that [timeInfo()] hands to
    the time-update callback are never [NaN] and never [-0]: a position
    or duration that is [NaN], [0] or [-0] is reported as [+0], and any
    other value is reported unchanged. *)
Theorem timeInfo_fields (a : Audio) :
  let ti := timeInfo a in
  isNaN (current ti) = false /\ current ti <> S754_zero true /\
  isNaN (total ti) = false /\ total ti <> S754_zero true /\
  current ti = (if ToBoolean (currentTime a) then currentTime a else S754_zero false) /\
  total ti = (if ToBoolean (duration a) then duration a else S754_zero false).
Proof.
  cbv zeta. unfold timeInfo. cbn [current total]. unfold or_else.
  destruct (currentTime a) as [[|] | [|] | | [|] m e],
           (duration a) as [[|] | [|] | | [|] m' e'];
    cbn [ToBoolean isNaN]; repeat split; discriminate.
Qed.

(** *** The little-endian size fields *)

Lemma land_255 (n : Z) : Z.land n 255 = n mod 256.
Proof. change 255 with (Z.ones 8). now rewrite Z.land_ones by lia. Qed.

(** X7: for every integer [n], [u32(n)] is four octets, least
    significant first, whose value [b0 + 2^8 b1 + 2^16 b2 + 2^24 b3] is
    [n] modulo [2^32]; on [0 <= n < 2^32] that is [n] itself. *)
Theorem u32_little_endian (n : Z) :
  exists b0 b1 b2 b3,
    u32 n = [b0; b1; b2; b3] /\
    0 <= b0 < 256 /\ 0 <= b1 < 256 /\ 0 <= b2 < 256 /\ 0 <= b3 < 256 /\
    b0 + 256 * b1 + 65536 * b2 + 16777216 * b3 = n mod 4294967296.
Proof.
  exists (n mod 256), (n / 256 mod 256), (n / 65536 mod 256), (n / 16777216 mod 256).
  assert (H8 : Z.shiftr n 8 = n / 256) by (now rewrite Z.shiftr_div_pow2 by lia).
  assert (H16 : Z.shiftr n 16 = n / 65536) by (now rewrite Z.shiftr_div_pow2 by lia).
  assert (H24 : Z.shiftr n 24 = n / 16777216) by (now rewrite Z.shiftr_div_pow2 by lia).
  pose proof (Z.mod_pos_bound n 256 ltac:(lia)).
  pose proof (Z.mod_pos_bound (n / 256) 256 ltac:(lia)).
  pose proof (Z.mod_pos_bound (n / 65536) 256 ltac:(lia)).
  pose proof (Z.mod_pos_bound (n / 16777216) 256 ltac:(lia)).
  split.
  - unfold u32, fromCharCode. cbn [map].
    rewrite !land_255, H8, H16, H24.
    rewrite !ToUint16_small by lia. reflexivity.
  - repeat (split; [assumption |]).
    pose proof (Z.div_mod n 256 ltac:(lia)) as E0.
    pose proof (Z.div_mod (n / 256) 256 ltac:(lia)) as E1.
    pose proof (Z.div_mod (n / 65536) 256 ltac:(lia)) as E2.
    pose proof (Z.div_mod (n / 16777216) 256 ltac:(lia)) as E3.
    rewrite Z.div_div in E1 by lia. change (256 * 256) with 65536 in E1.
    replace (n / 65536 / 256) with (n / 16777216) in E2
      by (rewrite Z.div_div by lia; reflexivity).
    replace (n / 16777216 / 256) with (n / 4294967296) in E3
      by (rewrite Z.div_div by lia; reflexivity).
    rewrite (Z.mod_eq n 4294967296) by lia. lia.
Qed.

(** X8: whatever [Math.sin] returns, the samples follow the 40-code-unit
    header unchanged, and the size field of the [data] chunk (code units
    36 to 39) is [u32] of the number of samples: unlike the RIFF size, the
    data size that the file declares is the size it has. *)
Theorem data_chunk_size (Math_sin : Number.t -> Number.t) :
  skipn 40 (wav Math_sin) = data Math_sin /\
  firstn 4 (skipn 32 (wav Math_sin)) = of_string "data" /\
  firstn 4 (skipn 36 (wav Math_sin)) =
    u32 (Z.of_nat (List.length (data Math_sin))) /\
  chunkSize Math_sin = Z.of_nat (List.length (skipn 40 (wav Math_sin))).
Proof.
  assert (H40 : skipn 40 (wav Math_sin) = data Math_sin).
  { unfold wav. rewrite patched_header_value. reflexivity. }
  split; [exact H40 |]. split; [| split].
  - unfold wav. rewrite patched_header_value. reflexivity.
  - rewrite data_length. unfold wav. rewrite patched_header_value. reflexivity.
  - rewrite H40. reflexivity.
Qed.

(** *** The tone repeats *)

Lemma nth_data (Math_sin : Number.t -> Number.t) (i : Z) :
  0 <= i < 2000 ->
  nth (Z.to_nat i) (data Math_sin) 0 = ToUint16 (u8 Math_sin i).
Proof.
  intros Hi. rewrite data_spec.
  rewrite (nth_indep _ 0 (ToUint16 (u8 Math_sin (Z.of_nat 0))))
    by (rewrite length_map, length_seq; lia).
  rewrite (map_nth (fun k => ToUint16 (u8 Math_sin (Z.of_nat k)))).
  rewrite seq_nth by lia. cbn [Nat.add]. now rewrite Z2Nat.id by lia.
Qed.

Lemma ideal_sample_period (i : Z) : ideal_sample (i + 200) = ideal_sample i.
Proof.
  rewrite !ideal_sample_eq, plus_IZR.
  replace (2 * PI * 440 * (IZR i + 200) / 8000)%R
    with (2 * PI * 440 * IZR i / 8000 + 2 * INR 11 * PI)%R.
  - now rewrite sin_period.
  - simpl INR. field.
Qed.

(** X9: with a [Math.sin] that is accurate to [2^-13] on the loop's
    arguments, the tone is periodic with period 200 samples (11 cycles of
    440 Hz at 8000 samples per second): sample [i + 200] equals sample
    [i] wherever both exist. *)
Theorem tone_repeats (Math_sin : Number.t -> Number.t) (i : Z) :
  accurate_sine Math_sin -> 0 <= i -> i + 200 < len ->
  nth (Z.to_nat (i + 200)) (data Math_sin) 0 = nth (Z.to_nat i) (data Math_sin) 0.
Proof.
  intros Hsin Hi Hlen.
  assert (Hs : forall j, 0 <= j < 2000 ->
            nth (Z.to_nat j) (data Math_sin) 0 = ideal_sample j).
  { intros j Hj. destruct (Hsin j) as (Hw & Hf & Hacc); [now rewrite len_value |].
    destruct (accurate_sample _ j Hj Hw Hf Hacc) as [Hu Hr].
    rewrite nth_data by assumption. unfold u8.
    now rewrite ToUint16_small by lia. }
  rewrite len_value in Hlen.
  rewrite !Hs by lia. apply ideal_sample_period.
Qed.

Lemma tone_repeats_witness :
  accurate_sine table_sine /\
  nth (Z.to_nat (3 + 200)) (data table_sine) 0 = nth (Z.to_nat 3) (data table_sine) 0.
Proof.
  split; [exact table_sine_accurate |].
  apply (tone_repeats table_sine 3 table_sine_accurate); [lia |].
  rewrite len_value. lia.
Defined.

End EngineLaws.

(** ** Rounding to binary64: validity, monotonicity, nearest *)

Module RoundingFacts.

Import Number NumberFacts AudioEngineFacts Rounding.

Lemma shr_1_r (mrs : shr_record) :
  0 <= shr_m mrs -> shr_r (shr_1 mrs) = Z.odd (shr_m mrs).
Proof.
  destruct mrs as [m r s]. destruct m as [| [p | p |] |]; simpl; try lia; reflexivity.
Qed.

Lemma loc_of_record_of_loc (m : Z) (l : location) :
  loc_of_shr_record (shr_record_of_loc m l) = l.
Proof. destruct l as [| []]; reflexivity. Qed.

(** The first shift of the rounding step: the mantissa is divided by the
    power of two that brings it onto the grid [E]; the rounded mantissa
    is that quotient or one more, the quotient when nothing is lost, and
    the quotient when the round bit is clear. *)
Lemma shr_fexp_round (m e : Z) (l : location) :
  0 <= m ->
  let E := Z.max e (fexp prec emax (Zdigits2 m + e)) in
  let m' := m / 2 ^ (E - e) in
  let res := shr_fexp prec emax m e l in
  let r := round_nearest_even (shr_m (fst res)) (loc_of_shr_record (fst res)) in
  snd res = E /\ shr_m (fst res) = m' /\ m' <= r <= m' + 1 /\
  (l = loc_Exact -> m mod 2 ^ (E - e) = 0 -> r = m') /\
  ((E = e -> l = loc_Exact \/ l = loc_Inexact Lt) ->
   (e < E -> Z.odd (m / 2 ^ (E - e - 1)) = false) -> r = m').
Proof.
  intros Hm E m' res r.
  set (n := fexp prec emax (Zdigits2 m + e) - e).
  assert (Hsh : Z.max n 0 = E - e) by (subst n E; lia).
  set (mrs := shr_record_of_loc m l).
  assert (Hmrs : shr_m mrs = m) by apply shr_record_of_loc_m.
  assert (H0 : 0 <= shr_m mrs) by (rewrite Hmrs; lia).
  assert (Hres : res = shr mrs e n) by reflexivity.
  destruct (shr_spec mrs e n H0) as (He' & Hm' & Hex).
  rewrite <- Hres, Hsh in He', Hm'. rewrite Hsh in Hex. rewrite Hmrs in Hm', Hex.
  fold m' in Hm'.
  assert (Hr : m' <= r <= m' + 1).
  { subst r. rewrite Hm'. apply round_nearest_even_bounds. }
  split; [rewrite He'; lia |]. split; [exact Hm' |]. split; [exact Hr |]. split.
  - intros -> Hdiv. subst r. rewrite <- Hres in Hex.
    rewrite Hex by (try reflexivity; assumption). now rewrite Hm'.
  - intros Hl Hodd. subst r. rewrite Hm'.
    assert (Hloc : loc_of_shr_record (fst res) = loc_Exact \/
                   loc_of_shr_record (fst res) = loc_Inexact Lt).
    { rewrite Hres. unfold shr. destruct n as [| p | p] eqn:Hn.
      - cbn [fst]. unfold mrs. rewrite loc_of_record_of_loc. apply Hl. lia.
      - cbn [fst].
        assert (HE : e < E) by lia. specialize (Hodd HE).
        rewrite iter_pos_nat.
        destruct (Pos.to_nat p) as [| k] eqn:Hk; [lia |].
        change (Nat.iter (S k) shr_1 mrs) with (shr_1 (Nat.iter k shr_1 mrs)).
        assert (Hrb : shr_r (shr_1 (Nat.iter k shr_1 mrs)) = false).
        { rewrite shr_1_r by (rewrite shr_iter_m by assumption;
                              apply Z.div_pos; [lia | apply Z.pow_pos_nonneg; lia]).
          rewrite shr_iter_m by assumption. rewrite Hmrs.
          replace (Z.of_nat k) with (E - e - 1) by lia. exact Hodd. }
        destruct (shr_1 (Nat.iter k shr_1 mrs)) as [mm rb sb]. simpl in Hrb. subst rb.
        destruct sb; [right | left]; reflexivity.
      - cbn [fst]. unfold mrs. rewrite loc_of_record_of_loc. apply Hl. lia. }
    destruct Hloc as [-> | ->]; reflexivity.
Qed.

(** The second shift gives the canonical mantissa and exponent. *)
Lemma renormalise_canonical (m' r E : Z) :
  0 <= m' -> m' <= r <= m' + 1 -> -1074 <= E ->
  (0 < m' -> fexp prec emax (Zdigits2 m' + E) = E) ->
  (m' = 0 -> E = -1074) ->
  let res := shr_fexp prec emax r E loc_Exact in
  0 < shr_m (fst res) ->
  fexp prec emax (Zdigits2 (shr_m (fst res)) + snd res) = snd res.
Proof.
  intros Hm' Hr HE Hcan Hzero res.
  unfold shr_fexp in res. cbn [shr_record_of_loc] in res.
  set (mrs := {| shr_m := r; shr_r := false; shr_s := false |}) in res.
  set (n := fexp prec emax (Zdigits2 r + E) - E) in res.
  assert (H0 : 0 <= shr_m mrs) by (simpl; lia).
  destruct (shr_spec mrs E n H0) as (He & Hm & _). fold res in He, Hm.
  simpl shr_m in Hm. rewrite He, Hm. clear He Hm res.
  intros Hpos.
  destruct (Z.eq_dec m' 0) as [Hz | Hnz].
  - (* the mantissa was rounded up from nothing *)
    specialize (Hzero Hz). subst m' E.
    assert (Hr1 : r = 1).
    { destruct (Z.eq_dec r 0) as [-> | ?]; [| lia].
      rewrite Z.div_0_l in Hpos by (apply Z.pow_nonzero; lia). lia. }
    subst r. subst n. reflexivity.
  - assert (Hp : 0 < m') by lia. specialize (Hcan Hp).
    pose proof (Zdigits2_bounds m' Hp) as Hd.
    assert (Hdp : 0 < Zdigits2 m') by (destruct m'; simpl; lia).
    rewrite fexp_eq in Hcan.
    destruct (Z.eq_dec r (2 ^ Zdigits2 m')) as [Hpow | Hnp].
    + assert (Hd1 : Zdigits2 r = Zdigits2 m' + 1).
      { apply Zdigits2_unique; [| lia].
        replace (Zdigits2 m' + 1 - 1) with (Zdigits2 m') by lia.
        rewrite Z.pow_add_r by lia. lia. }
      subst n. rewrite Hd1. repeat rewrite fexp_eq.
      destruct (Z_le_gt_dec (-1074) (Zdigits2 m' + E - 53)) as [Hn | Hs].
      * replace (Z.max (Z.max (Zdigits2 m' + 1 + E - 53) (-1074) - E) 0) with 1 by lia.
        replace (r / 2 ^ 1) with (2 ^ (Zdigits2 m' - 1)).
        -- assert (Hd2 : Zdigits2 (2 ^ (Zdigits2 m' - 1)) = Zdigits2 m').
           { apply Zdigits2_unique.
             - split; [lia |]. apply Z.pow_lt_mono_r; lia.
             - apply Z.pow_pos_nonneg; lia. }
           rewrite Hd2. lia.
        -- rewrite Hpow. change (2 ^ 1) with 2.
           replace (Zdigits2 m') with (Zdigits2 m' - 1 + 1) at 2 by lia.
           rewrite Z.pow_add_r by lia. change (2 ^ 1) with 2.
           now rewrite Z.div_mul by lia.
      * replace (Z.max (Z.max (Zdigits2 m' + 1 + E - 53) (-1074) - E) 0) with 0 by lia.
        rewrite Z.pow_0_r, Z.div_1_r, Z.add_0_r, Hd1. lia.
    + assert (Hd1 : Zdigits2 r = Zdigits2 m') by (apply Zdigits2_unique; lia).
      subst n. rewrite Hd1. repeat rewrite fexp_eq.
      replace (Z.max (Z.max (Zdigits2 m' + E - 53) (-1074) - E) 0) with 0 by lia.
      rewrite Z.pow_0_r, Z.div_1_r, Z.add_0_r, Hd1. lia.
Qed.

(** What the rounding step returns for a represented value [V]: with
    [E] the grid of [V] and [m'] the number of grid steps below [V], the
    result stands for [r] grid steps, where [r] is [m'] or [m' + 1]
    ([m'] when [V] is on the grid, and when [V] is below the middle of
    the step); it is a zero, a canonical finite double, or an infinity
    when the exponent overflows. *)
Lemma round_sem (s : bool) (V : Q) (m e : Z) (l : location) :
  represents V m e l ->
  let E := fexp prec emax (Zdigits2 m + e) in
  exists m' r m1 e1 : Z,
    0 <= m' /\ (F2Q m' E <= V)%Q /\ (V < F2Q (m' + 1) E)%Q /\
    m' <= r <= m' + 1 /\
    ((V == F2Q m' E)%Q -> r = m') /\
    ((V < F2Q (2 * m' + 1) (E - 1))%Q -> r = m') /\
    (0 < m' -> Zdigits2 m' + E = Zdigits2 m + e) /\
    (m' = 0 -> E = -1074) /\ -1074 <= E /\
    0 <= m1 /\ E <= e1 <= E + 1 /\ m1 * 2 ^ (e1 - E) = r /\
    (0 < m1 -> fexp prec emax (Zdigits2 m1 + e1) = e1) /\
    binary_round_aux prec emax s m e l =
      match m1 with
      | Zpos p => if e1 <=? emax - prec then S754_finite s p e1
                  else S754_infinity s
      | _ => S754_zero s
      end.
Proof.
  intros (Hm & Hlo & Hhi & Hex & Hdown & Hprec) E.
  fold E in Hprec.
  assert (HEmax : Z.max e (fexp prec emax (Zdigits2 m + e)) = E) by (subst E; lia).
  destruct (shr_fexp_round m e l Hm) as (Hs1 & Hs2 & Hs3 & Hs4 & Hs5).
  rewrite HEmax in Hs1, Hs2, Hs3, Hs4, Hs5.
  set (m' := m / 2 ^ (E - e)) in *.
  set (r := round_nearest_even (shr_m (fst (shr_fexp prec emax m e l)))
              (loc_of_shr_record (fst (shr_fexp prec emax m e l)))) in *.
  assert (Hpw : 0 < 2 ^ (E - e)) by (apply Z.pow_pos_nonneg; lia).
  assert (Hm'0 : 0 <= m') by (apply Z.div_pos; lia).
  pose proof (Z.div_mod m (2 ^ (E - e)) ltac:(lia)) as Hdm. fold m' in Hdm.
  pose proof (Z.mod_pos_bound m (2 ^ (E - e)) Hpw) as Hmb.
  assert (HEmin : -1074 <= E) by (subst E; rewrite fexp_eq; lia).
  assert (Hlo' : (F2Q m' E <= V)%Q).
  { eapply Qle_trans; [| exact Hlo]. apply F2Q_le_r; [lia |]. nia. }
  assert (Hhi' : (V < F2Q (m' + 1) E)%Q).
  { eapply Qlt_le_trans; [exact Hhi |]. apply F2Q_le_l; [lia |]. nia. }
  assert (Hdig : 0 < m' -> Zdigits2 m' + E = Zdigits2 m + e).
  { intros Hp. subst m'. rewrite Zdigits2_div_pow2 by lia. lia. }
  assert (Hcan : 0 < m' -> fexp prec emax (Zdigits2 m' + E) = E).
  { intros Hp. now rewrite (Hdig Hp). }
  assert (Hzero : m' = 0 -> E = -1074).
  { intros Hz. destruct (Z.eq_dec m 0) as [-> | Hmn].
    - subst E. simpl Zdigits2 in *. rewrite fexp_eq in *. lia.
    - assert (Hmp : 0 < m) by lia.
      pose proof (Zdigits2_bounds m Hmp) as Hd.
      assert (Hlt : m < 2 ^ (E - e)) by nia.
      assert (Hdle : Zdigits2 m - 1 < E - e).
      { apply (Z.pow_lt_mono_r_iff 2); lia. }
      subst E. rewrite fexp_eq in *. lia. }
  assert (Hfe : fexp prec emax (Zdigits2 m' + E) <= E).
  { destruct (Z.eq_dec m' 0) as [Hz | Hnz].
    - rewrite Hz. simpl Zdigits2. rewrite fexp_eq. lia.
    - rewrite Hcan by lia. lia. }
  destruct (renormalise_exact m' r E Hm'0 Hs3 Hfe HEmin) as (Hn0 & Hn1 & Hn2).
  pose proof (renormalise_canonical m' r E Hm'0 Hs3 HEmin Hcan Hzero) as Hn3.
  exists m', r, (shr_m (fst (shr_fexp prec emax r E loc_Exact))),
         (snd (shr_fexp prec emax r E loc_Exact)).
  split; [exact Hm'0 |]. split; [exact Hlo' |]. split; [exact Hhi' |].
  split; [exact Hs3 |].
  split; [| split; [| split; [exact Hdig | split; [exact Hzero | split; [exact HEmin |]]]]].
  - (* on the grid *)
    intros Heq. apply Hs4.
    + apply Hex. apply Qle_antisym; [| exact Hlo].
      rewrite Heq. apply F2Q_le_r; [lia |]. nia.
    + assert (Hle : (F2Q m e <= F2Q m' E)%Q) by (rewrite <- Heq; exact Hlo).
      apply F2Q_le_l in Hle; [| lia]. lia.
  - (* below the middle *)
    intros Hmid. apply Hs5.
    + intros HEe. apply Hdown. rewrite HEe in Hmid.
      replace m' with m in Hmid; [exact Hmid |].
      subst m'. rewrite HEe, Z.sub_diag, Z.pow_0_r, Z.div_1_r. reflexivity.
    + intros HeE.
      set (mm := m / 2 ^ (E - e - 1)).
      assert (Hpw1 : 0 < 2 ^ (E - e - 1)) by (apply Z.pow_pos_nonneg; lia).
      assert (Hm2 : m' = mm / 2).
      { subst m' mm. rewrite Z.div_div by lia.
        f_equal. replace (E - e) with (E - e - 1 + 1) at 1 by lia.
        rewrite Z.pow_add_r by lia. reflexivity. }
      pose proof (Z.div_mod m (2 ^ (E - e - 1)) ltac:(lia)) as Hdm1. fold mm in Hdm1.
      pose proof (Z.mod_pos_bound m (2 ^ (E - e - 1)) Hpw1) as Hmb1.
      assert (Hmm : (F2Q mm (E - 1) <= F2Q m e)%Q).
      { apply F2Q_le_r; [lia |]. replace (E - 1 - e) with (E - e - 1) by lia. nia. }
      assert (Hlt : (F2Q mm (E - 1) < F2Q (2 * m' + 1) (E - 1))%Q).
      { eapply Qle_lt_trans; [exact Hmm |]. eapply Qle_lt_trans; [exact Hlo | exact Hmid]. }
      apply F2Q_lt_same in Hlt.
      pose proof (Z.div_mod mm 2 ltac:(lia)) as Hdm2. rewrite <- Hm2 in Hdm2.
      pose proof (Z.mod_pos_bound mm 2 ltac:(lia)) as Hmb2.
      rewrite Zodd_mod. destruct (Z.eqb_spec (mm mod 2) 1); [lia | reflexivity].
  - split; [exact Hn0 |]. split; [exact Hn1 |]. split; [exact Hn2 |].
    split; [exact Hn3 |].
    unfold binary_round_aux.
    destruct (shr_fexp prec emax m e l) as [mrs1 e1] eqn:Hshr.
    cbn [fst snd] in *. subst e1. fold r.
    destruct (shr_fexp prec emax r E loc_Exact) as [mrs2 e2] eqn:Hshr2.
    cbn [fst snd] in *.
    destruct (shr_m mrs2) as [| p | p]; try reflexivity. lia.
Qed.


(** *** Canonical doubles *)

Lemma bounded_canonical (m : positive) (e : Z) :
  bounded prec emax m e = true <->
  fexp prec emax (Zdigits2 (Zpos m) + e) = e /\ e <= emax - prec.
Proof.
  unfold bounded, canonical_mantissa. rewrite andb_true_iff, Z.eqb_eq, Z.leb_le.
  reflexivity.
Qed.

Lemma fexp_mono (a b : Z) : a <= b -> fexp prec emax a <= fexp prec emax b.
Proof. intros H. rewrite !fexp_eq. lia. Qed.

(** A positive dyadic lies between the powers of two around it. *)
Lemma F2Q_magnitude (z e : Z) :
  0 < z ->
  (F2Q 1 (Zdigits2 z + e - 1) <= F2Q z e)%Q /\ (F2Q z e < F2Q 1 (Zdigits2 z + e))%Q.
Proof.
  intros Hz. pose proof (Zdigits2_bounds z Hz) as Hd.
  assert (Hdp : 0 < Zdigits2 z) by (destruct z; simpl in *; lia).
  split.
  - apply F2Q_le_r; [lia |].
    replace (Zdigits2 z + e - 1 - e) with (Zdigits2 z - 1) by lia. lia.
  - apply F2Q_lt_l; [lia |].
    replace (Zdigits2 z + e - e) with (Zdigits2 z) by lia. lia.
Qed.

Lemma F2Q_one_lt (e1 e2 : Z) : (F2Q 1 e1 < F2Q 1 e2)%Q -> e1 < e2.
Proof.
  intros H. destruct (Z_lt_le_dec e1 e2) as [Hlt | Hge]; [assumption |].
  exfalso. apply (Qlt_irrefl (F2Q 1 e1)). eapply Qlt_le_trans; [exact H |].
  apply F2Q_le_l; [assumption |].
  assert (0 < 2 ^ (e1 - e2)) by (apply Z.pow_pos_nonneg; lia). lia.
Qed.

(** The larger of two positive dyadics has at least the magnitude of the
    smaller. *)
Lemma magnitude_le (a b e1 e2 : Z) :
  0 < a -> 0 < b -> (F2Q a e1 <= F2Q b e2)%Q ->
  Zdigits2 a + e1 <= Zdigits2 b + e2.
Proof.
  intros Ha Hb Hle.
  destruct (F2Q_magnitude a e1 Ha) as [Ha1 _].
  destruct (F2Q_magnitude b e2 Hb) as [_ Hb2].
  assert (Hlt : (F2Q 1 (Zdigits2 a + e1 - 1) < F2Q 1 (Zdigits2 b + e2))%Q).
  { eapply Qle_lt_trans; [exact Ha1 |]. eapply Qle_lt_trans; [exact Hle | exact Hb2]. }
  apply F2Q_one_lt in Hlt. lia.
Qed.

Lemma canonical_exponent_mono (a b e1 e2 : Z) :
  0 < a -> 0 < b ->
  fexp prec emax (Zdigits2 a + e1) = e1 -> fexp prec emax (Zdigits2 b + e2) = e2 ->
  (F2Q a e1 <= F2Q b e2)%Q -> e1 <= e2.
Proof.
  intros Ha Hb H1 H2 Hle. rewrite <- H1, <- H2.
  apply fexp_mono. now apply magnitude_le.
Qed.

(** A number has one canonical representation. *)
Lemma canonical_unique (a b e1 e2 : Z) :
  0 < a -> 0 < b ->
  fexp prec emax (Zdigits2 a + e1) = e1 -> fexp prec emax (Zdigits2 b + e2) = e2 ->
  (F2Q a e1 == F2Q b e2)%Q -> a = b /\ e1 = e2.
Proof.
  intros Ha Hb H1 H2 Heq.
  assert (He : e1 = e2).
  { apply Z.le_antisymm.
    - apply (canonical_exponent_mono a b); try assumption. rewrite Heq. apply Qle_refl.
    - apply (canonical_exponent_mono b a); try assumption. rewrite Heq. apply Qle_refl. }
  subst e2. split; [| reflexivity].
  apply Z.le_antisymm; apply (F2Q_le_same _ _ e1); rewrite Heq; apply Qle_refl.
Qed.

Lemma F2Q_unshift (r m1 E e1 : Z) :
  E <= e1 -> m1 * 2 ^ (e1 - E) = r -> (F2Q m1 e1 == F2Q r E)%Q.
Proof.
  intros He <-. rewrite F2Q_shift by lia. now replace (E + (e1 - E)) with e1 by lia.
Qed.

(** *** Monotonicity of rounding *)

(** Rounding is what it should be: the result is a zero, a canonical
    finite double or an infinity. *)
Lemma round_valid (s : bool) (V : Q) (m e : Z) (l : location) :
  represents V m e l ->
  well_formed (binary_round_aux prec emax s m e l) = true /\
  isNaN (binary_round_aux prec emax s m e l) = false.
Proof.
  intros Hrep.
  destruct (round_sem s V m e l Hrep)
    as (m' & r & m1 & e1 & _ & _ & _ & _ & _ & _ & _ & _ & _ & Hm1 & He1 & _ & Hcan & ->).
  destruct m1 as [| p | p]; [now split | | now split].
  destruct (Z.leb_spec e1 (emax - prec)); [| now split].
  split; [| reflexivity].
  apply bounded_canonical. split; [apply Hcan; lia | assumption].
Qed.

(** A value at or below a double rounds to a double at or below it. *)
Lemma round_le (s : bool) (V : Q) (m e : Z) (l : location) (mu : positive) (eu : Z) :
  represents V m e l ->
  bounded prec emax mu eu = true ->
  (V <= F2Q (Zpos mu) eu)%Q ->
  binary_round_aux prec emax s m e l = S754_zero s \/
  exists m1 e1,
    binary_round_aux prec emax s m e l = S754_finite s m1 e1 /\
    bounded prec emax m1 e1 = true /\
    (F2Q (Zpos m1) e1 <= F2Q (Zpos mu) eu)%Q.
Proof.
  intros Hrep Hbu HVU.
  apply bounded_canonical in Hbu. destruct Hbu as [Hcu Heu].
  destruct (round_sem s V m e l Hrep)
    as (m' & r & m1 & e1 & Hm'0 & Hlo & Hhi & Hr & Hex & _ & Hdig & Hzero & HEmin
        & Hm1 & He1 & Hval & Hcan & ->).
  set (E := fexp prec emax (Zdigits2 m + e)) in *.
  destruct m1 as [| p | p]; [now left | right | lia].
  assert (Hv : (F2Q (Zpos p) e1 == F2Q r E)%Q) by (apply F2Q_unshift; lia).
  assert (Hrpos : 0 < r).
  { assert (0 < 2 ^ (e1 - E)) by (apply Z.pow_pos_nonneg; lia). nia. }
  assert (HrU : (F2Q r E <= F2Q (Zpos mu) eu)%Q).
  { destruct (Z.eq_dec m' 0) as [Hz | Hnz].
    - assert (Hr1 : r = 1) by lia. rewrite Hr1, (Hzero Hz).
      rewrite fexp_eq in Hcu. apply F2Q_le_l; [lia |].
      assert (0 < 2 ^ (eu - -1074)) by (apply Z.pow_pos_nonneg; lia).
      assert (0 < Z.pos mu * 2 ^ (eu - -1074)) by (apply Z.mul_pos_pos; lia). lia.
    - assert (Hm'p : 0 < m') by lia.
      assert (HEeu : E <= eu).
      { rewrite <- Hcu. unfold E. rewrite <- (Hdig Hm'p).
        apply fexp_mono, magnitude_le; [lia | lia |].
        eapply Qle_trans; [exact Hlo | exact HVU]. }
      apply F2Q_le_l; [exact HEeu |].
      assert (Hm'u : m' <= Zpos mu * 2 ^ (eu - E)).
      { apply (F2Q_le_l m' (Zpos mu) E eu HEeu).
        eapply Qle_trans; [exact Hlo | exact HVU]. }
      destruct (Z.eq_dec m' (Zpos mu * 2 ^ (eu - E))) as [Heq | Hne]; [| lia].
      rewrite Hex; [lia |].
      apply Qle_antisym; [| exact Hlo].
      eapply Qle_trans; [exact HVU |]. apply F2Q_le_r; [exact HEeu | lia]. }
  assert (Hcp : fexp prec emax (Zdigits2 (Zpos p) + e1) = e1) by (apply Hcan; lia).
  assert (He1u : e1 <= eu).
  { apply (canonical_exponent_mono (Zpos p) (Zpos mu)); try assumption; try lia.
    rewrite Hv. exact HrU. }
  destruct (Z.leb_spec e1 (emax - prec)); [| lia].
  exists p, e1. split; [reflexivity |]. split.
  - apply bounded_canonical. split; assumption.
  - rewrite Hv. exact HrU.
Qed.

(** A value at or above a double rounds to a double at or above it, or
    overflows. *)
Lemma round_ge (s : bool) (V : Q) (m e : Z) (l : location) (ml : positive) (el : Z) :
  represents V m e l ->
  bounded prec emax ml el = true ->
  (F2Q (Zpos ml) el <= V)%Q ->
  binary_round_aux prec emax s m e l = S754_infinity s \/
  exists m1 e1,
    binary_round_aux prec emax s m e l = S754_finite s m1 e1 /\
    bounded prec emax m1 e1 = true /\
    (F2Q (Zpos ml) el <= F2Q (Zpos m1) e1)%Q.
Proof.
  intros Hrep Hbl HLV.
  apply bounded_canonical in Hbl. destruct Hbl as [Hcl Hel].
  destruct (round_sem s V m e l Hrep)
    as (m' & r & m1 & e1 & Hm'0 & Hlo & Hhi & Hr & Hex & _ & Hdig & Hzero & HEmin
        & Hm1 & He1 & Hval & Hcan & ->).
  set (E := fexp prec emax (Zdigits2 m + e)) in *.
  assert (Helmin : -1074 <= el) by (rewrite <- Hcl, fexp_eq; lia).
  assert (Hm'p : 0 < m').
  { destruct (Z.eq_dec m' 0) as [Hz | Hnz]; [exfalso | lia].
    rewrite Hz, (Hzero Hz) in Hhi. simpl Z.add in Hhi.
    assert (Hlt : (F2Q (Zpos ml) el < F2Q 1 (-1074))%Q)
      by (eapply Qle_lt_trans; [exact HLV | exact Hhi]).
    apply F2Q_lt_r in Hlt; [| lia].
    assert (0 < 2 ^ (el - -1074)) by (apply Z.pow_pos_nonneg; lia).
    assert (0 < Z.pos ml * 2 ^ (el - -1074)) by (apply Z.mul_pos_pos; lia). lia. }
  assert (HLr : (F2Q (Zpos ml) el <= F2Q m' E)%Q).
  { destruct (Z_le_gt_dec E el) as [HEel | HEel].
    - apply F2Q_le_r; [exact HEel |].
      assert (Hlt : (F2Q (Zpos ml) el < F2Q (m' + 1) E)%Q)
        by (eapply Qle_lt_trans; [exact HLV | exact Hhi]).
      apply F2Q_lt_r in Hlt; [| exact HEel]. lia.
    - (* the value is in a higher binade than the bound *)
      assert (Hd53 : Zdigits2 m' = 53).
      { assert (HE : fexp prec emax (Zdigits2 m' + E) = E)
          by (rewrite (Hdig Hm'p); reflexivity).
        rewrite fexp_eq in HE. lia. }
      assert (Hdl : Zdigits2 (Zpos ml) + el <= 52 + E).
      { rewrite fexp_eq in Hcl. lia. }
      destruct (F2Q_magnitude (Zpos ml) el ltac:(lia)) as [_ HL2].
      destruct (F2Q_magnitude m' E Hm'p) as [HM1 _].
      apply Qlt_le_weak. eapply Qlt_le_trans; [exact HL2 |].
      eapply Qle_trans; [| exact HM1].
      apply F2Q_le_l; [lia |].
      assert (0 < 2 ^ (Zdigits2 m' + E - 1 - (Zdigits2 (Zpos ml) + el)))
        by (apply Z.pow_pos_nonneg; lia). lia. }
  assert (Hrpos : 0 < r) by lia.
  destruct m1 as [| p | p]; [simpl in Hval; lia | | lia].
  assert (Hv : (F2Q (Zpos p) e1 == F2Q r E)%Q) by (apply F2Q_unshift; lia).
  destruct (Z.leb_spec e1 (emax - prec)); [right | now left].
  exists p, e1. split; [reflexivity |]. split.
  - apply bounded_canonical. split; [apply Hcan; lia | assumption].
  - rewrite Hv. eapply Qle_trans; [exact HLr |]. apply F2Q_le_same. lia.
Qed.

(** Round to nearest: a value below the middle between a double [k] and
    the grid point before it rounds to a double strictly below [k]. *)
Lemma round_lt (s : bool) (V : Q) (m e : Z) (l : location) (mk : positive) (ek : Z) :
  represents V m e l ->
  bounded prec emax mk ek = true ->
  (V < F2Q (2 * Zpos mk - 1) (ek - 1))%Q ->
  binary_round_aux prec emax s m e l = S754_zero s \/
  exists m1 e1,
    binary_round_aux prec emax s m e l = S754_finite s m1 e1 /\
    bounded prec emax m1 e1 = true /\
    (F2Q (Zpos m1) e1 < F2Q (Zpos mk) ek)%Q.
Proof.
  intros Hrep Hbk HVk.
  apply bounded_canonical in Hbk. destruct Hbk as [Hck Hek].
  destruct (round_sem s V m e l Hrep)
    as (m' & r & m1 & e1 & Hm'0 & Hlo & Hhi & Hr & Hex & Hdown & Hdig & Hzero & HEmin
        & Hm1 & He1 & Hval & Hcan & ->).
  set (E := fexp prec emax (Zdigits2 m + e)) in *.
  destruct m1 as [| p | p]; [now left | right | lia].
  assert (Hv : (F2Q (Zpos p) e1 == F2Q r E)%Q) by (apply F2Q_unshift; lia).
  assert (Hekmin : -1074 <= ek) by (rewrite <- Hck, fexp_eq; lia).
  assert (Hmidk : (F2Q (2 * Zpos mk - 1) (ek - 1) < F2Q (Zpos mk) ek)%Q).
  { apply F2Q_lt_l; [lia |]. replace (ek - (ek - 1)) with 1 by lia.
    change (2 ^ 1) with 2. lia. }
  assert (HVk' : (V < F2Q (Zpos mk) ek)%Q) by (eapply Qlt_trans; [exact HVk | exact Hmidk]).
  assert (HEek : E <= ek).
  { destruct (Z.eq_dec m' 0) as [Hz | Hnz]; [rewrite (Hzero Hz); lia |].
    rewrite <- Hck. unfold E. rewrite <- (Hdig ltac:(lia)).
    apply fexp_mono, magnitude_le; [lia | lia |].
    apply Qlt_le_weak. eapply Qle_lt_trans; [exact Hlo | exact HVk']. }
  set (K := Zpos mk * 2 ^ (ek - E)).
  assert (Hpw : 0 < 2 ^ (ek - E)) by (apply Z.pow_pos_nonneg; lia).
  assert (Hm'K : m' < K).
  { apply (F2Q_lt_l m' (Zpos mk) E ek HEek).
    eapply Qle_lt_trans; [exact Hlo | exact HVk']. }
  assert (HrK : r < K).
  { destruct (Z.eq_dec m' (K - 1)) as [Heq | Hne]; [| lia].
    rewrite Hdown; [lia |].
    eapply Qlt_le_trans; [exact HVk |].
    apply F2Q_le_r; [lia |]. replace (ek - 1 - (E - 1)) with (ek - E) by lia.
    subst K. nia. }
  assert (HrU : (F2Q r E < F2Q (Zpos mk) ek)%Q).
  { apply F2Q_lt_l; [exact HEek |]. exact HrK. }
  assert (Hcp : fexp prec emax (Zdigits2 (Zpos p) + e1) = e1) by (apply Hcan; lia).
  assert (He1k : e1 <= ek).
  { apply (canonical_exponent_mono (Zpos p) (Zpos mk)); try assumption; try lia.
    rewrite Hv. now apply Qlt_le_weak. }
  destruct (Z.leb_spec e1 (emax - prec)); [| lia].
  exists p, e1. split; [reflexivity |]. split.
  - apply bounded_canonical. split; assumption.
  - rewrite Hv. exact HrU.
Qed.

(** A value that is a double rounds to that double. *)
Lemma round_exact (s : bool) (V : Q) (m e : Z) (l : location) (mz : positive) (ez : Z) :
  represents V m e l ->
  bounded prec emax mz ez = true ->
  (V == F2Q (Zpos mz) ez)%Q ->
  binary_round_aux prec emax s m e l = S754_finite s mz ez.
Proof.
  intros Hrep Hbz HV.
  destruct (round_le s V m e l mz ez Hrep Hbz) as [Hz | (m1 & e1 & HR & Hb1 & Hle)];
    [rewrite HV; apply Qle_refl | |];
  destruct (round_ge s V m e l mz ez Hrep Hbz) as [Hi | (m2 & e2 & HR2 & Hb2 & Hge)];
    try (rewrite HV; apply Qle_refl); try congruence.
  rewrite HR. rewrite HR in HR2. injection HR2 as <- <-.
  apply bounded_canonical in Hbz, Hb1. destruct Hbz as [Hcz _], Hb1 as [Hc1 _].
  destruct (canonical_unique (Zpos m1) (Zpos mz) e1 ez) as [Hm He];
    try assumption; try lia.
  - now apply Qle_antisym.
  - injection Hm as ->. now subst.
Qed.

(** *** The operands of the arithmetic operations *)

Lemma represents_ext (V W : Q) (m e : Z) (l : location) :
  (V == W)%Q -> represents V m e l -> represents W m e l.
Proof.
  intros Heq (H1 & H2 & H3 & H4 & H5 & H6).
  repeat split; try assumption.
  - now rewrite <- Heq.
  - now rewrite <- Heq.
  - intros H. apply H4. now rewrite Heq.
  - intros H. apply H5. now rewrite Heq.
Qed.

Lemma represents_exact (z e : Z) :
  0 <= z -> e <= fexp prec emax (Zdigits2 z + e) ->
  represents (F2Q z e) z e loc_Exact.
Proof.
  intros Hz He. repeat split; try assumption.
  - apply Qle_refl.
  - apply F2Q_lt_same. lia.
  - intros _. now left.
Qed.

Lemma Zdigits2_mul_ge (a b : Z) :
  0 < a -> 0 < b -> Zdigits2 a + Zdigits2 b - 1 <= Zdigits2 (a * b).
Proof.
  intros Ha Hb.
  pose proof (Zdigits2_bounds a Ha) as [Ha1 _].
  pose proof (Zdigits2_bounds b Hb) as [Hb1 _].
  pose proof (Zdigits2_bounds (a * b) ltac:(nia)) as [_ Hab].
  assert (Hda : 0 < Zdigits2 a) by (destruct a; simpl in *; lia).
  assert (Hdb : 0 < Zdigits2 b) by (destruct b; simpl in *; lia).
  assert (Hp : 2 ^ (Zdigits2 a - 1 + (Zdigits2 b - 1)) <= a * b).
  { rewrite Z.pow_add_r by lia.
    assert (0 < 2 ^ (Zdigits2 a - 1)) by (apply Z.pow_pos_nonneg; lia).
    assert (0 < 2 ^ (Zdigits2 b - 1)) by (apply Z.pow_pos_nonneg; lia). nia. }
  assert (Hlt : 2 ^ (Zdigits2 a - 1 + (Zdigits2 b - 1)) < 2 ^ Zdigits2 (a * b)) by lia.
  apply Z.pow_lt_mono_r_iff in Hlt; [lia | lia | apply Zdigits2_nonneg].
Qed.

Lemma bounded_digits (m : positive) (e : Z) :
  bounded prec emax m e = true ->
  1 <= Zdigits2 (Zpos m) <= 53 /\ -1074 <= e <= emax - prec /\
  (e = -1074 \/ Zdigits2 (Zpos m) = 53).
Proof.
  intros Hb. apply bounded_canonical in Hb. destruct Hb as [Hc He].
  rewrite fexp_eq in Hc. assert (0 < Zdigits2 (Zpos m)) by (simpl; lia). lia.
Qed.

(** The exact product of two doubles, as the multiplication rounds it. *)
Lemma mul_represents (mx my : positive) (ex ey : Z) :
  bounded prec emax mx ex = true -> bounded prec emax my ey = true ->
  represents (F2Q (Zpos mx) ex * F2Q (Zpos my) ey) (Zpos (mx * my)) (ex + ey) loc_Exact.
Proof.
  intros Hbx Hby.
  apply (represents_ext (F2Q (Zpos (mx * my)) (ex + ey))).
  { rewrite F2Q_mul. reflexivity. }
  apply represents_exact; [lia |].
  destruct (bounded_digits mx ex Hbx) as (Hdx & Hex & Hcx).
  destruct (bounded_digits my ey Hby) as (Hdy & Hey & Hcy).
  pose proof (Zdigits2_mul_ge (Zpos mx) (Zpos my) ltac:(lia) ltac:(lia)) as Hd.
  change (Zpos mx * Zpos my) with (Zpos (mx * my)) in Hd.
  rewrite fexp_eq. lia.
Qed.

(** An integer mantissa and exponent, as [binary_round] aligns it. *)
Lemma binary_round_represents (s : bool) (m : positive) (e : Z) :
  exists mz ez,
    binary_round prec emax s m e = binary_round_aux prec emax s (Zpos mz) ez loc_Exact /\
    represents (F2Q (Zpos m) e) (Zpos mz) ez loc_Exact.
Proof.
  unfold binary_round.
  set (e0 := fexp prec emax (Zpos (digits2_pos m) + e)).
  pose proof (shl_align_value m e e0) as Hv.
  destruct (shl_align_spec m e e0) as [Hs Hmz].
  destruct (shl_align m e e0) as [mz ez]. cbn [fst snd] in *.
  exists mz, ez. split; [reflexivity |].
  apply (represents_ext (F2Q (Zpos mz) ez)); [exact Hv |].
  apply represents_exact; [lia |].
  assert (Hd : Zdigits2 (Zpos mz) + ez = Zdigits2 (Zpos m) + e).
  { apply Z.le_antisymm; apply magnitude_le; try lia; rewrite Hv; apply Qle_refl. }
  rewrite Hd. change (Zdigits2 (Zpos m)) with (Zpos (digits2_pos m)). fold e0. lia.
Qed.

Lemma new_location_exact (n r : Z) : r = 0 -> new_location n r = loc_Exact.
Proof.
  intros ->. unfold new_location, new_location_even, new_location_odd.
  destruct (Z.even n); reflexivity.
Qed.

Lemma new_location_low (n r : Z) :
  2 * r < n -> new_location n r = loc_Exact \/ new_location n r = loc_Inexact Lt.
Proof.
  intros Hlt. unfold new_location, new_location_even, new_location_odd.
  destruct (Z.even n), (Z.eqb_spec r 0); try (now left); right.
  - now rewrite (proj2 (Z.compare_lt_iff (2 * r) n)).
  - destruct (Z.compare_spec (2 * r + 1) n); try reflexivity. lia.
Qed.

(** The exact quotient of two doubles, as the division rounds it. *)
Lemma div_represents (mx my : positive) (ex ey : Z) :
  bounded prec emax mx ex = true -> bounded prec emax my ey = true ->
  exists q e' l,
    SFdiv_core_binary prec emax (Zpos mx) ex (Zpos my) ey = (q, e', l) /\
    represents (F2Q (Zpos mx) ex / F2Q (Zpos my) ey) q e' l.
Proof.
  intros Hbx Hby.
  destruct (bounded_digits mx ex Hbx) as (Hdx & Hex & Hcx).
  destruct (bounded_digits my ey Hby) as (Hdy & Hey & Hcy).
  unfold SFdiv_core_binary.
  set (d1 := Zdigits2 (Zpos mx)) in *. set (d2 := Zdigits2 (Zpos my)) in *.
  set (e' := Z.min (fexp prec emax (d1 + ex - (d2 + ey))) (ex - ey)).
  set (sh := ex - ey - e').
  assert (Hsh : 0 <= sh) by (subst sh e'; lia).
  set (m' := match sh with
             | 0 => Zpos mx
             | Zpos _ => Z.shiftl (Zpos mx) sh
             | Zneg _ => 0
             end).
  assert (Hm' : m' = Zpos mx * 2 ^ sh).
  { subst m'. destruct sh as [| p | p]; try lia.
    apply Z.shiftl_mul_pow2. lia. }
  assert (Hpw : 0 < 2 ^ sh) by (apply Z.pow_pos_nonneg; lia).
  pose proof (Z_div_mod m' (Zpos my) ltac:(lia)) as Hdiv.
  destruct (Z.div_eucl m' (Zpos my)) as [q r]. destruct Hdiv as [Hqr Hr].
  assert (Hq0 : 0 <= q) by nia.
  exists q, e', (new_location (Zpos my) r). split; [reflexivity |].
  set (X := F2Q (Zpos mx) ex). set (Y := F2Q (Zpos my) ey).
  assert (HY : (0 < Y)%Q) by apply F2Q_pos.
  assert (HYn : ~ (Y == 0)%Q) by (intros H; rewrite H in HY; now apply Qlt_irrefl in HY).
  (* comparisons of the quotient with grid points go through products *)
  assert (Hle : forall a g, g <= ex - ey -> a * Zpos my <= Zpos mx * 2 ^ (ex - ey - g) ->
                            (F2Q a g <= X / Y)%Q).
  { intros a g Hg Ha. apply Qle_shift_div_l; [exact HY |].
    subst X Y. rewrite F2Q_mul. apply F2Q_le_l; [lia |].
    replace (ex - (g + ey)) with (ex - ey - g) by lia. exact Ha. }
  assert (Hlt : forall a g, g <= ex - ey -> Zpos mx * 2 ^ (ex - ey - g) < a * Zpos my ->
                            (X / Y < F2Q a g)%Q).
  { intros a g Hg Ha. apply Qlt_shift_div_r; [exact HY |].
    subst X Y. rewrite F2Q_mul. apply F2Q_lt_r; [lia |].
    replace (ex - (g + ey)) with (ex - ey - g) by lia. exact Ha. }
  assert (Hge : forall a g, g <= ex - ey -> (X / Y <= F2Q a g)%Q ->
                            Zpos mx * 2 ^ (ex - ey - g) <= a * Zpos my).
  { intros a g Hg Ha.
    apply Qmult_le_compat_r with (z := Y) in Ha; [| now apply Qlt_le_weak].
    assert (Hxy : (X / Y * Y == X)%Q) by (field; exact HYn).
    rewrite Hxy in Ha. subst X Y. rewrite F2Q_mul in Ha.
    apply F2Q_le_r in Ha; [| lia].
    replace (ex - (g + ey)) with (ex - ey - g) in Ha by lia. exact Ha. }
  assert (Hgt : forall a g, g <= ex - ey -> (X / Y < F2Q a g)%Q ->
                            Zpos mx * 2 ^ (ex - ey - g) < a * Zpos my).
  { intros a g Hg Ha.
    apply Qmult_lt_compat_r with (z := Y) in Ha; [| exact HY].
    assert (Hxy : (X / Y * Y == X)%Q) by (field; exact HYn).
    rewrite Hxy in Ha. subst X Y. rewrite F2Q_mul in Ha.
    apply F2Q_lt_r in Ha; [| lia].
    replace (ex - (g + ey)) with (ex - ey - g) in Ha by lia. exact Ha. }
  assert (He'le : e' <= ex - ey) by (subst e'; lia).
  fold sh in Hle, Hlt, Hge, Hgt.
  repeat split.
  - exact Hq0.
  - apply Hle; [exact He'le |]. fold sh. nia.
  - apply Hlt; [exact He'le |]. fold sh. nia.
  - intros Heq. apply new_location_exact.
    assert (H1 : (X / Y <= F2Q q e')%Q) by (rewrite Heq; apply Qle_refl).
    apply Hge in H1; [| exact He'le]. fold sh in H1. nia.
  - intros Hmid. apply new_location_low.
    apply Hgt in Hmid; [| lia].
    replace (ex - ey - (e' - 1)) with (sh + 1) in Hmid by (subst sh; lia).
    rewrite Z.pow_add_r in Hmid by lia. change (2 ^ 1) with 2 in Hmid. nia.
  - (* the quotient carries enough digits *)
    destruct (Z.eq_dec q 0) as [-> | Hqn].
    + simpl Zdigits2. rewrite fexp_eq.
      assert (Hlt0 : Zpos mx * 2 ^ sh < Zpos my) by nia.
      pose proof (Zdigits2_bounds (Zpos mx) ltac:(lia)) as [Hx1 _]. fold d1 in Hx1.
      pose proof (Zdigits2_bounds (Zpos my) ltac:(lia)) as [_ Hy2]. fold d2 in Hy2.
      assert (Hp : 2 ^ (d1 - 1 + sh) < 2 ^ d2).
      { rewrite Z.pow_add_r by lia.
        assert (0 < 2 ^ (d1 - 1)) by (apply Z.pow_pos_nonneg; lia). nia. }
      apply Z.pow_lt_mono_r_iff in Hp; [| lia | lia].
      subst sh e'. rewrite fexp_eq in *. lia.
    + assert (Hqp : 0 < q) by lia.
      assert (Hmag : d1 + ex - (d2 + ey) <= Zdigits2 q + e').
      { pose proof (Zdigits2_bounds (Zpos mx) ltac:(lia)) as [Hx1 _]. fold d1 in Hx1.
        pose proof (Zdigits2_bounds (Zpos my) ltac:(lia)) as [_ Hy2]. fold d2 in Hy2.
        pose proof (Zdigits2_bounds q Hqp) as [_ Hq2].
        pose proof (Zdigits2_nonneg q) as Hqd.
        assert (Hp : 2 ^ (d1 - 1 + sh) < 2 ^ (Zdigits2 q + d2)).
        { rewrite !Z.pow_add_r by lia.
          assert (0 < 2 ^ (d1 - 1)) by (apply Z.pow_pos_nonneg; lia).
          assert (0 < 2 ^ d2) by (apply Z.pow_pos_nonneg; lia).
          assert (Hq1 : q + 1 <= 2 ^ Zdigits2 q) by lia.
          assert (Hm'lt : m' < (q + 1) * Zpos my) by nia.
          assert (Hup : (q + 1) * Zpos my < 2 ^ Zdigits2 q * 2 ^ d2) by nia.
          nia. }
        apply Z.pow_lt_mono_r_iff in Hp; [| lia | lia].
        subst sh. lia. }
      eapply Z.le_trans; [| apply fexp_mono; exact Hmag].
      subst e'. lia.
Qed.

End RoundingFacts.

(** ** Arithmetic and comparison of well-formed doubles *)

Module NumberLaws.

Import Number NumberFacts AudioEngineFacts Rounding RoundingFacts.

Lemma compare_pos (m1 m2 : positive) (e1 e2 : Z) :
  bounded prec emax m1 e1 = true -> bounded prec emax m2 e2 = true ->
  SFcompare (S754_finite false m1 e1) (S754_finite false m2 e2) =
  Some (F2Q (Zpos m1) e1 ?= F2Q (Zpos m2) e2)%Q.
Proof.
  intros Hb1 Hb2.
  apply bounded_canonical in Hb1, Hb2. destruct Hb1 as [Hc1 _], Hb2 as [Hc2 _].
  cbn [SFcompare]. f_equal.
  destruct (Z.compare_spec e1 e2) as [-> | Hlt | Hgt].
  - rewrite compare_cont_Eq.
    destruct (Pos.compare_spec m1 m2) as [-> | H | H]; symmetry.
    + apply Qeq_alt. reflexivity.
    + apply Qlt_alt. apply F2Q_lt_same. lia.
    + apply Qgt_alt. apply F2Q_lt_same. lia.
  - symmetry. apply Qlt_alt. apply Qnot_le_lt. intros Hle.
    pose proof (canonical_exponent_mono (Zpos m2) (Zpos m1) e2 e1
                  ltac:(lia) ltac:(lia) Hc2 Hc1 Hle). lia.
  - symmetry. apply Qgt_alt. apply Qnot_le_lt. intros Hle.
    pose proof (canonical_exponent_mono (Zpos m1) (Zpos m2) e1 e2
                  ltac:(lia) ltac:(lia) Hc1 Hc2 Hle). lia.
Qed.

Lemma leb_pos (m1 m2 : positive) (e1 e2 : Z) :
  bounded prec emax m1 e1 = true -> bounded prec emax m2 e2 = true ->
  (leb (S754_finite false m1 e1) (S754_finite false m2 e2) = true <->
   (F2Q (Zpos m1) e1 <= F2Q (Zpos m2) e2)%Q).
Proof.
  intros Hb1 Hb2. unfold leb, SFleb. rewrite compare_pos by assumption.
  destruct (F2Q (Zpos m1) e1 ?= F2Q (Zpos m2) e2)%Q eqn:Hc.
  - apply Qeq_alt in Hc. split; [intros _; rewrite Hc; apply Qle_refl | reflexivity].
  - apply Qlt_alt in Hc. split; [intros _; now apply Qlt_le_weak | reflexivity].
  - apply Qgt_alt in Hc. split; [discriminate |].
    intros Hle. exfalso. apply (Qlt_irrefl (F2Q (Zpos m1) e1)).
    eapply Qle_lt_trans; eassumption.
Qed.

Lemma ltb_pos (m1 m2 : positive) (e1 e2 : Z) :
  bounded prec emax m1 e1 = true -> bounded prec emax m2 e2 = true ->
  (ltb (S754_finite false m1 e1) (S754_finite false m2 e2) = true <->
   (F2Q (Zpos m1) e1 < F2Q (Zpos m2) e2)%Q).
Proof.
  intros Hb1 Hb2. unfold ltb, SFltb. rewrite compare_pos by assumption.
  destruct (F2Q (Zpos m1) e1 ?= F2Q (Zpos m2) e2)%Q eqn:Hc.
  - apply Qeq_alt in Hc. split; [discriminate |].
    intros Hlt. rewrite Hc in Hlt. now apply Qlt_irrefl in Hlt.
  - apply Qlt_alt in Hc. split; [intros _; assumption | reflexivity].
  - apply Qgt_alt in Hc. split; [discriminate |].
    intros Hlt. exfalso. apply (Qlt_irrefl (F2Q (Zpos m1) e1)).
    eapply Qlt_trans; eassumption.
Qed.

(** *** The operations return well-formed doubles *)

Lemma mul_well_formed (x y : Number.t) :
  well_formed x = true -> well_formed y = true -> well_formed (mul x y) = true.
Proof.
  intros Hx Hy.
  destruct x as [sx | sx | | sx mx ex], y as [sy | sy | | sy my ey]; try reflexivity.
  rewrite mul_finite.
  apply (round_valid _ _ _ _ _ (mul_represents mx my ex ey Hx Hy)).
Qed.

Lemma div_well_formed (x y : Number.t) :
  well_formed x = true -> well_formed y = true -> well_formed (div x y) = true.
Proof.
  intros Hx Hy.
  destruct x as [sx | sx | | sx mx ex], y as [sy | sy | | sy my ey]; try reflexivity.
  unfold div, SFdiv.
  destruct (div_represents mx my ex ey Hx Hy) as (q & e' & l & -> & Hrep).
  apply (round_valid _ _ _ _ _ Hrep).
Qed.

Lemma binary_normalize_well_formed (z e : Z) (s : bool) :
  well_formed (binary_normalize prec emax z e s) = true.
Proof.
  destruct z as [| p | p]; [reflexivity | |]; cbn [binary_normalize].
  - destruct (binary_round_represents false p e) as (mz & ez & -> & Hrep).
    apply (round_valid _ _ _ _ _ Hrep).
  - destruct (binary_round_represents true p e) as (mz & ez & -> & Hrep).
    apply (round_valid _ _ _ _ _ Hrep).
Qed.

End NumberLaws.

(** ** Integers among the doubles, and how they print *)

Module BuiltinFacts.

Import Number NumberFacts AudioEngineFacts Rounding RoundingFacts NumberLaws Builtins.

Lemma F2Q_int (z : Z) : (F2Q z 0 == inject_Z z)%Q.
Proof. unfold F2Q. simpl. ring. Qed.

Lemma F2Q_inj (a b e : Z) : (F2Q a e == F2Q b e)%Q -> a = b.
Proof.
  intros H. apply Z.le_antisymm; apply (F2Q_le_same _ _ e); rewrite H; apply Qle_refl.
Qed.

Lemma F2Q_int_nonneg (z e : Z) : 0 <= e -> (F2Q z e == inject_Z (z * 2 ^ e))%Q.
Proof.
  intros He. rewrite <- F2Q_int, (F2Q_shift z 0 e He). reflexivity.
Qed.

(** An integer of at most 53 bits, scaled by a power of two in range, is
    a double. *)
Lemma representable (z e : Z) :
  0 < z -> Zdigits2 z <= 53 -> -1074 <= e -> e + Zdigits2 z <= 1024 ->
  exists mw ew,
    bounded prec emax mw ew = true /\ (F2Q (Zpos mw) ew == F2Q z e)%Q.
Proof.
  intros Hz Hd He Hmax.
  set (d := Zdigits2 z) in *.
  set (k := Z.min (53 - d) (e + 1074)).
  assert (Hk : 0 <= k) by (unfold k; lia).
  pose proof (Zdigits2_bounds z Hz) as Hb. fold d in Hb.
  assert (Hd1 : 1 <= d).
  { destruct (Z.lt_ge_cases 0 d) as [|Hle]; [lia |].
    pose proof (Zdigits2_nonneg z). assert (d = 0) by (unfold d in *; lia).
    rewrite H0 in Hb. simpl in Hb. lia. }
  assert (Hp : 0 < 2 ^ k) by (apply Z.pow_pos_nonneg; lia).
  assert (Hzk : 0 < z * 2 ^ k) by (apply Z.mul_pos_pos; lia).
  assert (Hdig : Zdigits2 (z * 2 ^ k) = d + k).
  { apply Zdigits2_unique; [| exact Hzk].
    replace (d + k - 1) with (d - 1 + k) by lia.
    rewrite !Z.pow_add_r by lia. nia. }
  exists (Z.to_pos (z * 2 ^ k)), (e - k). split.
  - apply bounded_canonical. rewrite Z2Pos.id by exact Hzk.
    rewrite Hdig, fexp_eq. unfold k, emax, prec. lia.
  - rewrite Z2Pos.id by exact Hzk. rewrite (F2Q_shift z (e - k) k Hk). now replace (e - k + k) with e by lia.
Qed.

Lemma of_Z_pos (n : Z) :
  0 < n < 2 ^ 53 ->
  exists m e,
    of_Z n = S754_finite false m e /\ bounded prec emax m e = true /\
    (F2Q (Zpos m) e == inject_Z n)%Q.
Proof.
  intros [Hn Hlt]. destruct n as [| p | p]; try lia.
  unfold of_Z. cbn [binary_normalize].
  destruct (binary_round_represents false p 0) as (mz & ez & -> & Hrep).
  assert (Hd : Zdigits2 (Zpos p) <= 53).
  { pose proof (Zdigits2_bounds (Zpos p) Hn) as [Hlo _].
    destruct (Z.le_gt_cases (Zdigits2 (Zpos p)) 53) as [|Hgt]; [assumption |].
    assert (2 ^ 53 <= 2 ^ (Zdigits2 (Zpos p) - 1)) by (apply Z.pow_le_mono_r; lia).
    lia. }
  pose proof (Zdigits2_nonneg (Zpos p)).
  destruct (representable (Zpos p) 0 Hn Hd ltac:(lia) ltac:(lia)) as (mw & ew & Hb & Hv).
  exists mw, ew. split; [| split].
  - apply (round_exact _ _ _ _ _ _ _ Hrep Hb). now symmetry.
  - exact Hb.
  - rewrite Hv. apply F2Q_int.
Qed.

Lemma safe_integer_value (s : bool) (m : positive) (e k : Z) :
  0 < k < 2 ^ 53 -> (F2Q (Zpos m) e == inject_Z k)%Q ->
  safe_integer (S754_finite s m e) = Some (cond_Zopp s k).
Proof.
  intros Hk Hv. unfold safe_integer. cbv zeta.
  destruct (Z.le_gt_cases 0 e) as [He | He].
  - rewrite (F2Q_int_nonneg _ _ He) in Hv.
    assert (Hk' : k = Zpos m * 2 ^ e).
    { apply (F2Q_inj _ _ 0). rewrite !F2Q_int. now symmetry. }
    rewrite (Z.shiftl_mul_pow2 (Zpos m) e) by lia. rewrite <- Hk'.
    assert (Hback : Z.shiftl k (- e) = Zpos m).
    { destruct (Z.eq_dec e 0) as [-> | Hne].
      - simpl. rewrite Hk'. simpl. lia.
      - rewrite Z.shiftl_div_pow2 by lia. rewrite Z.opp_involutive, Hk'.
        apply Z.div_mul. apply Z.pow_nonzero; lia. }
    rewrite Hback, Z.eqb_refl. cbn [andb].
    destruct (Z.ltb_spec k (2 ^ 53)); [reflexivity | lia].
  - assert (Hm : Zpos m = k * 2 ^ (- e)).
    { apply (F2Q_inj _ _ e). rewrite Hv, (F2Q_shift k e (- e)) by lia.
      replace (e + - e) with 0 by lia. now rewrite F2Q_int. }
    assert (Hp : 0 < 2 ^ (- e)) by (apply Z.pow_pos_nonneg; lia).
    rewrite (Z.shiftl_div_pow2 (Zpos m) e) by lia.
    assert (Hq : Zpos m / 2 ^ (- e) = k) by (rewrite Hm; apply Z.div_mul; lia).
    rewrite !Hq.
    rewrite (Z.shiftl_mul_pow2 k (- e)) by lia. rewrite <- Hm, Z.eqb_refl. cbn [andb].
    destruct (Z.ltb_spec k (2 ^ 53)); [reflexivity | lia].
Qed.

Section Printing.

Variable shortest_digits : Number.t -> string.

Lemma ToString_value (m : positive) (e k : Z) :
  0 < k < 2 ^ 53 -> (F2Q (Zpos m) e == inject_Z k)%Q ->
  ToString shortest_digits (S754_finite false m e) = decimal k.
Proof.
  intros Hk Hv. unfold ToString.
  now rewrite (safe_integer_value false m e k Hk Hv).
Qed.

Lemma ToString_of_Z (n : Z) :
  0 <= n < 2 ^ 53 -> ToString shortest_digits (of_Z n) = decimal n.
Proof.
  intros [Hn Hlt]. destruct (Z.eq_dec n 0) as [-> | Hne]; [reflexivity |].
  destruct (of_Z_pos n ltac:(lia)) as (m & e & -> & _ & Hv).
  apply ToString_value; [lia | exact Hv].
Qed.

End Printing.

(** *** Integer parts *)

Lemma Qfloor_unique (x : Q) (n : Z) :
  (inject_Z n <= x)%Q -> (x < inject_Z (n + 1))%Q -> Qfloor x = n.
Proof.
  intros Hlo Hhi.
  pose proof (Qfloor_le x) as H1. pose proof (Qlt_floor x) as H2.
  assert (n < Qfloor x + 1).
  { rewrite Zlt_Qlt. eapply Qle_lt_trans; eassumption. }
  assert (Qfloor x < n + 1).
  { rewrite Zlt_Qlt. eapply Qle_lt_trans; eassumption. }
  lia.
Qed.

Lemma F2Q_floor (z e : Z) :
  e <= 0 -> Qfloor (F2Q z e) = z / 2 ^ (- e).
Proof.
  intros He.
  assert (Hp : 0 < 2 ^ (- e)) by (apply Z.pow_pos_nonneg; lia).
  assert (Hint : forall n, (inject_Z n == F2Q (n * 2 ^ (- e)) e)%Q).
  { intros n. rewrite (F2Q_shift n e (- e)) by lia.
    replace (e + - e) with 0 by lia. now rewrite F2Q_int. }
  pose proof (Z.mul_div_le z (2 ^ (- e)) Hp).
  pose proof (Z.mul_succ_div_gt z (2 ^ (- e)) Hp).
  apply Qfloor_unique.
  - rewrite Hint. apply F2Q_le_same. lia.
  - rewrite Hint. apply F2Q_lt_same. lia.
Qed.

Lemma floor_value (m : positive) (e : Z) :
  e <= 0 -> floor (S754_finite false m e) = Qfloor (F2Q (Zpos m) e).
Proof.
  intros He. rewrite F2Q_floor by exact He. unfold floor. cbn [cond_Zopp].
  destruct (Z.eq_dec e 0) as [-> | Hne].
  - simpl. now rewrite Z.div_1_r.
  - now rewrite Z.shiftl_div_pow2 by lia.
Qed.

Section Printing.

Variable shortest_digits : Number.t -> string.

(** [Math.floor] of a positive double, printed: the digits of its
    integer part. *)
Lemma floor_string (m : positive) (e : Z) :
  Qfloor (F2Q (Zpos m) e) < 2 ^ 53 ->
  ToString shortest_digits (Math_floor (S754_finite false m e)) =
  decimal (Qfloor (F2Q (Zpos m) e)).
Proof.
  intros Hlt. unfold Math_floor.
  destruct (Z.leb_spec 0 e) as [He | He].
  - pose proof (F2Q_int_nonneg (Zpos m) e He) as Hv.
    assert (Hf : Qfloor (F2Q (Zpos m) e) = Zpos m * 2 ^ e).
    { rewrite (Qfloor_comp _ _ Hv). apply Qfloor_Z. }
    rewrite Hf in *.
    assert (0 < 2 ^ e) by (apply Z.pow_pos_nonneg; lia).
    apply ToString_value; [nia | exact Hv].
  - rewrite floor_value by lia.
    change (binary_normalize prec emax ?z 0 false) with (of_Z z).
    apply ToString_of_Z. split; [| exact Hlt].
    rewrite F2Q_floor by lia. apply Z.div_pos; [lia |].
    apply Z.pow_pos_nonneg; lia.
Qed.

End Printing.

(** *** Values between zero and one *)

Lemma one_value : (F2Q 4503599627370496 (-52) == 1)%Q.
Proof. reflexivity. Qed.

Lemma unit_cases (y : Number.t) :
  well_formed y = true ->
  leb (of_Z 0) y = true -> leb y (of_Z 1) = true ->
  (exists s, y = S754_zero s) \/
  exists m e, y = S754_finite false m e /\ bounded prec emax m e = true /\
              (F2Q (Zpos m) e <= 1)%Q.
Proof.
  intros Hw Hlo Hhi.
  destruct y as [s | [|] | | [|] m e]; try discriminate.
  - left. now exists s.
  - right. exists m, e. split; [reflexivity | split; [exact Hw |]].
    change (of_Z 1) with (S754_finite false 4503599627370496 (-52)) in Hhi.
    apply leb_pos in Hhi; [| exact Hw | reflexivity].
    now rewrite one_value in Hhi.
Qed.

Lemma Math_max_cases (a b : Number.t) :
  Math_max a b = a \/ Math_max a b = b \/ Math_max a b = NaN.
Proof.
  unfold Math_max.
  destruct a as [[|] | | |], b as [| | |]; auto;
    destruct (ltb _ _); auto; destruct (ltb _ _); auto.
Qed.

Lemma Math_min_cases (a b : Number.t) :
  Math_min a b = a \/ Math_min a b = b \/ Math_min a b = NaN.
Proof.
  unfold Math_min.
  destruct a as [[|] | | |], b as [| | |]; auto;
    destruct (ltb _ _); auto; destruct (ltb _ _); auto.
Qed.

Lemma Math_max_well_formed (a b : Number.t) :
  well_formed a = true -> well_formed b = true -> well_formed (Math_max a b) = true.
Proof.
  intros Ha Hb. destruct (Math_max_cases a b) as [-> | [-> | ->]]; auto.
Qed.

Lemma Math_min_well_formed (a b : Number.t) :
  well_formed a = true -> well_formed b = true -> well_formed (Math_min a b) = true.
Proof.
  intros Ha Hb. destruct (Math_min_cases a b) as [-> | [-> | ->]]; auto.
Qed.

Lemma sub_well_formed (x y : Number.t) :
  well_formed x = true -> well_formed y = true -> well_formed (sub x y) = true.
Proof.
  intros Hx Hy. unfold sub, SFsub.
  destruct x as [sx | sx | | sx mx ex], y as [sy | sy | | sy my ey];
    try reflexivity; try assumption;
    try (destruct sx, sy; reflexivity).
  apply binary_normalize_well_formed.
Qed.

(** The product of a factor of at most one and a positive double is at
    most that double. *)
Lemma mul_fraction (m md : positive) (e ed : Z) :
  bounded prec emax m e = true -> bounded prec emax md ed = true ->
  (F2Q (Zpos m) e <= 1)%Q ->
  let c := mul (S754_finite false m e) (S754_finite false md ed) in
  well_formed c = true /\
  leb (of_Z 0) c = true /\ leb c (S754_finite false md ed) = true.
Proof.
  intros Hb Hbd Hle c.
  pose proof (mul_represents m md e ed Hb Hbd) as Hrep.
  assert (HV : (F2Q (Zpos m) e * F2Q (Zpos md) ed <= F2Q (Zpos md) ed)%Q).
  { pose proof (F2Q_pos md ed). nra. }
  split; [apply (round_valid false _ _ _ _ Hrep) |].
  unfold c. rewrite mul_finite. cbn [xorb].
  destruct (round_le false _ _ _ _ md ed Hrep Hbd HV) as [-> | (m1 & e1 & -> & Hb1 & Hle1)].
  - split; reflexivity.
  - split; [reflexivity |]. now apply leb_pos.
Qed.

End BuiltinFacts.

(** ** The progress bar *)

Module ProgressFacts.

Import Number NumberFacts AudioEngine AudioEngineFacts Rounding RoundingFacts.
Import NumberLaws Builtins BuiltinFacts PlayerUI JSString.

Lemma inject_Z_F2Q (n e : Z) : e <= 0 -> (inject_Z n == F2Q (n * 2 ^ (- e)) e)%Q.
Proof.
  intros He. rewrite (F2Q_shift n e (- e)) by lia.
  replace (e + - e) with 0 by lia. now rewrite F2Q_int.
Qed.

(** *** Clicking on the progress track *)

Lemma click_clamp (p : Number.t) :
  isNaN p = false -> well_formed p = true ->
  let y := Math_max (of_Z 0) (Math_min (of_Z 1) p) in
  well_formed y = true /\ leb (of_Z 0) y = true /\ leb y (of_Z 1) = true.
Proof.
  intros Hn Hw y. split.
  { apply Math_max_well_formed; [reflexivity |].
    apply Math_min_well_formed; [reflexivity | exact Hw]. }
  subst y. set (z := Math_min (of_Z 1) p).
  assert (Hz : z = of_Z 1 \/ (z = p /\ ltb p (of_Z 1) = true)).
  { subst z. unfold Math_min.
    change (of_Z 1) with (S754_finite false 4503599627370496 (-52)).
    destruct p as [sp | sp | | sp mp ep]; try discriminate;
      match goal with
      | |- context [if ltb ?a ?b then _ else _] =>
          destruct (ltb a b) eqn:H1; [now left |];
          destruct (ltb b a) eqn:H2; [right; now split | now left]
      end. }
  assert (Hzn : isNaN z = false) by (destruct Hz as [-> | [-> _]]; [reflexivity | assumption]).
  assert (Hz1 : leb z (of_Z 1) = true).
  { destruct Hz as [-> | [-> Hlt]]; [reflexivity | now apply ltb_leb]. }
  assert (Hy : Math_max (of_Z 0) z = of_Z 0 \/
               (Math_max (of_Z 0) z = z /\ ltb (of_Z 0) z = true)).
  { unfold Math_max. change (of_Z 0) with (S754_zero false).
    destruct z as [sz | sz | | sz mz ez]; try discriminate;
      match goal with
      | |- context [if ltb ?a ?b then _ else _] =>
          destruct (ltb a b) eqn:H1; [right; now split | left];
          destruct (ltb b a); reflexivity
      end. }
  destruct Hy as [-> | [-> Hlt]].
  - split; reflexivity.
  - split; [now apply ltb_leb | assumption].
Qed.

Lemma between_finite (c : Number.t) (md : positive) (ed : Z) :
  leb (of_Z 0) c = true -> leb c (S754_finite false md ed) = true ->
  isFinite c = true.
Proof. destruct c as [s | [|] | | s m e]; try discriminate; reflexivity. Qed.

(** X10: a click on the progress track of a track of known, finite
    length never fails unless the fraction computed from the
    coordinates of the click and of the bar is not a number: it seeks to
    a position between the start and the end of the track and leaves
    the rest of the element alone.  When that fraction is [NaN] (a bar
    of width zero clicked at its left edge, for instance), the
    assignment of the position throws a [TypeError] and nothing is
    changed. *)
Theorem click_seeks_within_track (clientX : Number.t) (r : Rect) (a : Audio) :
  well_formed clientX = true -> well_formed (left r) = true ->
  well_formed (width r) = true -> well_formed (duration a) = true ->
  isFinite (duration a) = true -> ltb (of_Z 0) (duration a) = true ->
  let p := div (sub clientX (left r)) (width r) in
  (isNaN p = false ->
     exists a',
       progress_click clientX r a = Normal a' /\
       leb (of_Z 0) (currentTime a') = true /\
       leb (currentTime a') (duration a) = true /\
       src a' = src a /\ duration a' = duration a /\ paused a' = paused a) /\
  (isNaN p = true -> progress_click clientX r a = Throw "TypeError").
Proof.
  intros Hx Hl Hwd Hd Hfin Hpos p.
  assert (Hp : well_formed p = true).
  { apply div_well_formed; [apply sub_well_formed |]; assumption. }
  unfold progress_click. fold p.
  destruct a as [sr d c pa]. cbn [duration src paused] in *.
  unfold seekPercent, assign_currentTime. cbn [duration]. rewrite Hpos.
  destruct d as [sd | sd | | [|] md ed]; try discriminate.
  split.
  - intros Hn.
    destruct (click_clamp p Hn Hp) as (Hyw & Hy0 & Hy1).
    assert (Hc : leb (of_Z 0)
                   (mul (Math_max (of_Z 0) (Math_min (of_Z 1) p))
                      (S754_finite false md ed)) = true /\
                 leb (mul (Math_max (of_Z 0) (Math_min (of_Z 1) p))
                        (S754_finite false md ed))
                   (S754_finite false md ed) = true).
    { destruct (unit_cases _ Hyw Hy0 Hy1) as [[s ->] | (m & e & -> & Hb & Hle)].
      - destruct s; split; reflexivity.
      - destruct (mul_fraction m md e ed Hb Hd Hle) as (_ & H0 & H1).
        now split. }
    destruct Hc as [H0 H1].
    rewrite (between_finite _ md ed H0 H1).
    eexists. split; [reflexivity |].
    cbn [currentTime set_currentTime src duration paused]. now conjs.
  - intros Hn. destruct p as [| | |]; try discriminate. reflexivity.
Qed.

(** *** The percentage shown *)

Lemma or_else_well_formed (x y : Number.t) :
  well_formed x = true -> well_formed y = true -> well_formed (or_else x y) = true.
Proof. intros Hx Hy. unfold or_else. now destruct (ToBoolean x). Qed.

Lemma percent_unit (a : Audio) :
  well_formed (duration a) = true -> well_formed (currentTime a) = true ->
  isInfinite (currentTime a) && isInfinite (duration a) = false ->
  well_formed (percent (timeInfo a)) = true /\
  leb (of_Z 0) (percent (timeInfo a)) = true /\
  leb (percent (timeInfo a)) (of_Z 1) = true.
Proof.
  destruct a as [sr d c pa]. cbn [currentTime duration timeInfo percent].
  intros Hd Hc Hinf.
  destruct (ToBoolean d) eqn:Ht.
  - assert (Hd' : or_else d (of_Z 0) = d) by (unfold or_else; now rewrite Ht).
    rewrite Hd', Ht. split.
    + apply Math_min_well_formed; [reflexivity |].
      apply Math_max_well_formed; [reflexivity |].
      apply div_well_formed; [| exact Hd].
      now apply or_else_well_formed.
    + apply (clamp01_range (div (or_else c (of_Z 0)) d)).
      apply div_not_nan; try assumption.
      * unfold or_else. destruct c as [| | |]; reflexivity.
      * unfold or_else. destruct c as [| | |]; try reflexivity. exact Hinf.
  - assert (Hd' : ToBoolean (or_else d (of_Z 0)) = false)
      by (unfold or_else; now rewrite Ht).
    rewrite Hd'. repeat split.
Qed.

Section Display.

Variable shortest_digits : Number.t -> string.

Lemma round_string (m : positive) (e : Z) :
  (F2Q (Zpos m) e <= 100)%Q ->
  exists n, 0 <= n <= 100 /\
    ToString shortest_digits (Math_round (S754_finite false m e)) = decimal n.
Proof.
  intros Hle. unfold Math_round.
  destruct (Z.leb_spec 0 e) as [He | He].
  - exists (Zpos m * 2 ^ e).
    pose proof (F2Q_int_nonneg (Zpos m) e He) as Hv.
    assert (0 < 2 ^ e) by (apply Z.pow_pos_nonneg; lia).
    assert (Hn : Zpos m * 2 ^ e <= 100).
    { rewrite Hv in Hle. rewrite Zle_Qle. exact Hle. }
    split; [nia |]. apply ToString_value; [nia | exact Hv].
  - cbn [cond_Zopp].
    set (n := Z.shiftr (2 * Zpos m + 2 ^ (- e)) (1 - e)).
    change (binary_normalize prec emax n 0 false) with (of_Z n).
    assert (Hp : 0 < 2 ^ (- e)) by (apply Z.pow_pos_nonneg; lia).
    assert (Hp1 : 2 ^ (1 - e) = 2 * 2 ^ (- e)).
    { replace (1 - e) with (Z.succ (- e)) by lia. apply Z.pow_succ_r. lia. }
    assert (Hm : Zpos m <= 100 * 2 ^ (- e)).
    { apply (F2Q_le_same _ _ e). now rewrite <- inject_Z_F2Q by lia. }
    assert (Hn : 0 <= n <= 100).
    { unfold n. rewrite Z.shiftr_div_pow2 by lia. split.
      - apply Z.div_pos; lia.
      - apply Z.lt_succ_r. apply Z.div_lt_upper_bound; lia. }
    exists n. split; [exact Hn |]. apply ToString_of_Z. lia.
Qed.

Lemma round_percent (y : Number.t) :
  well_formed y = true -> leb (of_Z 0) y = true -> leb y (of_Z 1) = true ->
  exists n, 0 <= n <= 100 /\
    ToString shortest_digits (Math_round (mul y (of_Z 100))) = decimal n.
Proof.
  intros Hw H0 H1.
  destruct (unit_cases y Hw H0 H1) as [[s ->] | (m & e & -> & Hb & Hle)].
  - exists 0. split; [lia |]. now destruct s.
  - change (of_Z 100) with (S754_finite false 7036874417766400 (-46)).
    assert (Hb100 : bounded prec emax 7036874417766400 (-46) = true) by reflexivity.
    assert (H100 : (F2Q 7036874417766400 (-46) == 100)%Q) by reflexivity.
    pose proof (mul_represents m 7036874417766400 e (-46) Hb Hb100) as Hrep.
    assert (HV : (F2Q (Zpos m) e * F2Q 7036874417766400 (-46) <=
                  F2Q 7036874417766400 (-46))%Q).
    { rewrite H100. pose proof (F2Q_pos m e). nra. }
    rewrite mul_finite. cbn [xorb].
    destruct (round_le false _ _ _ _ _ _ Hrep Hb100 HV)
      as [-> | (m1 & e1 & -> & Hb1 & Hle1)].
    + exists 0. split; [lia | reflexivity].
    + apply round_string. now rewrite <- H100.
Qed.

(** X11: whatever the state of the audio element (short of an infinite
    position on a track of infinite length), the handler of [timeupdate]
    writes a whole number from 0 to 100 as the percentage: the width of
    the bar and the text for screen readers are its decimal digits
    followed by a percent sign, and [aria-valuenow] is its decimal
    digits. *)
Theorem percentage_is_whole_number (a : Audio) (v : View) :
  well_formed (duration a) = true -> well_formed (currentTime a) = true ->
  isInfinite (currentTime a) && isInfinite (duration a) = false ->
  exists n, 0 <= n <= 100 /\
    progressBar_width (on_timeupdate shortest_digits a v) = (decimal n ++ "%")%string /\
    progress_valuenow (on_timeupdate shortest_digits a v) = decimal n /\
    progressSr_text (on_timeupdate shortest_digits a v) = (decimal n ++ "%")%string.
Proof.
  intros Hd Hc Hinf.
  destruct (percent_unit a Hd Hc Hinf) as (Hw & H0 & H1).
  destruct (round_percent _ Hw H0 H1) as (n & Hn & Hs).
  exists n. split; [exact Hn |].
  unfold on_timeupdate, _updateProgress, _updatePlayState.
  cbn [progressBar_width progress_valuenow progressSr_text].
  rewrite Hs. repeat split.
Qed.

(** *** The end of the track *)

Lemma div_ge_one (mc md : positive) (ec ed : Z) :
  bounded prec emax mc ec = true -> bounded prec emax md ed = true ->
  (F2Q (Zpos md) ed <= F2Q (Zpos mc) ec)%Q ->
  div (S754_finite false mc ec) (S754_finite false md ed) = S754_infinity false \/
  exists m1 e1,
    div (S754_finite false mc ec) (S754_finite false md ed) = S754_finite false m1 e1 /\
    bounded prec emax m1 e1 = true /\ (1 <= F2Q (Zpos m1) e1)%Q.
Proof.
  intros Hc Hd Hle. unfold div, SFdiv. cbn [xorb].
  destruct (div_represents mc md ec ed Hc Hd) as (q & e' & l & -> & Hrep).
  assert (HV : (F2Q 4503599627370496 (-52) <= F2Q (Zpos mc) ec / F2Q (Zpos md) ed)%Q).
  { rewrite one_value. apply Qle_shift_div_l; [apply F2Q_pos |].
    now rewrite Qmult_1_l. }
  destruct (round_ge false _ _ _ _ 4503599627370496 (-52) Hrep eq_refl HV)
    as [-> | (m1 & e1 & -> & Hb1 & Hle1)].
  - now left.
  - right. exists m1, e1. split; [reflexivity | split; [exact Hb1 |]].
    now rewrite one_value in Hle1.
Qed.

Lemma clamp01_ge_one (y : Number.t) :
  (y = S754_infinity false \/
   exists m1 e1, y = S754_finite false m1 e1 /\ bounded prec emax m1 e1 = true /\
                 (1 <= F2Q (Zpos m1) e1)%Q) ->
  clamp01 y = of_Z 1.
Proof.
  intros [-> | (m1 & e1 & -> & Hb & Hle)]; [reflexivity |].
  unfold clamp01.
  assert (Hmax : Math_max (of_Z 0) (S754_finite false m1 e1) = S754_finite false m1 e1)
    by reflexivity.
  rewrite Hmax. unfold Math_min.
  change (of_Z 1) with (S754_finite false 4503599627370496 (-52)).
  destruct (ltb (S754_finite false 4503599627370496 (-52)) (S754_finite false m1 e1));
    [reflexivity |].
  destruct (ltb (S754_finite false m1 e1) (S754_finite false 4503599627370496 (-52)))
    eqn:Hlt; [| reflexivity].
  exfalso. apply ltb_pos in Hlt; [| exact Hb | reflexivity].
  rewrite one_value in Hlt. apply (Qlt_irrefl 1).
  eapply Qle_lt_trans; eassumption.
Qed.

(** X12: once the position has reached the length of the track (a
    finite length greater than zero), the fraction played is exactly 1
    and the bar reads 100%, however far beyond the end the position
    is. *)
Theorem finished_track_reads_100 (a : Audio) (v : View) :
  well_formed (duration a) = true -> well_formed (currentTime a) = true ->
  isFinite (duration a) = true -> ltb (of_Z 0) (duration a) = true ->
  leb (duration a) (currentTime a) = true ->
  percent (timeInfo a) = of_Z 1 /\
  progressBar_width (on_timeupdate shortest_digits a v) = "100%"%string /\
  progress_valuenow (on_timeupdate shortest_digits a v) = "100"%string /\
  progressSr_text (on_timeupdate shortest_digits a v) = "100%"%string.
Proof.
  intros Hd Hc Hfin Hpos Hle.
  assert (Hp : percent (timeInfo a) = of_Z 1).
  { destruct a as [sr d c pa]. cbn [duration currentTime] in *.
    destruct d as [sd | sd | | [|] md ed]; try discriminate.
    unfold timeInfo. cbn [percent duration currentTime or_else ToBoolean].
    destruct c as [sc | [|] | | [|] mc ec]; try discriminate.
    - reflexivity.
    - cbn [or_else ToBoolean].
      apply (clamp01_ge_one (div (S754_finite false mc ec) (S754_finite false md ed))).
      apply div_ge_one; try assumption. now apply leb_pos. }
  split; [exact Hp |].
  unfold on_timeupdate, _updateProgress, _updatePlayState.
  cbn [progressBar_width progress_valuenow progressSr_text].
  rewrite Hp. repeat split.
Qed.

End Display.

Lemma click_seeks_within_track_witness :
  (exists a',
     progress_click (of_Z 150) (mkRect (of_Z 100) (of_Z 200))
       (mkAudio "a.mp3" (of_Z 180) (of_Z 0) true) = Normal a' /\
     leb (of_Z 0) (currentTime a') = true /\
     leb (currentTime a') (of_Z 180) = true) /\
  progress_click (of_Z 100) (mkRect (of_Z 100) (of_Z 0))
    (mkAudio "a.mp3" (of_Z 180) (of_Z 0) true) = Throw "TypeError".
Proof.
  split.
  - destruct (click_seeks_within_track (of_Z 150) (mkRect (of_Z 100) (of_Z 200))
                (mkAudio "a.mp3" (of_Z 180) (of_Z 0) true)
                eq_refl eq_refl eq_refl eq_refl eq_refl eq_refl) as (H & _).
    destruct (H eq_refl) as (a' & Ha & H0 & H1 & _).
    exists a'. split; [exact Ha |]. split; [exact H0 | exact H1].
  - apply (click_seeks_within_track (of_Z 100) (mkRect (of_Z 100) (of_Z 0))
             (mkAudio "a.mp3" (of_Z 180) (of_Z 0) true)
             eq_refl eq_refl eq_refl eq_refl eq_refl eq_refl).
    reflexivity.
Defined.

Lemma percentage_is_whole_number_witness :
  exists n, 0 <= n <= 100 /\
    progressBar_width
      (on_timeupdate (fun _ => EmptyString)
         (mkAudio "a.mp3" (of_Z 200) (of_Z 61) false)
         (mkView "" "" "" "" "" "")) = (decimal n ++ "%")%string /\
    progress_valuenow
      (on_timeupdate (fun _ => EmptyString)
         (mkAudio "a.mp3" (of_Z 200) (of_Z 61) false)
         (mkView "" "" "" "" "" "")) = decimal n /\
    progressSr_text
      (on_timeupdate (fun _ => EmptyString)
         (mkAudio "a.mp3" (of_Z 200) (of_Z 61) false)
         (mkView "" "" "" "" "" "")) = (decimal n ++ "%")%string.
Proof.
  apply (percentage_is_whole_number (fun _ => EmptyString)
           (mkAudio "a.mp3" (of_Z 200) (of_Z 61) false)); reflexivity.
Defined.

Lemma finished_track_reads_100_witness :
  percent (timeInfo (mkAudio "a.mp3" (of_Z 200) (of_Z 230) false)) = of_Z 1 /\
  progressBar_width
    (on_timeupdate (fun _ => EmptyString)
       (mkAudio "a.mp3" (of_Z 200) (of_Z 230) false)
       (mkView "" "" "" "" "" "")) = "100%"%string.
Proof.
  destruct (finished_track_reads_100 (fun _ => EmptyString)
              (mkAudio "a.mp3" (of_Z 200) (of_Z 230) false)
              (mkView "" "" "" "" "" "")
              eq_refl eq_refl eq_refl eq_refl eq_refl) as (H1 & H2 & _).
  split; [exact H1 | exact H2].
Defined.

End ProgressFacts.

(** ** The time read-out *)

Module TimeFacts.

Import Number NumberFacts AudioEngine AudioEngineFacts Rounding RoundingFacts.
Import NumberLaws Builtins BuiltinFacts PlayerUI ProgressFacts.

Lemma sixty_value : (F2Q 8444249301319680 (-47) == 60)%Q.
Proof. reflexivity. Qed.

Lemma pad_two (r : Z) :
  0 <= r < 60 -> padStart 2 "0" (decimal r) = two_digits r.
Proof.
  intros Hr. destruct r as [| p | p]; try lia; [reflexivity |].
  do 6 (try (destruct p as [p | p |]; try lia; try reflexivity)).
Qed.

(** Rounding an integer of at most 53 bits scaled by a power of two in
    range changes nothing. *)
Lemma binary_normalize_exact (z e : Z) :
  0 < z -> z < 2 ^ 53 -> -1074 <= e -> e <= 0 ->
  exists mw ew,
    binary_normalize prec emax z e false = S754_finite false mw ew /\
    bounded prec emax mw ew = true /\ (F2Q (Zpos mw) ew == F2Q z e)%Q.
Proof.
  intros Hz Hlt He He0. destruct z as [| p | p]; try lia.
  cbn [binary_normalize].
  destruct (binary_round_represents false p e) as (mz & ez & -> & Hrep).
  assert (Hd : Zdigits2 (Zpos p) <= 53).
  { pose proof (Zdigits2_bounds (Zpos p) Hz) as [Hlo _].
    destruct (Z.le_gt_cases (Zdigits2 (Zpos p)) 53) as [|Hgt]; [assumption |].
    assert (2 ^ 53 <= 2 ^ (Zdigits2 (Zpos p) - 1)) by (apply Z.pow_le_mono_r; lia).
    lia. }
  destruct (representable (Zpos p) e Hz Hd He ltac:(lia)) as (mw & ew & Hb & Hv).
  exists mw, ew. split; [| split; assumption].
  apply (round_exact _ _ _ _ _ _ _ Hrep Hb). now symmetry.
Qed.

Section Display.

Variable shortest_digits : Number.t -> string.

(** *** Seconds *)

Lemma seconds_field (m : positive) (e : Z) :
  bounded prec emax m e = true ->
  ToString shortest_digits (Math_floor (rem (S754_finite false m e) (of_Z 60))) =
  decimal (Qfloor (F2Q (Zpos m) e) mod 60).
Proof.
  intros Hb.
  destruct (bounded_digits m e Hb) as (Hdig & [He _] & _).
  change (of_Z 60) with (S754_finite false 8444249301319680 (-47)).
  unfold rem. cbv zeta. cbn [cond_Zopp].
  set (e0 := Z.min e (-47)).
  set (A := Zpos m * 2 ^ (e - e0)).
  set (B := 8444249301319680 * 2 ^ (-47 - e0)).
  set (P := 2 ^ (- e0)).
  assert (He0 : e0 <= -47) by (unfold e0; lia).
  assert (He0' : -1074 <= e0) by (unfold e0; lia).
  assert (HP : 0 < P) by (apply Z.pow_pos_nonneg; lia).
  assert (HB : B = P * 60).
  { unfold B, P. replace (- e0) with (47 + (-47 - e0)) by lia.
    rewrite Z.pow_add_r by lia. change (2 ^ 47) with 140737488355328. lia. }
  assert (HA0 : 0 < A).
  { unfold A. apply Z.mul_pos_pos; [lia |]. apply Z.pow_pos_nonneg; lia. }
  assert (HS : (F2Q (Zpos m) e == F2Q A e0)%Q).
  { unfold A. rewrite (F2Q_shift (Zpos m) e0 (e - e0)) by lia.
    now replace (e0 + (e - e0)) with e by lia. }
  assert (Hn : Qfloor (F2Q (Zpos m) e) = A / P).
  { rewrite (Qfloor_comp _ _ HS). apply F2Q_floor. lia. }
  assert (Hmod : (A mod B) / P = (A / P) mod 60).
  { rewrite HB, Z.rem_mul_r by lia.
    rewrite (Z.mul_comm P), Z.div_add by lia.
    rewrite Z.div_small by (apply Z.mod_pos_bound; lia). lia. }
  assert (Hr : 0 <= A mod B < B) by (apply Z.mod_pos_bound; lia).
  assert (Hr53 : A mod B < 2 ^ 53).
  { destruct (Z.le_gt_cases e (-47)) as [Hle | Hgt].
    - assert (HAm : A = Zpos m).
      { unfold A, e0. rewrite Z.min_l by lia. rewrite Z.sub_diag. simpl. lia. }
      pose proof (Zdigits2_bounds (Zpos m) ltac:(lia)) as [_ Hm].
      assert (2 ^ Zdigits2 (Zpos m) <= 2 ^ 53) by (apply Z.pow_le_mono_r; lia).
      assert (A mod B <= A) by (apply Z.mod_le; lia).
      lia.
    - assert (HB0 : B = 8444249301319680).
      { unfold B, e0. rewrite Z.min_r by lia. simpl. lia. }
      change (2 ^ 53) with 9007199254740992. lia. }
  rewrite Hn, <- Hmod.
  destruct (Z.eq_dec (A mod B) 0) as [Hz | Hnz].
  - rewrite Hz. reflexivity.
  - destruct (binary_normalize_exact (A mod B) e0 ltac:(lia) Hr53 He0' ltac:(lia))
      as (mw & ew & -> & Hbw & Hv).
    assert (Hf : Qfloor (F2Q (Zpos mw) ew) = A mod B / P).
    { rewrite (Qfloor_comp _ _ Hv). apply F2Q_floor. lia. }
    rewrite <- Hf. apply floor_string. rewrite Hf.
    assert (A mod B / P <= A mod B).
    { apply Z.div_le_upper_bound; [lia |]. nia. }
    lia.
Qed.

(** *** Minutes *)

Lemma normal_mantissa (mk : positive) (ek : Z) :
  bounded prec emax mk ek = true -> (1 <= F2Q (Zpos mk) ek)%Q ->
  2 ^ 52 <= Zpos mk.
Proof.
  intros Hb Hk.
  destruct (bounded_digits mk ek Hb) as (Hdig & _ & Hnorm).
  assert (Hmag : 1 <= Zdigits2 (Zpos mk) + ek).
  { change 1%Q with (F2Q 1 0) in Hk.
    apply (magnitude_le 1 (Zpos mk) 0 ek) in Hk; [| lia | lia].
    change (Zdigits2 1 + 0) with 1 in Hk. exact Hk. }
  destruct Hnorm as [-> | H53]; [lia |].
  pose proof (Zdigits2_bounds (Zpos mk) ltac:(lia)) as [Hlo _].
  now rewrite H53 in Hlo.
Qed.

Lemma below_2_53 (m : positive) (e : Z) :
  bounded prec emax m e = true -> (F2Q (Zpos m) e < inject_Z (2 ^ 53))%Q ->
  e <= 0.
Proof.
  intros Hb Hlt.
  destruct (Z.le_gt_cases e 0) as [| Hgt]; [assumption | exfalso].
  destruct (bounded_digits m e Hb) as (Hdig & _ & Hnorm).
  destruct Hnorm as [-> | H53]; [lia |].
  pose proof (Zdigits2_bounds (Zpos m) ltac:(lia)) as [Hlo _].
  rewrite H53 in Hlo.
  rewrite <- F2Q_int in Hlt. apply F2Q_lt_r in Hlt; [| lia].
  assert (2 ^ 1 <= 2 ^ (e - 0)) by (apply Z.pow_le_mono_r; lia).
  change (2 ^ (53 - 1)) with 4503599627370496 in Hlo.
  change (2 ^ 53) with 9007199254740992 in Hlt.
  change (2 ^ 1) with 2 in H. nia.
Qed.

(** The quotient by sixty stays clear of the midpoint below the next
    whole number, so that rounding it cannot reach that number. *)
Lemma margin (m mk : positive) (e ek k : Z) :
  bounded prec emax m e = true -> bounded prec emax mk ek = true ->
  (F2Q (Zpos mk) ek == inject_Z k)%Q -> 1 <= k ->
  (F2Q (Zpos m) e < inject_Z (2 ^ 53))%Q ->
  (F2Q (Zpos m) e < inject_Z (60 * k))%Q ->
  (F2Q (Zpos m) e < F2Q (120 * Zpos mk - 60) (ek - 1))%Q.
Proof.
  intros Hb Hbk Hk Hk1 H53 Hlt.
  assert (Hmk : 2 ^ 52 <= Zpos mk).
  { apply (normal_mantissa mk ek Hbk). rewrite Hk.
    change 1%Q with (inject_Z 1). rewrite <- Zle_Qle. exact Hk1. }
  change (2 ^ 52) with 4503599627370496 in Hmk.
  pose proof (below_2_53 m e Hb H53) as He.
  destruct (bounded_digits m e Hb) as (Hdig & _ & _).
  pose proof (Zdigits2_bounds (Zpos m) ltac:(lia)) as [_ Hm].
  assert (Hm53 : Zpos m < 2 ^ 53).
  { eapply Z.lt_le_trans; [exact Hm |]. apply Z.pow_le_mono_r; lia. }
  change (2 ^ 53) with 9007199254740992 in Hm53.
  destruct (Z.le_gt_cases (ek + 5) e) as [HA | HB].
  - (* the operand is a multiple of 32 units of the quotient's last place *)
    assert (Hek : ek <= 0) by lia.
    assert (Hmkk : Zpos mk = k * 2 ^ (- ek)).
    { apply (F2Q_inj _ _ ek). rewrite Hk. apply inject_Z_F2Q. lia. }
    set (T := 2 ^ (e - ek)).
    assert (HT : 32 <= T).
    { unfold T. change 32 with (2 ^ 5). apply Z.pow_le_mono_r; lia. }
    assert (Hsplit : 2 ^ (- ek) = 2 ^ (- e) * T).
    { unfold T. rewrite <- Z.pow_add_r by lia. f_equal. lia. }
    assert (HmT : Zpos m * T < 60 * k * 2 ^ (- e) * T).
    { rewrite (inject_Z_F2Q (60 * k) ek Hek) in Hlt.
      apply F2Q_lt_r in Hlt; [| lia]. fold T in Hlt.
      rewrite Hsplit in Hlt. lia. }
    assert (Hp : 0 < 2 ^ (- e)) by (apply Z.pow_pos_nonneg; lia).
    assert (HmW : Zpos m + 1 <= 60 * k * 2 ^ (- e)) by nia.
    apply F2Q_lt_r; [lia |].
    replace (e - (ek - 1)) with (Z.succ (e - ek)) by lia.
    rewrite Z.pow_succ_r by lia. fold T.
    rewrite Hmkk, Hsplit. nia.
  - destruct (Z.le_gt_cases (ek - 1) e) as [Hge | Hlt'].
    + apply F2Q_lt_r; [lia |].
      assert (2 ^ (e - (ek - 1)) <= 2 ^ 5) by (apply Z.pow_le_mono_r; lia).
      assert (0 < 2 ^ (e - (ek - 1))) by (apply Z.pow_pos_nonneg; lia).
      change (2 ^ 5) with 32 in *. nia.
    + apply F2Q_lt_l; [lia |].
      assert (0 < 2 ^ (ek - 1 - e)) by (apply Z.pow_pos_nonneg; lia).
      nia.
Qed.

Lemma minutes_field (m : positive) (e : Z) :
  bounded prec emax m e = true ->
  (F2Q (Zpos m) e < inject_Z (2 ^ 53))%Q ->
  ToString shortest_digits (Math_floor (div (S754_finite false m e) (of_Z 60))) =
  decimal (Qfloor (F2Q (Zpos m) e) / 60).
Proof.
  intros Hb H53.
  set (S := F2Q (Zpos m) e) in *.
  set (n := Qfloor S).
  pose proof (Qfloor_le S) as Hn1. pose proof (Qlt_floor S) as Hn2. fold n in Hn1, Hn2.
  assert (HS0 : (0 < S)%Q) by apply F2Q_pos.
  assert (Hn0 : 0 <= n).
  { assert (0 < n + 1); [| lia]. rewrite Zlt_Qlt.
    eapply Qlt_trans; [exact HS0 | exact Hn2]. }
  assert (Hn53 : n < 2 ^ 53).
  { rewrite Zlt_Qlt. eapply Qle_lt_trans; eassumption. }
  change (2 ^ 53) with 9007199254740992 in Hn53.
  set (k0 := n / 60).
  assert (Hk0 : 60 * k0 <= n < 60 * (k0 + 1)).
  { unfold k0. pose proof (Z.mul_div_le n 60 ltac:(lia)).
    pose proof (Z.mul_succ_div_gt n 60 ltac:(lia)). lia. }
  assert (Hk00 : 0 <= k0) by (unfold k0; apply Z.div_pos; lia).
  assert (HSk : (S < inject_Z (60 * (k0 + 1)))%Q).
  { eapply Qlt_le_trans; [exact Hn2 |]. rewrite <- Zle_Qle. lia. }
  assert (HSk0 : (inject_Z (60 * k0) <= S)%Q).
  { eapply Qle_trans; [| exact Hn1]. rewrite <- Zle_Qle. lia. }
  assert (Hlow : (inject_Z k0 <= S / 60)%Q).
  { apply Qle_shift_div_l; [reflexivity |].
    change 60%Q with (inject_Z 60). rewrite <- inject_Z_mult.
    now rewrite Z.mul_comm. }
  change (of_Z 60) with (S754_finite false 8444249301319680 (-47)).
  unfold div, SFdiv. cbn [xorb].
  destruct (div_represents m 8444249301319680 e (-47) Hb eq_refl)
    as (q & e' & l & -> & Hrep).
  fold S in Hrep.
  apply (represents_ext _ (S / 60)%Q) in Hrep; [| now rewrite sixty_value].
  (* the quotient, rounded, is below the next whole number *)
  destruct (of_Z_pos (k0 + 1) ltac:(change (2 ^ 53) with 9007199254740992; lia))
    as (mk & ek & _ & Hbk & Hvk).
  assert (Hup : (S / 60 < F2Q (2 * Zpos mk - 1) (ek - 1))%Q).
  { apply Qlt_shift_div_r; [reflexivity |].
    assert (Hmul : (F2Q (2 * Zpos mk - 1) (ek - 1) * 60 ==
                    F2Q (120 * Zpos mk - 60) (ek - 1))%Q).
    { unfold F2Q. replace (120 * Zpos mk - 60) with ((2 * Zpos mk - 1) * 60) by lia.
      rewrite inject_Z_mult. simpl (inject_Z 60). ring. }
    rewrite Hmul.
    apply (margin m mk e ek (k0 + 1) Hb Hbk Hvk ltac:(lia) H53 HSk). }
  destruct (round_lt false _ _ _ _ mk ek Hrep Hbk Hup)
    as [Hres | (m1 & e1 & Hres & Hb1 & Hlt1)].
  - (* the quotient rounds to zero *)
    rewrite Hres.
    assert (Hz : k0 = 0).
    { destruct (Z.eq_dec k0 0) as [| Hne]; [assumption | exfalso].
      destruct (of_Z_pos k0 ltac:(change (2 ^ 53) with 9007199254740992; lia))
        as (ml & el & _ & Hbl & Hvl).
      assert (Hlo : (F2Q (Zpos ml) el <= S / 60)%Q) by (rewrite Hvl; exact Hlow).
      destruct (round_ge false _ _ _ _ ml el Hrep Hbl Hlo)
        as [Hinf | (m2 & e2 & Hfin & _)]; congruence. }
    rewrite Hz. reflexivity.
  - rewrite Hres.
    assert (Hfl : Qfloor (F2Q (Zpos m1) e1) = k0).
    { apply Qfloor_unique; [| now rewrite <- Hvk].
      destruct (Z.eq_dec k0 0) as [-> | Hne].
      - apply Qlt_le_weak. apply F2Q_pos.
      - destruct (of_Z_pos k0 ltac:(change (2 ^ 53) with 9007199254740992; lia))
          as (ml & el & _ & Hbl & Hvl).
        assert (Hlo : (F2Q (Zpos ml) el <= S / 60)%Q) by (rewrite Hvl; exact Hlow).
        destruct (round_ge false _ _ _ _ ml el Hrep Hbl Hlo)
          as [Hinf | (m2 & e2 & Hfin & _ & Hge)]; [congruence |].
        rewrite Hres in Hfin. injection Hfin as <- <-.
        now rewrite <- Hvl. }
    rewrite <- Hfl. apply floor_string. rewrite Hfl.
    change (2 ^ 53) with 9007199254740992. lia.
Qed.

Lemma fmt_finite (m : positive) (e : Z) :
  bounded prec emax m e = true ->
  ltb (S754_finite false m e) (of_Z 9007199254740992) = true ->
  _fmt shortest_digits (S754_finite false m e) = clock (Qfloor (F2Q (Zpos m) e)).
Proof.
  intros Hw H53. unfold _fmt, clock. cbv zeta.
  change (of_Z 9007199254740992) with (S754_finite false 4503599627370496 1) in H53.
  apply ltb_pos in H53; [| exact Hw | reflexivity].
  assert (Hlt : (F2Q (Zpos m) e < inject_Z (2 ^ 53))%Q).
  { eapply Qlt_le_trans; [exact H53 |]. now vm_compute. }
  rewrite (minutes_field m e Hw Hlt), (seconds_field m e Hw).
  rewrite pad_two; [reflexivity |].
  apply Z.mod_pos_bound. lia.
Qed.

(** X13: for a time that is a well-formed double from 0 up to (not
    including) 2^53 seconds, [_fmt] returns the whole minutes in
    decimal, a colon, and the remaining whole seconds as exactly two
    digits: neither the division by sixty nor the remainder ever rounds
    across a whole number. *)
Theorem fmt_minutes_and_seconds (sec : Number.t) :
  well_formed sec = true -> leb (of_Z 0) sec = true ->
  ltb sec (of_Z 9007199254740992) = true ->
  _fmt shortest_digits sec =
  (decimal (Qfloor (to_Q sec) / 60) ++ ":" ++
   two_digits (Qfloor (to_Q sec) mod 60))%string.
Proof.
  intros Hw H0 H53.
  destruct sec as [s | [|] | | [|] m e]; try discriminate.
  - (* a zero of either sign: both fields are zero *)
    destruct s; reflexivity.
  - (* a positive double: the two fields are computed without error *)
    cbn [to_Q cond_Zopp].
    exact (fmt_finite m e Hw H53).
Qed.

(** *** The read-out as a whole *)

Lemma append_empty_r (s : string) : (s ++ "")%string = s.
Proof. induction s as [| c s IH]; simpl; [reflexivity | now rewrite IH]. Qed.

Lemma fmt_position (c : Number.t) :
  well_formed c = true -> leb (of_Z 0) c = true ->
  ltb c (of_Z 9007199254740992) = true ->
  _fmt shortest_digits (or_else c (of_Z 0)) = clock (Qfloor (to_Q c)).
Proof.
  intros Hw H0 H53.
  destruct c as [s | [|] | | [|] m e]; try discriminate.
  - reflexivity.
  - now apply fmt_finite.
Qed.

(** X15: while the position is a well-formed double from 0 up to 2^53
    seconds, the time read-out written on [timeupdate] is the position
    as minutes and two-digit seconds; it is followed by [" / "] and the
    length in the same form when the length is a positive double below
    2^53, by nothing when the length is [NaN] or zero (no metadata
    yet), and by [" / Infinity:NaN"] when the length is infinite (a
    live stream). *)
Theorem time_read_out (a : Audio) (v : View) :
  well_formed (currentTime a) = true -> leb (of_Z 0) (currentTime a) = true ->
  ltb (currentTime a) (of_Z 9007199254740992) = true ->
  let position := clock (Qfloor (to_Q (currentTime a))) in
  let text := time_text (on_timeupdate shortest_digits a v) in
  (ToBoolean (duration a) = false -> text = position) /\
  (duration a = S754_infinity false ->
     text = (position ++ " / Infinity:NaN")%string) /\
  (well_formed (duration a) = true -> ltb (of_Z 0) (duration a) = true ->
   ltb (duration a) (of_Z 9007199254740992) = true ->
     text = (position ++ " / " ++ clock (Qfloor (to_Q (duration a))))%string).
Proof.
  intros Hw H0 H53 position text.
  pose proof (fmt_position _ Hw H0 H53) as Hc.
  destruct a as [sr d c pa]. cbn [currentTime duration] in *.
  subst text position.
  unfold on_timeupdate, _updateProgress, _updatePlayState, timeInfo.
  cbv zeta. cbn [time_text current total currentTime duration].
  rewrite Hc.
  split; [| split].
  - intros Ht.
    assert (Hd' : or_else d (of_Z 0) = of_Z 0) by (unfold or_else; now rewrite Ht).
    rewrite Hd'. cbn [ToBoolean]. apply append_empty_r.
  - intros ->. reflexivity.
  - intros Hdw Hd0 Hd53.
    assert (Ht : ToBoolean d = true).
    { destruct d as [| | |]; try discriminate; reflexivity. }
    assert (Hd' : or_else d (of_Z 0) = d) by (unfold or_else; now rewrite Ht).
    rewrite Hd', Ht. do 2 f_equal.
    destruct d as [| [|] | | [|] md ed]; try discriminate.
    now apply fmt_finite.
Qed.

End Display.

Lemma fmt_minutes_and_seconds_witness :
  _fmt (fun _ => EmptyString) (div (of_Z 251) (of_Z 2)) = "2:05"%string.
Proof.
  exact (fmt_minutes_and_seconds (fun _ => EmptyString) (div (of_Z 251) (of_Z 2))
           eq_refl eq_refl eq_refl).
Defined.

Lemma time_read_out_witness :
  time_text
    (on_timeupdate (fun _ => EmptyString)
       (mkAudio "a.mp3" NaN (of_Z 61) true) (mkView "" "" "" "" "" "")) =
    "1:01"%string /\
  time_text
    (on_timeupdate (fun _ => EmptyString)
       (mkAudio "live" (S754_infinity false) (of_Z 61) false)
       (mkView "" "" "" "" "" "")) = "1:01 / Infinity:NaN"%string /\
  time_text
    (on_timeupdate (fun _ => EmptyString)
       (mkAudio "a.mp3" (of_Z 200) (of_Z 61) false)
       (mkView "" "" "" "" "" "")) = "1:01 / 3:20"%string.
Proof.
  split; [| split].
  - apply (time_read_out (fun _ => EmptyString)
             (mkAudio "a.mp3" NaN (of_Z 61) true) (mkView "" "" "" "" "" "")
             eq_refl eq_refl eq_refl).
    reflexivity.
  - apply (time_read_out (fun _ => EmptyString)
             (mkAudio "live" (S754_infinity false) (of_Z 61) false)
             (mkView "" "" "" "" "" "") eq_refl eq_refl eq_refl).
    reflexivity.
  - apply (time_read_out (fun _ => EmptyString)
             (mkAudio "a.mp3" (of_Z 200) (of_Z 61) false)
             (mkView "" "" "" "" "" "") eq_refl eq_refl eq_refl);
      reflexivity.
Defined.

End TimeFacts.

(** ** Clicks beside the progress track *)

Module ClickFacts.

Import Number NumberFacts AudioEngine AudioEngineFacts Rounding RoundingFacts.
Import NumberLaws Builtins BuiltinFacts PlayerUI ProgressFacts JSString.

(** Rounding keeps the sign it is given. *)
Lemma round_sign (s : bool) (V : Q) (m e : Z) (l : location) :
  represents V m e l ->
  binary_round_aux prec emax s m e l = S754_zero s \/
  binary_round_aux prec emax s m e l = S754_infinity s \/
  exists m1 e1, binary_round_aux prec emax s m e l = S754_finite s m1 e1.
Proof.
  intros Hrep.
  destruct (round_sem s V m e l Hrep)
    as (m' & r & m1 & e1 & _ & _ & _ & _ & _ & _ & _ & _ & _ & _ & _ & _ & _ & ->).
  destruct m1 as [| p | p]; auto.
  destruct (e1 <=? emax - prec); eauto.
Qed.

Lemma F2Q_sub (a b e : Z) : (F2Q a e - F2Q b e == F2Q (a - b) e)%Q.
Proof. unfold F2Q, Z.sub. rewrite inject_Z_plus, inject_Z_opp. ring. Qed.

Lemma F2Q_cond_Zopp_shift (s : bool) (m e k : Z) :
  0 <= k -> (F2Q (cond_Zopp s (m * 2 ^ k)) e == F2Q (cond_Zopp s m) (e + k))%Q.
Proof.
  intros Hk. rewrite <- cond_Zopp_mul. now apply F2Q_shift.
Qed.

(** The difference of two finite doubles is the rounding of their exact
    difference. *)
Lemma sub_finite (sx sy : bool) (mx my : positive) (ex ey : Z) :
  exists z ez,
    sub (S754_finite sx mx ex) (S754_finite sy my ey) =
      binary_normalize prec emax z ez false /\
    (F2Q z ez == to_Q (S754_finite sx mx ex) - to_Q (S754_finite sy my ey))%Q.
Proof.
  unfold sub, SFsub. cbv zeta.
  change IntDef.Z.min with Z.min.
  set (ez := Z.min ex ey).
  destruct (shl_align_spec mx ex ez) as [_ Hx].
  destruct (shl_align_spec my ey ez) as [_ Hy].
  rewrite Hx, Hy.
  replace (Z.min ex ez) with ez by (unfold ez; lia).
  replace (Z.min ey ez) with ez by (unfold ez; lia).
  eexists _, ez. split; [reflexivity |].
  rewrite <- F2Q_sub. cbn [to_Q].
  rewrite !F2Q_cond_Zopp_shift by (unfold ez; lia).
  replace (ez + (ex - ez)) with ex by lia.
  replace (ez + (ey - ez)) with ey by lia.
  reflexivity.
Qed.

Lemma F2Q_neg (m : positive) (e : Z) : (F2Q (Zneg m) e < 0)%Q.
Proof.
  change (Zneg m) with (- Zpos m). rewrite F2Q_opp.
  pose proof (F2Q_pos m e). lra.
Qed.

Lemma F2Q_sign (z e : Z) : (0 < F2Q z e)%Q -> 0 < z.
Proof.
  intros H. destruct z as [| p | p]; [| lia |].
  - rewrite F2Q_zero in H. now apply Qlt_irrefl in H.
  - pose proof (F2Q_neg p e). lra.
Qed.

(** *** To the right of the track *)

Lemma sub_ge (x l : Number.t) (mw : positive) (ew : Z) :
  well_formed x = true -> well_formed l = true ->
  isFinite x = true -> isFinite l = true ->
  bounded prec emax mw ew = true ->
  (to_Q l + F2Q (Zpos mw) ew <= to_Q x)%Q ->
  sub x l = S754_infinity false \/
  exists m1 e1, sub x l = S754_finite false m1 e1 /\
    bounded prec emax m1 e1 = true /\ (F2Q (Zpos mw) ew <= F2Q (Zpos m1) e1)%Q.
Proof.
  intros Hx Hl Hfx Hfl Hbw Hle.
  pose proof (F2Q_pos mw ew) as Hw0.
  destruct x as [sx | sx | | sx mx ex], l as [sl | sl | | sl ml el];
    try discriminate; cbn [to_Q] in Hle.
  - exfalso. lra.
  - destruct sl; cbn [cond_Zopp] in Hle.
    + right. exists ml, el. split; [reflexivity | split; [exact Hl |]].
      change (- Zpos ml) with (Zneg ml) in Hle.
      change (Zneg ml) with (- Zpos ml) in Hle. rewrite F2Q_opp in Hle. lra.
    + exfalso. pose proof (F2Q_pos ml el). lra.
  - destruct sx; cbn [cond_Zopp] in Hle.
    + exfalso. pose proof (F2Q_neg mx ex).
      change (- Zpos mx) with (Zneg mx) in Hle. lra.
    + right. exists mx, ex. split; [reflexivity | split; [exact Hx |]]. lra.
  - destruct (sub_finite sx sl mx ml ex el) as (z & ez & -> & Hv).
    cbn [to_Q] in Hv.
    assert (Hz : (F2Q (Zpos mw) ew <= F2Q z ez)%Q) by (rewrite Hv; lra).
    assert (Hz0 : 0 < z) by (apply (F2Q_sign z ez); lra).
    destruct z as [| p | p]; try lia. cbn [binary_normalize].
    destruct (binary_round_represents false p ez) as (mz & e' & -> & Hrep).
    destruct (round_ge false _ _ _ _ mw ew Hrep Hbw Hz)
      as [-> | (m1 & e1 & -> & Hb1 & Hge)]; [now left |].
    right. now exists m1, e1.
Qed.

Lemma click_clamp_high (p : Number.t) :
  (p = S754_infinity false \/
   exists m1 e1, p = S754_finite false m1 e1 /\ bounded prec emax m1 e1 = true /\
                 (1 <= F2Q (Zpos m1) e1)%Q) ->
  Math_max (of_Z 0) (Math_min (of_Z 1) p) = of_Z 1.
Proof.
  intros [-> | (m1 & e1 & -> & Hb & Hle)]; [reflexivity |].
  assert (Hmin : Math_min (of_Z 1) (S754_finite false m1 e1) = of_Z 1).
  { unfold Math_min.
    change (of_Z 1) with (S754_finite false 4503599627370496 (-52)).
    destruct (ltb (S754_finite false 4503599627370496 (-52)) (S754_finite false m1 e1));
      [reflexivity |].
    destruct (ltb (S754_finite false m1 e1) (S754_finite false 4503599627370496 (-52)))
      eqn:Hlt; [| reflexivity].
    exfalso. apply ltb_pos in Hlt; [| exact Hb | reflexivity].
    rewrite one_value in Hlt. apply (Qlt_irrefl 1).
    eapply Qle_lt_trans; eassumption. }
  rewrite Hmin. reflexivity.
Qed.

Lemma mul_one_l (s : bool) (m : positive) (e : Z) :
  bounded prec emax m e = true ->
  mul (of_Z 1) (S754_finite s m e) = S754_finite s m e.
Proof.
  intros Hb. change (of_Z 1) with (S754_finite false 4503599627370496 (-52)).
  rewrite mul_finite. cbn [xorb].
  pose proof (mul_represents 4503599627370496 m (-52) e eq_refl Hb) as Hrep.
  apply (round_exact _ _ _ _ _ _ _ Hrep Hb).
  rewrite one_value. ring.
Qed.

(** *** To the left of the track *)

Lemma sub_nonpos (x l : Number.t) :
  well_formed x = true -> well_formed l = true ->
  isFinite x = true -> isFinite l = true ->
  (to_Q x <= to_Q l)%Q ->
  nonpos (sub x l) /\ well_formed (sub x l) = true.
Proof.
  intros Hx Hl Hfx Hfl Hle.
  split; [| now apply sub_well_formed].
  destruct x as [sx | sx | | sx mx ex], l as [sl | sl | | sl ml el];
    try discriminate; cbn [to_Q] in Hle.
  - destruct sx, sl; exact I.
  - destruct sl; cbn [cond_Zopp] in Hle; [| exact I].
    exfalso. pose proof (F2Q_neg ml el).
    change (- Zpos ml) with (Zneg ml) in Hle. lra.
  - destruct sx; cbn [cond_Zopp] in Hle; [exact I |].
    exfalso. pose proof (F2Q_pos mx ex). lra.
  - destruct (sub_finite sx sl mx ml ex el) as (z & ez & -> & Hv).
    cbn [to_Q] in Hv.
    assert (Hz : (F2Q z ez <= 0)%Q) by (rewrite Hv; lra).
    apply F2Q_nonpos in Hz.
    destruct z as [| p | p]; try lia; [exact I |].
    cbn [binary_normalize].
    destruct (binary_round_represents true p ez) as (mz & e' & -> & Hrep).
    destruct (round_sign true _ _ _ _ Hrep) as [-> | [-> | (m1 & e1 & ->)]]; exact I.
Qed.

Lemma div_nonpos (y : Number.t) (mw : positive) (ew : Z) :
  nonpos y -> well_formed y = true -> bounded prec emax mw ew = true ->
  nonpos (div y (S754_finite false mw ew)).
Proof.
  intros Hy Hw Hbw.
  destruct y as [sy | [|] | | [|] my ey]; try contradiction; try exact I.
  unfold div, SFdiv. cbn [xorb].
  destruct (div_represents my mw ey ew Hw Hbw) as (q & e' & l & -> & Hrep).
  destruct (round_sign true _ _ _ _ Hrep) as [-> | [-> | (m1 & e1 & ->)]]; exact I.
Qed.

Lemma click_clamp_low (p : Number.t) :
  nonpos p -> Math_max (of_Z 0) (Math_min (of_Z 1) p) = of_Z 0.
Proof.
  destruct p as [[|] | [|] | | [|] m e]; try contradiction; reflexivity.
Qed.

(** X14: with finite coordinates, a bar of positive width and a track
    of known, finite length, a click at or left of the left edge of the
    progress track seeks to exactly 0, and a click at or right of its
    right edge seeks to exactly the length of the track; neither
    throws and neither changes anything but the position. *)
Theorem click_beside_the_track (clientX : Number.t) (r : Rect) (a : Audio) :
  well_formed clientX = true -> well_formed (left r) = true ->
  well_formed (width r) = true -> well_formed (duration a) = true ->
  isFinite clientX = true -> isFinite (left r) = true ->
  isFinite (width r) = true -> isFinite (duration a) = true ->
  ltb (of_Z 0) (width r) = true -> ltb (of_Z 0) (duration a) = true ->
  ((to_Q clientX <= to_Q (left r))%Q ->
     progress_click clientX r a = Normal (set_currentTime (of_Z 0) a)) /\
  ((to_Q (left r) + to_Q (width r) <= to_Q clientX)%Q ->
     progress_click clientX r a = Normal (set_currentTime (duration a) a)).
Proof.
  intros Hx Hl Hw Hd Hfx Hfl Hfw Hfd Hw0 Hd0.
  destruct r as [l w]. destruct a as [sr d c pa].
  cbn [left width duration] in *.
  unfold progress_click, seekPercent, assign_currentTime.
  cbn [left width duration]. rewrite Hd0.
  destruct w as [sw | sw | | [|] mw ew]; try discriminate.
  destruct d as [sd | sd | | [|] md ed]; try discriminate.
  split.
  - intros Hle.
    destruct (sub_nonpos clientX l Hx Hl Hfx Hfl Hle) as [Hn Hwf].
    rewrite (click_clamp_low _ (div_nonpos _ mw ew Hn Hwf Hw)).
    reflexivity.
  - intros Hle. cbn [to_Q cond_Zopp] in Hle.
    assert (Hp : Math_max (of_Z 0)
                   (Math_min (of_Z 1) (div (sub clientX l) (S754_finite false mw ew))) =
                 of_Z 1).
    { apply click_clamp_high.
      destruct (sub_ge clientX l mw ew Hx Hl Hfx Hfl Hw Hle)
        as [-> | (m1 & e1 & -> & Hb1 & Hge)]; [now left |].
      now apply div_ge_one. }
    rewrite Hp, (mul_one_l false md ed Hd). reflexivity.
Qed.

Lemma click_beside_the_track_witness :
  progress_click (of_Z 50) (mkRect (of_Z 100) (of_Z 200))
    (mkAudio "a.mp3" (of_Z 180) (of_Z 7) true) =
    Normal (mkAudio "a.mp3" (of_Z 180) (of_Z 0) true) /\
  progress_click (of_Z 400) (mkRect (of_Z 100) (of_Z 200))
    (mkAudio "a.mp3" (of_Z 180) (of_Z 7) true) =
    Normal (mkAudio "a.mp3" (of_Z 180) (of_Z 180) true).
Proof.
  split.
  - apply (click_beside_the_track (of_Z 50) (mkRect (of_Z 100) (of_Z 200))
             (mkAudio "a.mp3" (of_Z 180) (of_Z 7) true)
             eq_refl eq_refl eq_refl eq_refl eq_refl eq_refl eq_refl eq_refl
             eq_refl eq_refl).
    vm_compute. discriminate.
  - apply (click_beside_the_track (of_Z 400) (mkRect (of_Z 100) (of_Z 200))
             (mkAudio "a.mp3" (of_Z 180) (of_Z 7) true)
             eq_refl eq_refl eq_refl eq_refl eq_refl eq_refl eq_refl eq_refl
             eq_refl eq_refl).
    vm_compute. discriminate.
Defined.

End ClickFacts.

(** ** The grid of tiles *)

Module GridFacts.

Import Playlist PlaylistFacts PlayerUI.

Lemma nth_tiles_from (ts : list Track) (i : Z) (k : nat) :
  nth_error (tiles_from i ts) k =
  option_map (tile (i + Z.of_nat k)) (nth_error ts k).
Proof.
  revert i k. induction ts as [| t ts IH]; intros i k.
  - destruct k; reflexivity.
  - destruct k as [| k]; cbn [tiles_from nth_error option_map].
    + now rewrite Z.add_0_r.
    + rewrite IH. do 2 f_equal. lia.
Qed.

Lemma length_tiles_from (ts : list Track) (i : Z) :
  List.length (tiles_from i ts) = List.length ts.
Proof.
  revert i. induction ts as [| t ts IH]; intros i; simpl; [reflexivity |].
  now rewrite IH.
Qed.

Lemma nth_renderGrid (p : Playlist.t) (k : nat) (t : Track) :
  nth_error (tracks p) k = Some t ->
  nth_error (renderGrid p) k =
  Some (toggle_current
          (match current p with
           | Some c => String.eqb (id t) (id c)
           | None => false
           end) (tile (Z.of_nat k) t)).
Proof.
  intros Hk. unfold renderGrid, _markCurrent. cbv zeta.
  rewrite nth_error_map, nth_tiles_from, Hk. cbn [option_map].
  destruct (current p); reflexivity.
Qed.

Lemma setIndex_to_track (p : Playlist.t) (k : nat) (t : Track) :
  nth_error (tracks p) k = Some t ->
  current (setIndex (Z.of_nat k) p) = Some t.
Proof.
  intros Hk.
  assert (Hlt : (k < List.length (tracks p))%nat).
  { apply nth_error_Some. congruence. }
  assert (Hne : tracks p <> []).
  { intros He. rewrite He in Hlt. simpl in Hlt. lia. }
  unfold current. rewrite setIndex_tracks, (setIndex_index _ _ Hne).
  unfold length. rewrite Z.mod_small by lia.
  unfold item_at. destruct (Z.ltb_spec (Z.of_nat k) 0); [lia |].
  now rewrite Nat2Z.id.
Qed.

(** X16: [renderGrid] makes one tile per track, in the order of the
    catalog; the tile of a track carries its id, is highlighted exactly
    when its id is that of the current track, and a click on it moves
    the cursor to the very track it then plays.  With distinct ids and
    the cursor in range, the highlighted tile is the one at the cursor
    and no other. *)
Theorem grid_follows_cursor (p : Playlist.t) :
  List.length (renderGrid p) = List.length (tracks p) /\
  forall (k : nat) (t : Track),
    nth_error (tracks p) k = Some t ->
    exists el,
      nth_error (renderGrid p) k = Some el /\
      data_id el = id t /\
      is_current el = match current p with
                      | Some c => String.eqb (id t) (id c)
                      | None => false
                      end /\
      click_track el = t /\
      current (setIndex (click_index el) p) = Some t /\
      (in_range p -> NoDup (map id (tracks p)) ->
       is_current el = (Z.of_nat k =? index p)).
Proof.
  split.
  { unfold renderGrid, _markCurrent. cbv zeta.
    now rewrite length_map, length_tiles_from. }
  intros k t Hk.
  eexists. split; [apply (nth_renderGrid p k t Hk) |].
  cbn [data_id is_current click_track click_index toggle_current tile].
  repeat split.
  - now apply setIndex_to_track.
  - intros Hr Hnd. unfold in_range, length in Hr.
    unfold current, item_at.
    destruct (Z.ltb_spec (index p) 0) as [| _]; [lia |].
    destruct (nth_error (tracks p) (Z.to_nat (index p))) as [c |] eqn:Hc.
    + destruct (Z.eqb_spec (Z.of_nat k) (index p)) as [He | Hne].
      * rewrite <- He, Nat2Z.id, Hk in Hc. injection Hc as <-.
        apply String.eqb_refl.
      * apply String.eqb_neq. intros Hid.
        assert (Hlt : (k < List.length (map id (tracks p)))%nat).
        { rewrite length_map. apply nth_error_Some. congruence. }
        pose proof (proj1 (NoDup_nth_error (map id (tracks p))) Hnd
                      k (Z.to_nat (index p)) Hlt) as Heq.
        rewrite !nth_error_map, Hk, Hc in Heq. cbn [option_map] in Heq.
        rewrite Hid in Heq. specialize (Heq eq_refl). lia.
    + exfalso. apply nth_error_None in Hc. lia.
Qed.

Lemma grid_follows_cursor_witness :
  List.length (renderGrid (setIndex 4 (new demoTracks))) = 12%nat /\
  map is_current (renderGrid (setIndex 4 (new demoTracks))) =
    [false; false; false; false; true; false; false; false; false; false;
     false; false].
Proof.
  split.
  - exact (proj1 (grid_follows_cursor (setIndex 4 (new demoTracks)))).
  - reflexivity.
Defined.

End GridFacts.
